(** * hio.core.memoing: the MemoGram queueing engine

    A shallow embedding of [src/hio/core/memoing.py] (class [MemoGram]) and
    the properties of its receive and transmit service passes.

    The Python object is a record of its attributes; a method is a function
    from the object to the object after the call paired with how the call
    ended (a returned value or a raised exception).  The object survives an
    exception that propagates out of a method, so the state is threaded
    through raises as well. *)

From Stdlib Require Import List String ZArith NArith Lia Bool.
From Stdlib Require Import Strings.Byte.
Import ListNotations.

Set Implicit Arguments.

(** ** Python values *)

(** [bytes] and [bytearray]: finite sequences of octets. *)
Definition bytes := list byte.

(** [str]: a finite sequence of code points.  A Python [str] holds code
    points in [0, 0x10FFFF], lone surrogates included. *)
Definition pystr := list N.

(** A peer address (docstrings: [dst: str], [src: str]). *)
Definition addr := string.

(** A memo or gram as the caller hands it to [memoit] / [gramit]: the
    docstrings disagree on [str] versus [bytes], and Python checks nothing
    until a method of the value is called. *)
Inductive pyval :=
| PStr (s : pystr)
| PBytes (b : bytes).

(** The [errno] codes the module names, and any other one. *)
Inductive errno :=
| ECONNREFUSED | ECONNRESET | ENETRESET | ENETUNREACH | EHOSTUNREACH
| ENETDOWN | EHOSTDOWN | ETIMEDOUT | ETIME
| ENOBUFS | ENOMEM | EAGAIN
| EOTHER (code : Z).

Inductive exn :=
| IndexError
| KeyError
| AttributeError
| UnicodeEncodeError
| UnicodeDecodeError
| UnboundLocalError
| OSError (e : errno).

(** How a call ends.  [OutOfFuel] is not a Python outcome: it marks a
    [while] loop of the model that was cut before it ended. *)
Inductive outcome (A : Type) :=
| Ret (a : A)
| Raise (e : exn)
| OutOfFuel.
Arguments Raise {A} e.
Arguments OutOfFuel {A}.

(** ** [str.encode()] and [bytes.decode()]: strict UTF-8 *)

Module Utf8.

Local Open Scope N_scope.

Definition octet (n : N) : byte :=
  match Byte.of_N n with Some b => b | None => x00 end.

Definition is_surrogate (c : N) : bool := (0xD800 <=? c) && (c <? 0xE000).

(** One code point; [None] is [UnicodeEncodeError] (a lone surrogate), and
    also the answer for a number that is no code point at all. *)
Definition encode_cp (c : N) : option bytes :=
  if c <? 0x80 then Some [octet c]
  else if c <? 0x800 then
    Some [octet (0xC0 + c / 64); octet (0x80 + c mod 64)]
  else if c <? 0x10000 then
    if is_surrogate c then None
    else Some [octet (0xE0 + c / 4096); octet (0x80 + (c / 64) mod 64);
               octet (0x80 + c mod 64)]
  else if c <? 0x110000 then
    Some [octet (0xF0 + c / 262144); octet (0x80 + (c / 4096) mod 64);
          octet (0x80 + (c / 64) mod 64); octet (0x80 + c mod 64)]
  else None.

Fixpoint encode (s : pystr) : option bytes :=
  match s with
  | [] => Some []
  | c :: s' =>
    match encode_cp c, encode s' with
    | Some b, Some bs => Some (b ++ bs)
    | _, _ => None
    end
  end.

(** Payload of a continuation octet [10xxxxxx]. *)
Definition cont (b : byte) : option N :=
  let n := Byte.to_N b in
  if (0x80 <=? n) && (n <? 0xC0) then Some (n - 0x80) else None.

(** [None] is [UnicodeDecodeError]: a stray continuation octet, an overlong
    form, a surrogate, a value above 0x10FFFF or a truncated sequence. *)
Fixpoint decode (bs : bytes) : option pystr :=
  match bs with
  | [] => Some []
  | b0 :: r0 =>
    let n0 := Byte.to_N b0 in
    if n0 <? 0x80 then option_map (cons n0) (decode r0)
    else if n0 <? 0xC2 then None
    else if n0 <? 0xE0 then
      match r0 with
      | b1 :: r1 =>
        match cont b1 with
        | Some c1 => option_map (cons ((n0 - 0xC0) * 64 + c1)) (decode r1)
        | None => None
        end
      | _ => None
      end
    else if n0 <? 0xF0 then
      match r0 with
      | b1 :: b2 :: r2 =>
        match cont b1, cont b2 with
        | Some c1, Some c2 =>
          let c := (n0 - 0xE0) * 4096 + c1 * 64 + c2 in
          if (c <? 0x800) || is_surrogate c then None
          else option_map (cons c) (decode r2)
        | _, _ => None
        end
      | _ => None
      end
    else if n0 <? 0xF5 then
      match r0 with
      | b1 :: b2 :: b3 :: r3 =>
        match cont b1, cont b2, cont b3 with
        | Some c1, Some c2, Some c3 =>
          let c := (n0 - 0xF0) * 262144 + c1 * 4096 + c2 * 64 + c3 in
          if (c <? 0x10000) || (0x110000 <=? c) then None
          else option_map (cons c) (decode r3)
        | _, _, _ => None
        end
      | _ => None
      end
    else None
  end.

End Utf8.

(** [gram.encode()]: [bytes] has no [encode] attribute. *)
Definition encode (g : pyval) : outcome bytes :=
  match g with
  | PStr s =>
    match Utf8.encode s with
    | Some b => Ret b
    | None => Raise UnicodeEncodeError
    end
  | PBytes _ => Raise AttributeError
  end.

(** [gram.decode()] on received octets. *)
Definition decode (b : bytes) : outcome pystr :=
  match Utf8.decode b with
  | Some s => Ret s
  | None => Raise UnicodeDecodeError
  end.

(** ** A state monad whose state outlives exceptions *)

Definition M (S A : Type) := S -> S * outcome A.

Definition ret {S A} (a : A) : M S A := fun s => (s, Ret a).

Definition bind {S A B} (m : M S A) (k : A -> M S B) : M S B :=
  fun s =>
    match m s with
    | (s', Ret a) => k a s'
    | (s', Raise e) => (s', Raise e)
    | (s', OutOfFuel) => (s', OutOfFuel)
    end.

Definition raise {S A} (e : exn) : M S A := fun s => (s, Raise e).

Definition lift {S A} (o : outcome A) : M S A := fun s => (s, o).

Definition gets {S A} (f : S -> A) : M S A := fun s => (s, Ret (f s)).

Definition modify {S} (f : S -> S) : M S unit := fun s => (f s, Ret tt).

(** [try: m  except E: h] for the exceptions [E] selected by [catches]. *)
Definition try_except {S A} (m : M S A) (catches : exn -> bool) (h : M S A)
  : M S A :=
  fun s =>
    match m s with
    | (s', Raise e) => if catches e then h s' else (s', Raise e)
    | r => r
    end.

Declare Scope py_scope.
Delimit Scope py_scope with py.
Notation "x <- m ;; k" := (bind m (fun x => k))
  (at level 61, m at next level, right associativity) : py_scope.
Notation "' pat <- m ;; k" :=
  (bind m (fun x => match x with pat => k end))
  (at level 61, pat pattern, m at next level, right associativity) : py_scope.
Notation "m ;; k" := (bind m (fun _ => k))
  (at level 61, right associativity) : py_scope.
Open Scope py_scope.

Definition is_IndexError (e : exn) : bool :=
  match e with IndexError => true | _ => false end.

(** [for x in xs: body(x)], collecting what each round yields. *)
Fixpoint for_each {S A B} (xs : list A) (body : A -> M S B) : M S (list B) :=
  match xs with
  | [] => ret []
  | x :: xs' => b <- body x ;; bs <- for_each xs' body ;; ret (b :: bs)
  end.

(** [while cond: if not body(): break].  The body answers whether the loop
    goes on; a loop without [break] answers [true] every round. *)
Fixpoint while_ {S} (fuel : nat) (cond : S -> bool) (body : M S bool)
  : M S unit :=
  fun s =>
    if cond s then
      match fuel with
      | O => (s, OutOfFuel)
      | Datatypes.S n =>
        (go_on <- body ;; if go_on then while_ n cond body else ret tt) s
      end
    else (s, Ret tt).

(** ** [collections.deque] *)

Definition popleft {A} : M (list A) A :=
  fun q =>
    match q with
    | [] => (q, Raise IndexError)
    | x :: q' => (q', Ret x)
    end.

Definition append {A} (x : A) : M (list A) unit := modify (fun q => q ++ [x]).

(** Truth value of a container: non-empty. *)
Definition nonempty {A} (l : list A) : bool :=
  match l with [] => false | _ :: _ => true end.

(** ** [dict] keyed by address, in insertion order *)

Module Dict.

Definition t (V : Type) := list (addr * V).

Fixpoint get {V} (k : addr) (d : t V) : option V :=
  match d with
  | [] => None
  | (k', v) :: d' => if String.eqb k k' then Some v else get k d'
  end.

(** [k in d] *)
Definition mem {V} (k : addr) (d : t V) : bool :=
  match get k d with Some _ => true | None => false end.

(** [d[k] = v]: a present key keeps its place, a new key goes last. *)
Fixpoint set {V} (k : addr) (v : V) (d : t V) : t V :=
  match d with
  | [] => [(k, v)]
  | (k', v') :: d' =>
    if String.eqb k k' then (k, v) :: d' else (k', v') :: set k v d'
  end.

(** [del d[k]] *)
Fixpoint del {V} (k : addr) (d : t V) : t V :=
  match d with
  | [] => []
  | (k', v') :: d' => if String.eqb k k' then d' else (k', v') :: del k d'
  end.

(** [list(d.keys())] *)
Definition keys {V} (d : t V) : list addr := map fst d.

End Dict.

(** ** The transport the mixin is layered on *)

(** Result of a socket call: a value, or [socket.error] with its errno. *)
Inductive io (A : Type) :=
| Done (a : A)
| Fail (e : errno).
Arguments Fail {A} e.

(** [.receive(echo=...)] answers a duple [(gram, src)], [None] standing for
    the nothing-to-receive duple [(b'', None)]; [.send(txbs, dst)] answers
    the count of octets sent.  Both are stubs of the mixin that the
    transport subclass overrides, and both may change the transport. *)
Class Transport (T : Type) := {
  receive : T -> option (bytes * addr) -> T * io (option (bytes * addr));
  send : T -> bytes -> addr -> T * io Z
}.

(** ** The [MemoGram] object *)

Record MemoGram (T : Type) := mkMemoGram {
  opened : bool;
  rxgs : Dict.t (list bytes);
  rxms : list (pystr * addr);
  txms : list (pyval * addr);
  txgs : list (pyval * addr);
  txbs : bytes * option addr;
  (** the transport the object is mixed with *)
  transport : T;
  (** every call of [.send]: arguments and result, oldest first *)
  sent : list (bytes * addr * io Z);
  (** every [logger.error] of the transmit pass, oldest first *)
  logged : list (addr * errno);
  (** history variable: every gram taken from [.txgs] and encoded into the
      pending buffer, oldest first; nothing reads it *)
  loaded : list (bytes * addr)
}.

Arguments opened {T} _.
Arguments rxgs {T} _.
Arguments rxms {T} _.
Arguments txms {T} _.
Arguments txgs {T} _.
Arguments txbs {T} _.
Arguments transport {T} _.
Arguments sent {T} _.
Arguments logged {T} _.
Arguments loaded {T} _.

Section Engine.

Context {T : Type} {tr : Transport T}.

Definition set_opened (v : bool) (st : MemoGram T) : MemoGram T :=
  mkMemoGram v (rxgs st) (rxms st) (txms st) (txgs st) (txbs st)
             (transport st) (sent st) (logged st) (loaded st).
Definition set_rxgs (v : Dict.t (list bytes)) (st : MemoGram T) : MemoGram T :=
  mkMemoGram (opened st) v (rxms st) (txms st) (txgs st) (txbs st)
             (transport st) (sent st) (logged st) (loaded st).
Definition set_rxms (v : list (pystr * addr)) (st : MemoGram T) : MemoGram T :=
  mkMemoGram (opened st) (rxgs st) v (txms st) (txgs st) (txbs st)
             (transport st) (sent st) (logged st) (loaded st).
Definition set_txms (v : list (pyval * addr)) (st : MemoGram T) : MemoGram T :=
  mkMemoGram (opened st) (rxgs st) (rxms st) v (txgs st) (txbs st)
             (transport st) (sent st) (logged st) (loaded st).
Definition set_txgs (v : list (pyval * addr)) (st : MemoGram T) : MemoGram T :=
  mkMemoGram (opened st) (rxgs st) (rxms st) (txms st) v (txbs st)
             (transport st) (sent st) (logged st) (loaded st).
Definition set_txbs (v : bytes * option addr) (st : MemoGram T) : MemoGram T :=
  mkMemoGram (opened st) (rxgs st) (rxms st) (txms st) (txgs st) v
             (transport st) (sent st) (logged st) (loaded st).
Definition set_transport (v : T) (st : MemoGram T) : MemoGram T :=
  mkMemoGram (opened st) (rxgs st) (rxms st) (txms st) (txgs st) (txbs st)
             v (sent st) (logged st) (loaded st).
Definition set_sent (v : list (bytes * addr * io Z)) (st : MemoGram T) : MemoGram T :=
  mkMemoGram (opened st) (rxgs st) (rxms st) (txms st) (txgs st) (txbs st)
             (transport st) v (logged st) (loaded st).
Definition set_logged (v : list (addr * errno)) (st : MemoGram T) : MemoGram T :=
  mkMemoGram (opened st) (rxgs st) (rxms st) (txms st) (txgs st) (txbs st)
             (transport st) (sent st) v (loaded st).
Definition set_loaded (v : list (bytes * addr)) (st : MemoGram T) : MemoGram T :=
  mkMemoGram (opened st) (rxgs st) (rxms st) (txms st) (txgs st) (txbs st)
             (transport st) (sent st) (logged st) v.

(** [__init__] with its defaults: empty containers, idle buffer, and the
    [opened = False] stub. *)
Definition init (t0 : T) : MemoGram T :=
  mkMemoGram false [] [] [] [] ([], None) t0 [] [] [].

(** Run a deque method on one of the deques the object holds: the deque is
    a shared mutable object, so what the method does to it stays done even
    when the method, or the code after it, raises. *)
Definition on_rxms {A} (m : M (list (pystr * addr)) A) : M (MemoGram T) A :=
  fun st => let (q, r) := m (rxms st) in (set_rxms q st, r).
Definition on_txms {A} (m : M (list (pyval * addr)) A) : M (MemoGram T) A :=
  fun st => let (q, r) := m (txms st) in (set_txms q st, r).
Definition on_txgs {A} (m : M (list (pyval * addr)) A) : M (MemoGram T) A :=
  fun st => let (q, r) := m (txgs st) in (set_txgs q st, r).

(** The same for the deque [self.rxgs[src]]; [KeyError] without the key. *)
Definition on_rxgs_at {A} (src : addr) (m : M (list bytes) A) : M (MemoGram T) A :=
  fun st =>
    match Dict.get src (rxgs st) with
    | None => (st, Raise KeyError)
    | Some q =>
      let (q', r) := m q in (set_rxgs (Dict.set src q' (rxgs st)) st, r)
    end.

(** *** Lifecycle stubs *)

Definition open : M (MemoGram T) bool := modify (set_opened true) ;; ret true.
Definition close : M (MemoGram T) unit := modify (set_opened false).
Definition reopen : M (MemoGram T) bool := close ;; open.

(** *** Receive side *)

(** [self.receive(echo=echo)]; a [socket.error] is re-raised as it is. *)
Definition call_receive (echo : option (bytes * addr))
  : M (MemoGram T) (option (bytes * addr)) :=
  fun st =>
    let (t', r) := receive (transport st) echo in
    match r with
    | Done x => (set_transport t' st, Ret x)
    | Fail e => (set_transport t' st, Raise (OSError e))
    end.

Definition _serviceOneReceived (echo : option (bytes * addr)) : M (MemoGram T) bool :=
  r <- call_receive echo ;;
  match r with
  | None => ret false
  | Some (gram, src) =>
    if negb (nonempty gram) then ret false
    else
      has <- gets (fun st => Dict.mem src (rxgs st)) ;;
      (if negb has
       then modify (fun st => set_rxgs (Dict.set src [] (rxgs st)) st)
       else ret tt) ;;
      on_rxgs_at src (append gram) ;;
      ret true
  end.

Definition serviceReceivesOnce (echo : option (bytes * addr)) : M (MemoGram T) unit :=
  o <- gets opened ;;
  if o then _serviceOneReceived echo ;; ret tt else ret tt.

(** [while self.opened: ...; echo = None]: the echo is handed on once. *)
Fixpoint serviceReceives (fuel : nat) (echo : option (bytes * addr))
  : M (MemoGram T) unit :=
  o <- gets opened ;;
  if o then
    match fuel with
    | O => lift OutOfFuel
    | S n =>
      got <- _serviceOneReceived echo ;;
      if negb got then ret tt else serviceReceives n None
    end
  else ret tt.

(** [desegment(grams)] on the deque it is given. *)
Definition desegment : M (list bytes) (option pystr) :=
  try_except
    (gram <- popleft ;;
     memo <- lift (decode gram) ;;
     ret (Some memo))
    is_IndexError
    (ret None).

Definition _serviceOnceRxGrams : M (MemoGram T) bool :=
  srcs <- gets (fun st => Dict.keys (rxgs st)) ;;
  goods <- for_each srcs (fun src =>
    memo <- on_rxgs_at src desegment ;;
    match memo with
    | Some m => on_rxms (append (m, src))
    | None => ret tt
    end ;;
    q <- on_rxgs_at src (gets (fun q => q)) ;;
    (if negb (nonempty q)
     then modify (fun st => set_rxgs (Dict.del src (rxgs st)) st)
     else ret tt) ;;
    match memo with
    | Some _ => gets (fun st => Dict.mem src (rxgs st))
    | None => ret false
    end) ;;
  ret (existsb (fun g => g) goods).

Definition serviceRxGramsOnce : M (MemoGram T) unit :=
  some <- gets (fun st => nonempty (rxgs st)) ;;
  if some then _serviceOnceRxGrams ;; ret tt else ret tt.

Definition serviceRxGrams (fuel : nat) : M (MemoGram T) unit :=
  while_ fuel (fun st => nonempty (rxgs st)) _serviceOnceRxGrams.

Definition _serviceOneRxMemo : M (MemoGram T) (pystr * addr) := on_rxms popleft.

Definition serviceRxMemosOnce : M (MemoGram T) unit :=
  try_except (_serviceOneRxMemo ;; ret tt) is_IndexError (ret tt).

Definition serviceRxMemos (fuel : nat) : M (MemoGram T) unit :=
  while_ fuel (fun st => nonempty (rxms st)) (_serviceOneRxMemo ;; ret true).

Definition serviceAllRxOnce : M (MemoGram T) unit :=
  serviceReceivesOnce None ;; serviceRxGramsOnce ;; serviceRxMemosOnce.

Definition serviceAllRx (fuel : nat) : M (MemoGram T) unit :=
  serviceReceives fuel None ;; serviceRxGrams fuel ;; serviceRxMemos fuel.

(** *** Transmit side *)

Definition memoit (memo : pyval) (dst : addr) : M (MemoGram T) unit :=
  on_txms (append (memo, dst)).

Definition segment (memo : pyval) : list pyval := [memo].

Definition _serviceOneTxMemo : M (MemoGram T) unit :=
  '(memo, dst) <- on_txms popleft ;;
  let grams := segment memo in
  for_each grams (fun gram => on_txgs (append (gram, dst))) ;;
  ret tt.

Definition serviceTxMemosOnce : M (MemoGram T) unit :=
  try_except _serviceOneTxMemo is_IndexError (ret tt).

Definition serviceTxMemos (fuel : nat) : M (MemoGram T) unit :=
  while_ fuel (fun st => nonempty (txms st)) (_serviceOneTxMemo ;; ret true).

Definition gramit (gram : pyval) (dst : addr) : M (MemoGram T) unit :=
  on_txgs (append (gram, dst)).

(** [ex.args[0] in (errno.ECONNREFUSED, ..., errno.ETIME)] *)
Definition peer_unreachable (e : errno) : bool :=
  match e with
  | ECONNREFUSED | ECONNRESET | ENETRESET | ENETUNREACH | EHOSTUNREACH
  | ENETDOWN | EHOSTDOWN | ETIMEDOUT | ETIME => true
  | _ => false
  end.

(** [self.send(gram, dst)], remembered in [sent]. *)
Definition call_send (gram : bytes) (dst : addr) : M (MemoGram T) (io Z) :=
  fun st =>
    let (t', r) := send (transport st) gram dst in
    (set_sent (sent st ++ [(gram, dst, r)]) (set_transport t' st), Ret r).

Definition log_error (dst : addr) (e : errno) : M (MemoGram T) unit :=
  modify (fun st => set_logged (logged st ++ [(dst, e)]) st).

Definition note_loaded (gram : bytes) (dst : addr) : M (MemoGram T) unit :=
  modify (fun st => set_loaded (loaded st ++ [(gram, dst)]) st).

(** Where the slice [[:cnt]] stops in a sequence of [len] items. *)
Definition slice_stop (len : nat) (cnt : Z) : nat :=
  if (cnt <? 0)%Z then Z.to_nat (Z.max 0 (Z.of_nat len + cnt))
  else Nat.min (Z.to_nat cnt) len.

(** [del gram[:cnt]] *)
Definition del_prefix {A} (gram : list A) (cnt : Z) : list A :=
  skipn (slice_stop (List.length gram) cnt) gram.

(** Truth value of a destination: [None] and the empty string are false. *)
Definition truthy (dst : option addr) : bool :=
  match dst with
  | None => false
  | Some d => negb (String.eqb d EmptyString)
  end.

Definition _serviceOnceTxGrams : M (MemoGram T) bool :=
  '(gram, dst) <- gets txbs ;;
  pending <-
    match dst with
    | None =>
      try_except
        ('(g, d) <- on_txgs popleft ;;
         b <- lift (encode g) ;;
         note_loaded b d ;;
         ret (Some (b, d)))
        is_IndexError
        (ret None)
    | Some d => ret (Some (gram, d))
    end ;;
  match pending with
  | None => ret false
  | Some (gram, dst) =>
    r <- call_send gram dst ;;
    cnt <-
      match r with
      | Done n => ret (Some n)
      | Fail e =>
        if peer_unreachable e then
          log_error dst e ;;
          modify (set_txbs ([], None)) ;;
          ret None
        else raise (OSError e)
      end ;;
    match cnt with
    | None => raise UnboundLocalError
    | Some n =>
      let gram := del_prefix gram n in
      let dst := if negb (nonempty gram) then None else Some dst in
      modify (set_txbs (gram, dst)) ;;
      ret (if truthy dst then false else true)
    end
  end.

Definition tx_ready (st : MemoGram T) : bool := opened st && nonempty (txgs st).

Definition serviceTxGramsOnce : M (MemoGram T) unit :=
  go <- gets tx_ready ;;
  if go then _serviceOnceTxGrams ;; ret tt else ret tt.

Definition serviceTxGrams (fuel : nat) : M (MemoGram T) unit :=
  while_ fuel tx_ready _serviceOnceTxGrams.

Definition serviceAllTxOnce : M (MemoGram T) unit :=
  serviceTxMemosOnce ;; serviceTxGramsOnce.

Definition serviceAllTx (fuel : nat) : M (MemoGram T) unit :=
  serviceTxMemos fuel ;; serviceTxGrams fuel.

Definition serviceLocal (fuel : nat) : M (MemoGram T) unit :=
  serviceReceives fuel None ;; serviceTxGrams fuel.

Definition serviceAllOnce : M (MemoGram T) unit :=
  serviceAllRxOnce ;; serviceAllTxOnce.

Definition serviceAll (fuel : nat) : M (MemoGram T) unit :=
  serviceAllRx fuel ;; serviceAllTx fuel.

End Engine.

Arguments init {T} t0.

(** ** Transports *)

(** The stubs the mixin itself defines: [receive] hands back its [echo],
    [send] reports every octet sent. *)
#[export] Instance stub_transport : Transport unit := {|
  receive := fun _ echo => (tt, Done echo);
  send := fun _ txbs _ => (tt, Done (Z.of_nat (List.length txbs)))
|}.

(** A simulated socket: datagrams queued for delivery, and a script of the
    results of the coming [send] calls (all octets sent once the script is
    used up). *)
Record Sim := mkSim {
  inbox : list (bytes * addr);
  script : list (io Z)
}.

#[export] Instance sim_transport : Transport Sim := {|
  receive := fun t _ =>
    match inbox t with
    | [] => (t, Done None)
    | dg :: rest => (mkSim rest (script t), Done (Some dg))
    end;
  send := fun t txbs _ =>
    match script t with
    | [] => (t, Done (Z.of_nat (List.length txbs)))
    | r :: rest => (mkSim (inbox t) rest, r)
    end
|}.

(** A loopback: what is sent to [dst] is delivered, whole, as a datagram
    whose source is [dst]. *)
Record Loopback := mkLoopback { wire : list (bytes * addr) }.

#[export] Instance loopback_transport : Transport Loopback := {|
  receive := fun t _ =>
    match wire t with
    | [] => (t, Done None)
    | dg :: rest => (mkLoopback rest, Done (Some dg))
    end;
  send := fun t txbs dst =>
    (mkLoopback (wire t ++ [(txbs, dst)]), Done (Z.of_nat (List.length txbs)))
|}.

(** ** Vocabulary of the statements *)

Section Vocabulary.

Context {T : Type} {tr : Transport T}.

(** The Transmit Buffer is idle: [(bytearray(), None)]. *)
Definition idle (st : MemoGram T) : Prop := txbs st = ([], None).

(** What the next transmit pass hands to [.send]: the unsent remainder, or
    else the head of [.txgs] once encoded. *)
Definition next_send (st : MemoGram T) : option (bytes * addr) :=
  match txbs st with
  | (gram, Some d) => Some (gram, d)
  | (_, None) =>
    match txgs st with
    | (g, d) :: _ =>
      match encode g with
      | Ret b => Some (b, d)
      | _ => None
      end
    | [] => None
    end
  end.

(** [.txgs] once the next pass has taken what it sends. *)
Definition txgs_after_take (st : MemoGram T) : list (pyval * addr) :=
  match txbs st with
  | (_, Some _) => txgs st
  | (_, None) => tl (txgs st)
  end.

End Vocabulary.

(** ** Operations and reachable states *)

Section Reachability.

Context {T : Type} {tr : Transport T}.

(** The five containers of the object. *)
Definition containers (st : MemoGram T) :=
  (rxgs st, rxms st, txms st, txgs st, txbs st).

(** A call the owner of the object can make: the public methods, and the
    one-step methods the services are built from. *)
Inductive op :=
| Open | Close | Reopen
| Memoit (memo : pyval) (dst : addr)
| Gramit (gram : pyval) (dst : addr)
| OneReceived (echo : option (bytes * addr))
| ReceivesOnce (echo : option (bytes * addr))
| Receives (echo : option (bytes * addr))
| OnceRxGrams | RxGramsOnce | RxGrams
| OneRxMemo | RxMemosOnce | RxMemos
| AllRxOnce | AllRx
| OneTxMemo | TxMemosOnce | TxMemos
| OnceTxGrams | TxGramsOnce | TxGrams
| AllTxOnce | AllTx
| Local | AllOnce | All.

Definition forget {A} (m : M (MemoGram T) A) : M (MemoGram T) unit :=
  m ;; ret tt.

Definition run (fuel : nat) (o : op) : M (MemoGram T) unit :=
  match o with
  | Open => forget open
  | Close => close
  | Reopen => forget reopen
  | Memoit memo dst => memoit memo dst
  | Gramit gram dst => gramit gram dst
  | OneReceived echo => forget (_serviceOneReceived echo)
  | ReceivesOnce echo => serviceReceivesOnce echo
  | Receives echo => serviceReceives fuel echo
  | OnceRxGrams => forget _serviceOnceRxGrams
  | RxGramsOnce => serviceRxGramsOnce
  | RxGrams => serviceRxGrams fuel
  | OneRxMemo => forget _serviceOneRxMemo
  | RxMemosOnce => serviceRxMemosOnce
  | RxMemos => serviceRxMemos fuel
  | AllRxOnce => serviceAllRxOnce
  | AllRx => serviceAllRx fuel
  | OneTxMemo => _serviceOneTxMemo
  | TxMemosOnce => serviceTxMemosOnce
  | TxMemos => serviceTxMemos fuel
  | OnceTxGrams => forget _serviceOnceTxGrams
  | TxGramsOnce => serviceTxGramsOnce
  | TxGrams => serviceTxGrams fuel
  | AllTxOnce => serviceAllTxOnce
  | AllTx => serviceAllTx fuel
  | Local => serviceLocal fuel
  | AllOnce => serviceAllOnce
  | All => serviceAll fuel
  end.

(** The calls of the receive side. *)
Definition receive_side (o : op) : bool :=
  match o with
  | OneReceived _ | ReceivesOnce _ | Receives _
  | OnceRxGrams | RxGramsOnce | RxGrams
  | OneRxMemo | RxMemosOnce | RxMemos
  | AllRxOnce | AllRx => true
  | _ => false
  end.

(** States the object can be in after construction over the transport [t0]
    and any sequence of calls, however each call ended: returned, raised,
    or (for a greedy service that does not end) cut in mid-loop. *)
Inductive reachable (t0 : T) : MemoGram T -> Prop :=
| reach_init : reachable t0 (init t0)
| reach_step st fuel o :
    reachable t0 st -> reachable t0 (fst (run fuel o st)).

(** The lifecycle stubs. *)
Definition lifecycle (o : op) : bool :=
  match o with
  | Open | Close | Reopen => true
  | _ => false
  end.

(** States reachable by lifecycle and receive-side calls alone, however
    each call ended. *)
Inductive rx_reachable (t0 : T) : MemoGram T -> Prop :=
| rx_init : rx_reachable t0 (init t0)
| rx_step st fuel o :
    rx_reachable t0 st ->
    lifecycle o || receive_side o = true ->
    rx_reachable t0 (fst (run fuel o st)).

(** The same, when no call ended in a decode error. *)
Inductive rx_reachable_decoding (t0 : T) : MemoGram T -> Prop :=
| rxd_init : rx_reachable_decoding t0 (init t0)
| rxd_step st fuel o :
    rx_reachable_decoding t0 st ->
    lifecycle o || receive_side o = true ->
    snd (run fuel o st) <> Raise UnicodeDecodeError ->
    rx_reachable_decoding t0 (fst (run fuel o st)).

(** A service call is a no-op on a closed object. *)
Definition no_op_when_closed {A} (m : M (MemoGram T) A) : Prop :=
  forall st, opened st = false -> containers (fst (m st)) = containers st.

(** Suffix of a sequence. *)
Definition suffix_of {A} (s l : list A) : Prop := exists p, l = p ++ s.

(** The single in-flight slot: an idle buffer holds no octets, and a buffer
    with a destination holds a suffix of the gram loaded last, which was
    loaded for that destination. *)
Definition single_in_flight (st : MemoGram T) : Prop :=
  match txbs st with
  | (rem, None) => rem = []
  | (rem, Some d) =>
    exists earlier gram,
      loaded st = earlier ++ [(gram, d)] /\ suffix_of rem gram
  end.

(** A key of [.rxgs] is there with a non-empty deque, and once. *)
Definition keyed_iff_pending (st : MemoGram T) : Prop :=
  NoDup (Dict.keys (rxgs st)) /\
  forall a, Dict.mem a (rxgs st) = true <->
            exists q, Dict.get a (rxgs st) = Some q /\ q <> [].

(** A call runs the same whatever the [opened] flag says. *)
Definition flag_blind {A} (m : M (MemoGram T) A) : Prop :=
  forall st b,
    m (set_opened b st) = (set_opened b (fst (m st)), snd (m st)).

(** A call keeps a property of the object, however it ends. *)
Definition preserves (P : MemoGram T -> Prop) {A} (m : M (MemoGram T) A)
  : Prop :=
  forall st, P st -> P (fst (m st)).

(** A call keeps a property of the object unless it ends in [bad]. *)
Definition preserves_unless (bad : exn) (P : MemoGram T -> Prop) {A}
  (m : M (MemoGram T) A) : Prop :=
  forall st, P st -> snd (m st) <> Raise bad -> P (fst (m st)).

(** The keys of a store are distinct and none of its deques is empty. *)
Definition store_ok (d : Dict.t (list bytes)) : Prop :=
  NoDup (Dict.keys d) /\ Forall (fun kq => snd kq <> []) d.

(** The Gram Receive Store of the object is such a store. *)
Definition store_inv (st : MemoGram T) : Prop := store_ok (rxgs st).

End Reachability.

(** ** Scenarios *)

Section Scenarios.

Context {T : Type} {tr : Transport T}.

(** Memo ["a"] for ["x"], then memo ["b"] for ["y"], then the greedy
    segmentation and the greedy transmission. *)
Definition send_a_then_b (fuel : nat) : M (MemoGram T) unit :=
  memoit (PStr [97%N]) "x"%string ;;
  memoit (PStr [98%N]) "y"%string ;;
  serviceTxMemos fuel ;;
  serviceTxGrams fuel.

End Scenarios.

(** One memo through an opened object mixed with the loopback: enqueue,
    segment and transmit greedily, then receive and reassemble greedily. *)
Definition round_trip (fuel : nat) (memo : pyval) (dst : addr)
  : M (MemoGram Loopback) unit :=
  memoit memo dst ;;
  serviceTxMemos fuel ;;
  serviceTxGrams fuel ;;
  serviceReceives fuel None ;;
  serviceRxGrams fuel.

(** A fresh object over an empty loopback, opened. *)
Definition loopback_peer : MemoGram Loopback :=
  fst (open (init (mkLoopback []))).

(** A simulated socket with the datagrams [grams] queued, all from [src]. *)
Definition queued (grams : list bytes) (src : addr) : Sim :=
  mkSim (map (fun g => (g, src)) grams) [].

(** Receive and reassemble greedily, without the drain of [.rxms]. *)
Definition receive_and_reassemble {T} {tr : Transport T} (fuel : nat)
  : M (MemoGram T) unit :=
  serviceReceives fuel None ;; serviceRxGrams fuel.

(** Example objects: opened, over a simulated socket. *)
Definition two_grams_refused : MemoGram Sim :=
  mkMemoGram true [] [] []
    [(PStr [97%N], "x"%string); (PStr [98%N], "y"%string)] ([], None)
    (mkSim [] [Fail ECONNREFUSED]) [] [] [].

Definition remainder_only : MemoGram Sim :=
  mkMemoGram true [] [] [] [] ([x62; x63], Some "x"%string)
    (mkSim [] []) [] [] [].

Definition one_gram_partial : MemoGram Sim :=
  mkMemoGram true [] [] [] [(PStr [97%N; 98%N; 99%N], "x"%string)] ([], None)
    (mkSim [] [Done 1%Z]) [] [] [].

(** Two grams queued, the first for the empty string as its destination,
    over a socket that takes one octet of the first send. *)
Definition unaddressed_partial : MemoGram Sim :=
  mkMemoGram true [] [] []
    [(PStr [97%N; 98%N; 99%N], EmptyString); (PStr [100%N], "y"%string)]
    ([], None) (mkSim [] [Done 1%Z]) [] [] [].

(** ** Vocabulary of the further properties *)

(** A socket that never has a datagram and never takes an octet. *)
Inductive Jammed := jammed.

#[export] Instance jammed_transport : Transport Jammed := {|
  receive := fun t _ => (t, Done None);
  send := fun t _ _ => (t, Done 0%Z)
|}.

(** Where a received gram goes in a store: to the end of the deque of its
    source, a source that is not yet a key going last. *)
Definition enqueue (d : Dict.t (list bytes)) (dg : bytes * addr)
  : Dict.t (list bytes) :=
  match Dict.get (snd dg) d with
  | Some q => Dict.set (snd dg) (q ++ [fst dg]) d
  | None => Dict.set (snd dg) [fst dg] d
  end.

(** The deque of a source, empty for a source that is no key. *)
Definition deque_of (src : addr) (d : Dict.t (list bytes)) : list bytes :=
  match Dict.get src d with
  | Some q => q
  | None => []
  end.

(** One reassembly pass over a store, read off the store: the memo of the
    first gram of each source, in key order; the store without those grams
    and without the sources that have none left; whether a source has a
    gram left. *)
Definition head_memos (d : Dict.t (list bytes)) : list (pystr * addr) :=
  flat_map (fun kq =>
              match snd kq with
              | g :: _ =>
                match Utf8.decode g with
                | Some m => [(m, fst kq)]
                | None => []
                end
              | [] => []
              end) d.

Definition behead (d : Dict.t (list bytes)) : Dict.t (list bytes) :=
  flat_map (fun kq =>
              match tl (snd kq) with
              | [] => []
              | r => [(fst kq, r)]
              end) d.

Definition more_pending (d : Dict.t (list bytes)) : bool :=
  existsb (fun kq => nonempty (tl (snd kq))) d.

(** The first gram of every source decodes; every gram does. *)
Definition heads_decode (d : Dict.t (list bytes)) : Prop :=
  Forall (fun kq =>
            match snd kq with
            | g :: _ => Utf8.decode g <> None
            | [] => True
            end) d.

Definition all_decode (d : Dict.t (list bytes)) : Prop :=
  Forall (fun kq => Forall (fun g => Utf8.decode g <> None) (snd kq)) d.

(** The memos of a deque of decodable grams. *)
Definition decoded (q : list bytes) : list pystr :=
  flat_map (fun g =>
              match Utf8.decode g with
              | Some m => [m]
              | None => []
              end) q.

Definition total_grams (d : Dict.t (list bytes)) : nat :=
  list_sum (map (fun kq => List.length (snd kq)) d).

(** The memos of one peer in a memo queue, oldest first. *)
Definition memos_of {A} (peer : addr) (ms : list (A * addr)) : list A :=
  map fst (filter (fun ma => String.eqb (snd ma) peer) ms).

(** The calls of the transmit side. *)
Definition transmit_side (o : op) : bool :=
  match o with
  | Memoit _ _ | Gramit _ _
  | OneTxMemo | TxMemosOnce | TxMemos
  | OnceTxGrams | TxGramsOnce | TxGrams
  | AllTxOnce | AllTx => true
  | _ => false
  end.

(** What the transmit side works on, and what the receive side works on. *)
Definition transmit_state {T} (st : MemoGram T) :=
  (txms st, txgs st, txbs st, sent st, logged st, loaded st).

Definition receive_state {T} (st : MemoGram T) := (rxgs st, rxms st).

(** States the object can be in after construction over the transport [t0]
    and any sequence of calls none of which ended in a decode error. *)
Inductive reachable_decoding {T} {tr : Transport T} (t0 : T)
  : MemoGram T -> Prop :=
| rd_init : reachable_decoding t0 (init t0)
| rd_step st fuel o :
    reachable_decoding t0 st ->
    snd (run fuel o st) <> Raise UnicodeDecodeError ->
    reachable_decoding t0 (fst (run fuel o st)).

(** Every gram waiting to be sent, queued or buffered, has a destination
    that is not the empty string. *)
Definition addressed {T} (st : MemoGram T) : Prop :=
  Forall (fun gd => snd gd <> EmptyString) (txgs st) /\
  forall rem d, txbs st = (rem, Some d) -> d <> EmptyString.

(** The sends the transmit side still owes: one for each queued gram and
    one for a buffered remainder. *)
Definition pending_sends {T} (st : MemoGram T) : nat :=
  List.length (txgs st) +
  match snd (txbs st) with Some _ => 1 | None => 0 end.

(** The transport after the sends [out], made in that order. *)
Definition after_sends {T} {tr : Transport T} (t : T)
  (out : list (bytes * addr)) : T :=
  fold_left (fun t o => fst (send t (fst o) (snd o))) out t.

(** An exchange over the loopback: segment and transmit greedily, then
    receive and reassemble greedily. *)
Definition loopback_exchange (fuel : nat) : M (MemoGram Loopback) unit :=
  serviceAllTx fuel ;; serviceReceives fuel None ;; serviceRxGrams fuel.

(** [for _ in range(n): m()] *)
Fixpoint rounds {S} (n : nat) (m : M S unit) : M S unit :=
  match n with
  | O => ret tt
  | Datatypes.S k => m ;; rounds k m
  end.

(** * Properties *)

(** ** Running calls *)

Lemma while_unfold {S} fuel (cond : S -> bool) body s :
  while_ (Datatypes.S fuel) cond body s =
    if cond s
    then (go_on <- body ;; if go_on then while_ fuel cond body else ret tt) s
    else (s, Ret tt).
Proof. reflexivity. Qed.

Lemma while_done {S} fuel (cond : S -> bool) body s :
  cond s = false -> while_ fuel cond body s = (s, Ret tt).
Proof. intros H. destruct fuel; simpl; rewrite H; reflexivity. Qed.

Lemma bind_assoc {S A B C} (m : M S A) (k : A -> M S B) (h : B -> M S C) s :
  bind (bind m k) h s = bind m (fun a => bind (k a) h) s.
Proof.
  unfold bind. destruct (m s) as [s' [a|e|]]; reflexivity.
Qed.

(** A call followed by one that does nothing where the first one ends. *)
Lemma bind_then_noop {S} (m k : M S unit) s :
  k (fst (m s)) = (fst (m s), Ret tt) -> bind m (fun _ => k) s = m s.
Proof.
  unfold bind. destruct (m s) as [s' [[]|e|]]; simpl; intros H;
    [exact H | reflexivity | reflexivity].
Qed.

Lemma bind_ret_eq {S A B} (m : M S A) (k : A -> M S B) s s' a :
  m s = (s', Ret a) -> bind m k s = k a s'.
Proof. intros H. unfold bind. rewrite H. reflexivity. Qed.

(** Symbolic execution of a call on an object given by its fields. *)
Ltac py_step :=
  cbv -[String.eqb Utf8.decode Utf8.encode app send receive
        Z.of_nat List.length];
  rewrite ?String.eqb_refl.
Ltac py_run := repeat progress py_step.

(** The same over a transport that is given, too. *)
Ltac py_io_step :=
  cbv -[String.eqb Utf8.decode Utf8.encode app Z.of_nat List.length];
  rewrite ?String.eqb_refl.
Ltac py_io_run := repeat progress py_io_step.

(** ** UTF-8 round trip *)

Module Utf8Facts.
Import Utf8.

Local Open Scope N_scope.

Lemma to_N_octet n : n < 256 -> Byte.to_N (octet n) = n.
Proof.
  intros Hn. unfold octet.
  destruct (Byte.of_N n) as [b|] eqn:E.
  - now apply Byte.to_of_N.
  - apply Byte.of_N_None_iff in E. lia.
Qed.

Lemma cont_octet p : p < 64 -> cont (octet (0x80 + p)) = Some p.
Proof.
  intros Hp. unfold cont. rewrite to_N_octet by lia.
  replace (0x80 <=? 0x80 + p) with true by (symmetry; apply N.leb_le; lia).
  replace (0x80 + p <? 0xC0) with true by (symmetry; apply N.ltb_lt; lia).
  cbv [andb]. f_equal. lia.
Qed.

Lemma encode_cp_nonempty c b : encode_cp c = Some b -> b <> [].
Proof.
  unfold encode_cp.
  repeat match goal with
         | |- context [if ?x then _ else _] => destruct x
         end; intros H; inversion H; discriminate.
Qed.

Lemma encode_nil_inv s : encode s = Some [] -> s = [].
Proof.
  destruct s as [|c s]; [reflexivity|]. simpl.
  destruct (encode_cp c) as [b|] eqn:Ec; [|discriminate].
  destruct (encode s) as [bs|]; [|discriminate].
  intros H. inversion H as [H0].
  apply encode_cp_nonempty in Ec.
  destruct b; [congruence | discriminate].
Qed.

Local Ltac Zify.zify_post_hook ::= Z.to_euclidean_division_equations.

Lemma decode_cons b0 r0 :
  decode (b0 :: r0) =
    let n0 := Byte.to_N b0 in
    if n0 <? 0x80 then option_map (cons n0) (decode r0)
    else if n0 <? 0xC2 then None
    else if n0 <? 0xE0 then
      match r0 with
      | b1 :: r1 =>
        match cont b1 with
        | Some c1 => option_map (cons ((n0 - 0xC0) * 64 + c1)) (decode r1)
        | None => None
        end
      | _ => None
      end
    else if n0 <? 0xF0 then
      match r0 with
      | b1 :: b2 :: r2 =>
        match cont b1, cont b2 with
        | Some c1, Some c2 =>
          let c := (n0 - 0xE0) * 4096 + c1 * 64 + c2 in
          if (c <? 0x800) || is_surrogate c then None
          else option_map (cons c) (decode r2)
        | _, _ => None
        end
      | _ => None
      end
    else if n0 <? 0xF5 then
      match r0 with
      | b1 :: b2 :: b3 :: r3 =>
        match cont b1, cont b2, cont b3 with
        | Some c1, Some c2, Some c3 =>
          let c := (n0 - 0xF0) * 262144 + c1 * 4096 + c2 * 64 + c3 in
          if (c <? 0x10000) || (0x110000 <=? c) then None
          else option_map (cons c) (decode r3)
        | _, _, _ => None
        end
      | _ => None
      end
    else None.
Proof. reflexivity. Qed.

Lemma Some_inj {A} (x y : A) : Some x = Some y -> x = y.
Proof. congruence. Qed.

Ltac decide_cmp :=
  repeat match goal with
  | |- context [?a <? ?b] =>
    first [ replace (a <? b) with true by (symmetry; apply N.ltb_lt; lia)
          | replace (a <? b) with false by (symmetry; apply N.ltb_ge; lia) ]
  | |- context [?a <=? ?b] =>
    first [ replace (a <=? b) with true by (symmetry; apply N.leb_le; lia)
          | replace (a <=? b) with false by (symmetry; apply N.leb_gt; lia) ]
  end.

Lemma decode_encode_cp c b rest :
  encode_cp c = Some b ->
  decode (b ++ rest) = option_map (cons c) (decode rest).
Proof.
  unfold encode_cp, is_surrogate.
  destruct (c <? 0x80) eqn:H1.
  { intros H; apply Some_inj in H; subst b. apply N.ltb_lt in H1.
    cbn [app]. rewrite decode_cons. cbv zeta. rewrite to_N_octet by lia.
    decide_cmp. reflexivity. }
  apply N.ltb_ge in H1.
  destruct (c <? 0x800) eqn:H2.
  { intros H; apply Some_inj in H; subst b. apply N.ltb_lt in H2.
    cbn [app]. rewrite decode_cons. cbv zeta. rewrite to_N_octet by lia.
    decide_cmp. rewrite cont_octet by lia.
    f_equal. f_equal. lia. }
  apply N.ltb_ge in H2.
  destruct (c <? 0x10000) eqn:H3.
  { apply N.ltb_lt in H3.
    destruct (0xD800 <=? c) eqn:H4; destruct (c <? 0xE000) eqn:H5;
      cbn [andb]; try discriminate;
      intros H; apply Some_inj in H; subst b;
      try apply N.leb_le in H4; try apply N.leb_gt in H4;
      try apply N.ltb_lt in H5; try apply N.ltb_ge in H5;
      try (exfalso; lia);
      cbn [app]; rewrite decode_cons; cbv zeta; rewrite to_N_octet by lia;
      decide_cmp; rewrite !cont_octet by lia;
      replace ((0xE0 + c / 4096 - 0xE0) * 4096 + (c / 64) mod 64 * 64 + c mod 64) with c by lia;
      unfold is_surrogate; decide_cmp; reflexivity. }
  apply N.ltb_ge in H3.
  destruct (c <? 0x110000) eqn:H4; [|discriminate].
  apply N.ltb_lt in H4.
  intros H; apply Some_inj in H; subst b.
  cbn [app]; rewrite decode_cons; cbv zeta; rewrite to_N_octet by lia.
  decide_cmp; rewrite !cont_octet by lia.
  replace ((0xF0 + c / 262144 - 0xF0) * 262144 + (c / 4096) mod 64 * 4096 + (c / 64) mod 64 * 64 + c mod 64) with c by lia.
  decide_cmp. reflexivity.
Qed.

Theorem decode_encode s b : encode s = Some b -> decode b = Some s.
Proof.
  revert b. induction s as [|c s IH]; intros b; cbn [encode].
  - intros H; inversion H. reflexivity.
  - destruct (encode_cp c) as [bc|] eqn:Ec; [|discriminate].
    destruct (encode s) as [bs|]; [|discriminate].
    intros H; inversion H; subst.
    erewrite decode_encode_cp by exact Ec.
    erewrite IH by reflexivity. reflexivity.
Qed.

End Utf8Facts.

(** ** The ordered dictionary *)

Module DictFacts.

Section Facts.

Context {V : Type}.

Lemma get_In k (v : V) d : Dict.get k d = Some v -> In (k, v) d.
Proof.
  induction d as [|[k' v'] d IH]; simpl; [discriminate|].
  destruct (String.eqb_spec k k') as [->|Hk].
  - intros [= ->]. left. reflexivity.
  - intros H. right. apply IH, H.
Qed.

Lemma get_None_keys k (d : Dict.t V) :
  Dict.get k d = None -> ~ In k (Dict.keys d).
Proof.
  induction d as [|[k' v'] d IH]; simpl; [tauto|].
  destruct (String.eqb_spec k k') as [->|Hk]; [discriminate|].
  intros H [E|E]; [congruence | exact (IH H E)].
Qed.

Lemma get_set_same k (v : V) d : Dict.get k (Dict.set k v d) = Some v.
Proof.
  induction d as [|[k' v'] d IH]; simpl.
  - rewrite String.eqb_refl. reflexivity.
  - destruct (String.eqb k k') eqn:E; simpl; rewrite ?String.eqb_refl;
      [reflexivity|]. rewrite E. exact IH.
Qed.

Lemma set_set k (v v' : V) d :
  Dict.set k v (Dict.set k v' d) = Dict.set k v d.
Proof.
  induction d as [|[k' w] d IH]; simpl.
  - rewrite String.eqb_refl. reflexivity.
  - destruct (String.eqb k k') eqn:E; simpl.
    + rewrite String.eqb_refl. reflexivity.
    + rewrite E, IH. reflexivity.
Qed.

Lemma del_set k (v : V) d : Dict.del k (Dict.set k v d) = Dict.del k d.
Proof.
  induction d as [|[k' w] d IH]; simpl.
  - rewrite String.eqb_refl. reflexivity.
  - destruct (String.eqb k k') eqn:E; simpl.
    + rewrite String.eqb_refl. reflexivity.
    + rewrite E, IH. reflexivity.
Qed.

Lemma keys_set_present k (v w : V) d :
  Dict.get k d = Some w -> Dict.keys (Dict.set k v d) = Dict.keys d.
Proof.
  induction d as [|[k' w'] d IH]; simpl; [discriminate|].
  destruct (String.eqb_spec k k') as [->|Hk]; simpl; [reflexivity|].
  intros H. rewrite (IH H). reflexivity.
Qed.

Lemma keys_set_absent k (v : V) d :
  Dict.get k d = None -> Dict.keys (Dict.set k v d) = Dict.keys d ++ [k].
Proof.
  induction d as [|[k' w'] d IH]; simpl; [reflexivity|].
  destruct (String.eqb_spec k k') as [->|Hk]; simpl; [discriminate|].
  intros H. rewrite (IH H). reflexivity.
Qed.

Lemma In_set k (v : V) d x :
  In x (Dict.set k v d) -> x = (k, v) \/ In x d.
Proof.
  induction d as [|[k' w] d IH]; simpl.
  - intros [<-|[]]. left. reflexivity.
  - destruct (String.eqb k k'); simpl.
    + intros [<-|H]; [left; reflexivity | right; right; exact H].
    + intros [<-|H]; [right; left; reflexivity|].
      destruct (IH H) as [->|H']; [left; reflexivity | right; right; exact H'].
Qed.

Lemma In_del k (d : Dict.t V) x : In x (Dict.del k d) -> In x d.
Proof.
  induction d as [|[k' w] d IH]; simpl; [tauto|].
  destruct (String.eqb k k'); simpl.
  - intros H. right. exact H.
  - intros [<-|H]; [left; reflexivity | right; exact (IH H)].
Qed.

Lemma NoDup_keys_del k (d : Dict.t V) :
  NoDup (Dict.keys d) -> NoDup (Dict.keys (Dict.del k d)).
Proof.
  induction d as [|[k' w] d IH]; simpl; [intros; constructor|].
  intros H. inversion H as [|? ? Hn Hd]; subst.
  destruct (String.eqb k k'); simpl; [exact Hd|].
  constructor; [|exact (IH Hd)].
  intros Hin. apply Hn. unfold Dict.keys in *.
  apply in_map_iff in Hin. destruct Hin as ([a b] & <- & Hin).
  apply in_map_iff. exists (a, b). split; [reflexivity|].
  eapply In_del. exact Hin.
Qed.

End Facts.

Lemma store_ok_nil : store_ok [].
Proof. split; constructor. Qed.

Lemma store_ok_del k d : store_ok d -> store_ok (Dict.del k d).
Proof.
  intros [Hn Hf]. split; [apply NoDup_keys_del, Hn|].
  apply Forall_forall. intros x Hx.
  apply In_del in Hx. exact (proj1 (Forall_forall _ _) Hf x Hx).
Qed.

Lemma store_ok_set k q d :
  store_ok d -> q <> [] -> store_ok (Dict.set k q d).
Proof.
  intros [Hn Hf] Hq. split.
  - destruct (Dict.get k d) as [w|] eqn:E.
    + erewrite keys_set_present by exact E. exact Hn.
    + erewrite keys_set_absent by exact E.
      apply NoDup_app; [exact Hn | repeat constructor; intros [] |].
      intros a Ha [<-|[]]. eapply get_None_keys; eassumption.
  - apply Forall_forall. intros x Hx.
    apply In_set in Hx. destruct Hx as [->|Hin]; [exact Hq|].
    exact (proj1 (Forall_forall _ _) Hf x Hin).
Qed.

Lemma store_ok_get k q d : store_ok d -> Dict.get k d = Some q -> q <> [].
Proof.
  intros [_ Hf] Hg.
  apply get_In in Hg. exact (proj1 (Forall_forall _ _) Hf (k, q) Hg).
Qed.

End DictFacts.

(** Symbolic execution that leaves the dictionary operations folded. *)
Ltac py_dict_step :=
  cbv -[String.eqb Utf8.decode Utf8.encode app send receive
        Z.of_nat List.length Dict.get Dict.set Dict.del bytes pystr addr];
  rewrite ?DictFacts.get_set_same, ?DictFacts.set_set, ?DictFacts.del_set.

(** ** Properties kept by calls *)

Section Preservation.

Context {T : Type} {tr : Transport T}.

Variable P : MemoGram T -> Prop.

Lemma preserves_ret {A} (a : A) : preserves P (ret a).
Proof. intros st H. exact H. Qed.

Lemma preserves_lift {A} (o : outcome A) : preserves P (lift o).
Proof. intros st H. exact H. Qed.

Lemma preserves_gets {A} (f : MemoGram T -> A) : preserves P (gets f).
Proof. intros st H. exact H. Qed.

Lemma preserves_bind {A B} (m : M (MemoGram T) A) (k : A -> M (MemoGram T) B) :
  preserves P m -> (forall a, preserves P (k a)) -> preserves P (bind m k).
Proof.
  intros Hm Hk st H. unfold bind. specialize (Hm st H).
  destruct (m st) as [s' [a|e|]]; simpl in *; try assumption.
  apply Hk. exact Hm.
Qed.

Lemma preserves_try {A} (m h : M (MemoGram T) A) catches :
  preserves P m -> preserves P h -> preserves P (try_except m catches h).
Proof.
  intros Hm Hh st H. unfold try_except. specialize (Hm st H).
  destruct (m st) as [s' [a|e|]]; simpl in *; try assumption.
  destruct (catches e); [apply Hh|]; assumption.
Qed.

Lemma preserves_for_each {A B} (xs : list A) (body : A -> M (MemoGram T) B) :
  (forall x, preserves P (body x)) -> preserves P (for_each xs body).
Proof.
  intros Hb. induction xs as [|x xs IH]; simpl.
  - apply preserves_ret.
  - apply preserves_bind; [apply Hb|]. intros y.
    apply preserves_bind; [apply IH|]. intros ys. apply preserves_ret.
Qed.

Lemma preserves_while fuel (cond : MemoGram T -> bool) body :
  preserves P body -> preserves P (while_ fuel cond body).
Proof.
  intros Hb. induction fuel as [|fuel IH]; intros st H; simpl.
  - destruct (cond st); exact H.
  - destruct (cond st); [|exact H].
    apply (@preserves_bind _ _ body
             (fun go_on => if go_on then while_ fuel cond body else ret tt));
      [exact Hb | | exact H].
    intros [|]; [exact IH | apply preserves_ret].
Qed.

Lemma preserves_forget {A} (m : M (MemoGram T) A) :
  preserves P m -> preserves P (forget m).
Proof.
  intros H. apply preserves_bind; [exact H|]. intros; apply preserves_ret.
Qed.

(** What the methods are made of, for a property that a change of the
    fields named here leaves alone. *)
Hypothesis P_opened : forall st v, P st -> P (set_opened v st).
Hypothesis P_rxgs : forall st v, P st -> P (set_rxgs v st).
Hypothesis P_rxms : forall st v, P st -> P (set_rxms v st).
Hypothesis P_txms : forall st v, P st -> P (set_txms v st).
Hypothesis P_txgs : forall st v, P st -> P (set_txgs v st).
Hypothesis P_transport : forall st v, P st -> P (set_transport v st).
Hypothesis P_pass : preserves P _serviceOnceTxGrams.

Lemma preserves_on_rxms {A} (m : M _ A) : preserves P (on_rxms m).
Proof.
  intros st H. unfold on_rxms. destruct (m (rxms st)). apply P_rxms, H.
Qed.

Lemma preserves_on_txms {A} (m : M _ A) : preserves P (on_txms m).
Proof.
  intros st H. unfold on_txms. destruct (m (txms st)). apply P_txms, H.
Qed.

Lemma preserves_on_txgs {A} (m : M _ A) : preserves P (on_txgs m).
Proof.
  intros st H. unfold on_txgs. destruct (m (txgs st)). apply P_txgs, H.
Qed.

Lemma preserves_on_rxgs_at {A} src (m : M _ A) :
  preserves P (on_rxgs_at src m).
Proof.
  intros st H. unfold on_rxgs_at.
  destruct (Dict.get src (rxgs st)) as [q|]; [|exact H].
  destruct (m q). apply P_rxgs, H.
Qed.

Lemma preserves_open : preserves P open.
Proof. intros st H. apply P_opened, H. Qed.

Lemma preserves_close : preserves P close.
Proof. intros st H. apply P_opened, H. Qed.

Lemma preserves_OneReceived echo : preserves P (_serviceOneReceived echo).
Proof.
  unfold _serviceOneReceived. apply preserves_bind.
  { intros st H. unfold call_receive.
    destruct (receive (transport st) echo) as [t' [x|e]];
      apply P_transport, H. }
  intros [[gram src]|]; [|apply preserves_ret].
  destruct (negb (nonempty gram)); [apply preserves_ret|].
  apply preserves_bind; [apply preserves_gets|]. intros has.
  apply preserves_bind.
  { destruct (negb has); [|apply preserves_ret].
    intros st H. apply P_rxgs, H. }
  intros _. apply preserves_bind; [apply preserves_on_rxgs_at|].
  intros; apply preserves_ret.
Qed.

Lemma preserves_Receives fuel : forall echo,
  preserves P (serviceReceives fuel echo).
Proof.
  induction fuel as [|fuel IH]; intros echo; simpl;
    (apply preserves_bind; [apply preserves_gets|]);
    intros [|]; try apply preserves_ret; try apply preserves_lift.
  apply preserves_bind; [apply preserves_OneReceived|].
  intros [|]; simpl; [apply IH | apply preserves_ret].
Qed.

Lemma preserves_OnceRxGrams : preserves P _serviceOnceRxGrams.
Proof.
  unfold _serviceOnceRxGrams.
  apply preserves_bind; [apply preserves_gets|]. intros srcs.
  apply preserves_bind; [|intros; apply preserves_ret].
  apply preserves_for_each. intros src.
  apply preserves_bind; [apply preserves_on_rxgs_at|]. intros memo.
  apply preserves_bind.
  { destruct memo; [apply preserves_on_rxms | apply preserves_ret]. }
  intros _. apply preserves_bind; [apply preserves_on_rxgs_at|]. intros q.
  apply preserves_bind.
  { destruct (negb (nonempty q)); [|apply preserves_ret].
    intros st H. apply P_rxgs, H. }
  intros _. destruct memo; [apply preserves_gets | apply preserves_ret].
Qed.

Lemma preserves_OneTxMemo : preserves P _serviceOneTxMemo.
Proof.
  unfold _serviceOneTxMemo.
  apply preserves_bind; [apply preserves_on_txms|]. intros [memo dst].
  apply preserves_bind; [|intros; apply preserves_ret].
  apply preserves_for_each. intros g. apply preserves_on_txgs.
Qed.

Lemma preserves_run fuel o : preserves P (run fuel o).
Proof.
  assert (HrxG1 : preserves P serviceRxGramsOnce).
  { apply preserves_bind; [apply preserves_gets|].
    intros [|]; [|apply preserves_ret].
    apply preserves_forget, preserves_OnceRxGrams. }
  assert (HrxG : preserves P (serviceRxGrams fuel))
    by apply preserves_while, preserves_OnceRxGrams.
  assert (HrxM1 : preserves P serviceRxMemosOnce).
  { apply preserves_try; [|apply preserves_ret].
    apply preserves_forget, preserves_on_rxms. }
  assert (HrxM : preserves P (serviceRxMemos fuel)).
  { apply preserves_while, preserves_bind; [apply preserves_on_rxms|].
    intros; apply preserves_ret. }
  assert (Hrc1 : forall echo, preserves P (serviceReceivesOnce echo)).
  { intros echo. apply preserves_bind; [apply preserves_gets|].
    intros [|]; [|apply preserves_ret].
    apply preserves_forget, preserves_OneReceived. }
  assert (HtxM1 : preserves P serviceTxMemosOnce).
  { apply preserves_try; [apply preserves_OneTxMemo | apply preserves_ret]. }
  assert (HtxM : preserves P (serviceTxMemos fuel)).
  { apply preserves_while, preserves_bind; [apply preserves_OneTxMemo|].
    intros; apply preserves_ret. }
  assert (HtxG1 : preserves P serviceTxGramsOnce).
  { apply preserves_bind; [apply preserves_gets|].
    intros [|]; [|apply preserves_ret]. apply preserves_forget, P_pass. }
  assert (HtxG : preserves P (serviceTxGrams fuel))
    by apply preserves_while, P_pass.
  assert (HallRx1 : preserves P serviceAllRxOnce).
  { apply preserves_bind; [apply Hrc1|]. intros _.
    apply preserves_bind; [apply HrxG1|]. intros _. apply HrxM1. }
  assert (HallRx : preserves P (serviceAllRx fuel)).
  { apply preserves_bind; [apply preserves_Receives|]. intros _.
    apply preserves_bind; [apply HrxG|]. intros _. apply HrxM. }
  assert (HallTx1 : preserves P serviceAllTxOnce).
  { apply preserves_bind; [apply HtxM1|]. intros _. apply HtxG1. }
  assert (HallTx : preserves P (serviceAllTx fuel)).
  { apply preserves_bind; [apply HtxM|]. intros _. apply HtxG. }
  destruct o; simpl.
  - apply preserves_forget, preserves_open.
  - apply preserves_close.
  - apply preserves_forget, preserves_bind; [apply preserves_close|].
    intros _; apply preserves_open.
  - apply preserves_on_txms.
  - apply preserves_on_txgs.
  - apply preserves_forget, preserves_OneReceived.
  - apply Hrc1.
  - apply preserves_Receives.
  - apply preserves_forget, preserves_OnceRxGrams.
  - exact HrxG1.
  - exact HrxG.
  - apply preserves_forget, preserves_on_rxms.
  - exact HrxM1.
  - exact HrxM.
  - exact HallRx1.
  - exact HallRx.
  - apply preserves_OneTxMemo.
  - exact HtxM1.
  - exact HtxM.
  - apply preserves_forget, P_pass.
  - exact HtxG1.
  - exact HtxG.
  - exact HallTx1.
  - exact HallTx.
  - apply preserves_bind; [apply preserves_Receives|]. intros _. exact HtxG.
  - apply preserves_bind; [exact HallRx1|]. intros _. exact HallTx1.
  - apply preserves_bind; [exact HallRx|]. intros _. exact HallTx.
Qed.

End Preservation.

Section DecodingRuns.

Context {T : Type} {tr : Transport T}.

Variable bad : exn.
Variable P : MemoGram T -> Prop.

Lemma preserves_weaken {A} (m : M (MemoGram T) A) :
  preserves P m -> preserves_unless bad P m.
Proof. intros H st HP _. apply H, HP. Qed.

Lemma preserves_unless_bind {A B}
  (m : M (MemoGram T) A) (k : A -> M (MemoGram T) B) :
  preserves_unless bad P m -> (forall a, preserves_unless bad P (k a)) ->
  preserves_unless bad P (bind m k).
Proof.
  intros Hm Hk st HP. unfold bind. specialize (Hm st HP).
  destruct (m st) as [s' [a|e|]]; simpl in *; intros Hr.
  - apply Hk; [apply Hm; discriminate | exact Hr].
  - apply Hm. intros E. apply Hr. injection E as ->. reflexivity.
  - apply Hm. discriminate.
Qed.

Lemma preserves_unless_for_each {A B}
  (xs : list A) (body : A -> M (MemoGram T) B) :
  (forall x, preserves_unless bad P (body x)) ->
  preserves_unless bad P (for_each xs body).
Proof.
  intros Hb. induction xs as [|x xs IH]; simpl.
  - apply preserves_weaken. intros st H; exact H.
  - apply preserves_unless_bind; [apply Hb|]. intros y.
    apply preserves_unless_bind; [apply IH|]. intros ys.
    apply preserves_weaken. intros st H; exact H.
Qed.

Lemma preserves_unless_while fuel (cond : MemoGram T -> bool) body :
  preserves_unless bad P body -> preserves_unless bad P (while_ fuel cond body).
Proof.
  intros Hb. induction fuel as [|fuel IH]; intros st H; simpl.
  - destruct (cond st); intros _; exact H.
  - destruct (cond st); [|intros _; exact H].
    apply (@preserves_unless_bind _ _ body
             (fun go_on => if go_on then while_ fuel cond body else ret tt));
      [exact Hb | | exact H].
    intros [|]; [exact IH | apply preserves_weaken; intros s Hs; exact Hs].
Qed.

End DecodingRuns.

Section FlagBlind.

Context {T : Type} {tr : Transport T}.

Lemma flag_blind_ret {A} (a : A) : flag_blind (T:=T) (ret a).
Proof. intros st b. reflexivity. Qed.

Lemma flag_blind_bind {A B} (m : M (MemoGram T) A) (k : A -> M (MemoGram T) B) :
  flag_blind m -> (forall a, flag_blind (k a)) -> flag_blind (bind m k).
Proof.
  intros Hm Hk st b. unfold bind. rewrite Hm.
  destruct (m st) as [s' [a|e|]]; simpl; try reflexivity. apply Hk.
Qed.

Lemma flag_blind_try {A} (m h : M (MemoGram T) A) catches :
  flag_blind m -> flag_blind h -> flag_blind (try_except m catches h).
Proof.
  intros Hm Hh st b. unfold try_except. rewrite Hm.
  destruct (m st) as [s' [a|e|]]; simpl; try reflexivity.
  destruct (catches e); [apply Hh | reflexivity].
Qed.

Lemma flag_blind_for_each {A B} (xs : list A) (body : A -> M (MemoGram T) B) :
  (forall x, flag_blind (body x)) -> flag_blind (for_each xs body).
Proof.
  intros Hb. induction xs as [|x xs IH]; simpl.
  - apply flag_blind_ret.
  - apply flag_blind_bind; [apply Hb|]. intros y.
    apply flag_blind_bind; [apply IH|]. intros ys. apply flag_blind_ret.
Qed.

Lemma flag_blind_while fuel (cond : MemoGram T -> bool) body :
  (forall st b, cond (set_opened b st) = cond st) ->
  flag_blind body -> flag_blind (while_ fuel cond body).
Proof.
  intros Hc Hb. induction fuel as [|fuel IH]; intros st b; simpl; rewrite Hc.
  - destruct (cond st); reflexivity.
  - destruct (cond st); [|reflexivity].
    apply (@flag_blind_bind _ _ body
             (fun go_on => if go_on then while_ fuel cond body else ret tt));
      [exact Hb|].
    intros [|]; [exact IH | apply flag_blind_ret].
Qed.

Lemma flag_blind_gets {A} (f : MemoGram T -> A) :
  (forall st b, f (set_opened b st) = f st) -> flag_blind (gets f).
Proof. intros Hf st b. unfold gets. rewrite Hf. reflexivity. Qed.

Lemma flag_blind_modify (f : MemoGram T -> MemoGram T) :
  (forall st b, f (set_opened b st) = set_opened b (f st)) ->
  flag_blind (modify f).
Proof. intros Hf st b. unfold modify. rewrite Hf. reflexivity. Qed.

Lemma flag_blind_on_rxms {A} (m : M (list (pystr * addr)) A) :
  flag_blind (T:=T) (on_rxms m).
Proof. intros st b. unfold on_rxms. simpl. destruct (m (rxms st)); reflexivity. Qed.

Lemma flag_blind_on_txms {A} (m : M (list (pyval * addr)) A) :
  flag_blind (T:=T) (on_txms m).
Proof. intros st b. unfold on_txms. simpl. destruct (m (txms st)); reflexivity. Qed.

Lemma flag_blind_on_txgs {A} (m : M (list (pyval * addr)) A) :
  flag_blind (T:=T) (on_txgs m).
Proof. intros st b. unfold on_txgs. simpl. destruct (m (txgs st)); reflexivity. Qed.

Lemma flag_blind_on_rxgs_at {A} src (m : M (list bytes) A) :
  flag_blind (T:=T) (on_rxgs_at src m).
Proof.
  intros st b. unfold on_rxgs_at. simpl.
  destruct (Dict.get src (rxgs st)) as [q|]; [|reflexivity].
  destruct (m q); reflexivity.
Qed.

Lemma flag_blind_OnceRxGrams : flag_blind (T:=T) _serviceOnceRxGrams.
Proof.
  unfold _serviceOnceRxGrams.
  apply flag_blind_bind; [apply flag_blind_gets; reflexivity|]. intros srcs.
  apply flag_blind_bind; [|intros; apply flag_blind_ret].
  apply flag_blind_for_each. intros src.
  apply flag_blind_bind; [apply flag_blind_on_rxgs_at|]. intros memo.
  apply flag_blind_bind.
  { destruct memo; [apply flag_blind_on_rxms | apply flag_blind_ret]. }
  intros _. apply flag_blind_bind; [apply flag_blind_on_rxgs_at|]. intros q.
  apply flag_blind_bind.
  { destruct (negb (nonempty q));
      [apply flag_blind_modify; reflexivity | apply flag_blind_ret]. }
  intros _. destruct memo;
    [apply flag_blind_gets; reflexivity | apply flag_blind_ret].
Qed.

Lemma flag_blind_OneTxMemo : flag_blind (T:=T) _serviceOneTxMemo.
Proof.
  unfold _serviceOneTxMemo.
  apply flag_blind_bind; [apply flag_blind_on_txms|]. intros [memo dst].
  apply flag_blind_bind; [|intros; apply flag_blind_ret].
  apply flag_blind_for_each. intros g. apply flag_blind_on_txgs.
Qed.

End FlagBlind.

(** ** The transmit pass and the transmit loops *)

Section TransmitPass.

Context {T : Type} {tr : Transport T}.

Lemma pass_send_step (st : MemoGram T) gram dst :
  next_send st = Some (gram, dst) ->
  _serviceOnceTxGrams st =
    (let st1 :=
       match txbs st with
       | (_, Some _) => st
       | (_, None) =>
         set_loaded (loaded st ++ [(gram, dst)]) (set_txgs (tl (txgs st)) st)
       end in
     let (t', r) := send (transport st) gram dst in
     let st2 := set_sent (sent st ++ [(gram, dst, r)]) (set_transport t' st1) in
     match r with
     | Done n =>
       let gram' := del_prefix gram n in
       let dst' := if negb (nonempty gram') then None else Some dst in
       (set_txbs (gram', dst') st2, Ret (if truthy dst' then false else true))
     | Fail e =>
       if peer_unreachable e
       then (set_txbs ([], None) (set_logged (logged st ++ [(dst, e)]) st2),
             Raise UnboundLocalError)
       else (st2, Raise (OSError e))
     end).
Proof.
  destruct st as [o rg rm tm tg [b [d|]] t sn lg ld]; unfold next_send; simpl.
  - intros [= -> ->].
    unfold _serviceOnceTxGrams, bind, gets, call_send; simpl.
    destruct (send t gram dst) as [t' [n|e]]; simpl; [reflexivity|].
    destruct (peer_unreachable e); reflexivity.
  - destruct tg as [|[g d'] q]; [discriminate|].
    destruct (encode g) as [b'| |] eqn:E; try discriminate.
    intros [= -> ->].
    unfold _serviceOnceTxGrams, bind, gets, call_send, try_except, on_txgs;
      simpl.
    rewrite E; simpl.
    destruct (send t gram dst) as [t' [n|e]]; simpl; [reflexivity|].
    destruct (peer_unreachable e); reflexivity.
Qed.

Lemma suffix_of_refl {A} (l : list A) : suffix_of l l.
Proof. exists []. reflexivity. Qed.

Lemma suffix_of_del_prefix {A} (l g : list A) n :
  suffix_of l g -> suffix_of (del_prefix l n) g.
Proof.
  intros [p ->]. unfold del_prefix.
  exists (p ++ firstn (slice_stop (List.length l) n) l).
  rewrite <- app_assoc, firstn_skipn. reflexivity.
Qed.

(** What one transmit pass does to the slot, told by the slot it finds. *)
Lemma pass_on_occupied (st : MemoGram T) rem d :
  txbs st = (rem, Some d) ->
  let st' := fst (_serviceOnceTxGrams st) in
  loaded st' = loaded st /\
  txgs st' = txgs st /\
  (exists r, sent st' = sent st ++ [(rem, d, r)]) /\
  (idle st' \/
   exists rem', txbs st' = (rem', Some d) /\ suffix_of rem' rem).
Proof.
  intros Hb. cbv zeta.
  assert (Hn : next_send st = Some (rem, d))
    by (unfold next_send; rewrite Hb; reflexivity).
  rewrite (pass_send_step _ Hn), Hb. cbv zeta.
  destruct (send (transport st) rem d) as [t' [n|e]].
  - cbn [fst].
    split; [reflexivity|]. split; [reflexivity|].
    split; [eexists; reflexivity|].
    destruct (del_prefix rem n) as [|x r] eqn:Ed; cbn [nonempty negb].
    + left. reflexivity.
    + right. exists (x :: r). split; [reflexivity|].
      rewrite <- Ed. apply suffix_of_del_prefix, suffix_of_refl.
  - destruct (peer_unreachable e); cbn [fst];
      (split; [reflexivity|]); (split; [reflexivity|]);
      (split; [eexists; reflexivity|]).
    + left. reflexivity.
    + right. exists rem. split; [exact Hb | apply suffix_of_refl].
Qed.

Lemma pass_keeps_single_in_flight :
  preserves (T:=T) single_in_flight _serviceOnceTxGrams.
Proof.
  intros st H. unfold single_in_flight in H.
  destruct (txbs st) as [rem [d|]] eqn:Hb.
  - destruct H as (earlier & gram & Hl & Hs).
    destruct (pass_on_occupied _ Hb) as (Hl' & _ & _ & [Hi | (rem' & Hb' & Hs')]);
      unfold single_in_flight.
    + rewrite Hi. reflexivity.
    + rewrite Hb'. exists earlier, gram. split; [congruence|].
      destruct Hs as [p ->], Hs' as [p' ->]. exists (p ++ p').
      apply app_assoc.
  - subst rem. destruct (next_send st) as [[b d]|] eqn:Hn.
    + rewrite (pass_send_step _ Hn), Hb. cbv zeta.
      destruct (send (transport st) b d) as [t' [n|e]].
      * unfold single_in_flight. cbn [fst].
        destruct (del_prefix b n) as [|x r] eqn:Ed; cbn [nonempty negb];
          simpl; [reflexivity|].
        exists (loaded st), b. split; [reflexivity|].
        rewrite <- Ed. apply suffix_of_del_prefix, suffix_of_refl.
      * destruct (peer_unreachable e); unfold single_in_flight; simpl;
          [reflexivity|]. rewrite Hb. reflexivity.
    + unfold next_send in Hn. rewrite Hb in Hn.
      destruct st as [o rg rm tm tg tb t sn lg ld]. simpl in *. subst tb.
      destruct tg as [|[g d] q]; [reflexivity|].
      unfold single_in_flight.
      destruct g as [s|b0]; [|reflexivity].
      unfold encode in Hn.
      cbv -[Utf8.encode app send receive Z.of_nat List.length].
      destruct (Utf8.encode s); [discriminate | reflexivity].
Qed.

Lemma serviceTxMemos_run (ms : list (pyval * addr)) :
  forall (st : MemoGram T) (fuel : nat),
    txms st = ms ->
    (List.length ms <= fuel)%nat ->
    serviceTxMemos fuel st =
      (set_txgs (txgs st ++ ms) (set_txms [] st), Ret tt).
Proof.
  induction ms as [|[m d] ms IH]; intros st fuel Hq Hl.
  - unfold serviceTxMemos. rewrite while_done by (rewrite Hq; reflexivity).
    rewrite app_nil_r. destruct st; simpl in *; subst; reflexivity.
  - destruct fuel as [|fuel]; [simpl in Hl; lia|].
    unfold serviceTxMemos. rewrite while_unfold, Hq. cbn [nonempty].
    unfold bind at 1.
    assert (H1 : (_serviceOneTxMemo ;; ret true) st =
                 (set_txgs (txgs st ++ [(m, d)]) (set_txms ms st), Ret true)).
    { destruct st; simpl in *; subst. reflexivity. }
    rewrite H1.
    match goal with
    | |- context [while_ fuel _ _ ?s] => pose proof (IH s fuel) as H2
    end.
    unfold serviceTxMemos in H2. rewrite H2; [| reflexivity | simpl in Hl; lia].
    destruct st; simpl in *; subst. rewrite <- app_assoc. reflexivity.
Qed.

End TransmitPass.

Section FullSend.

Context {T : Type} {tr : Transport T}.

(** The transport reports every octet sent, always. *)
Hypothesis send_full :
  forall t b d, snd (send t b d) = Done (Z.of_nat (List.length b)).

Lemma pass_full_send (st : MemoGram T) gram dst :
  next_send st = Some (gram, dst) ->
  _serviceOnceTxGrams st =
    (set_txbs ([], None)
       (set_sent (sent st ++ [(gram, dst, Done (Z.of_nat (List.length gram)))])
          (set_transport (fst (send (transport st) gram dst))
             match txbs st with
             | (_, Some _) => st
             | (_, None) =>
               set_loaded (loaded st ++ [(gram, dst)])
                          (set_txgs (tl (txgs st)) st)
             end)),
     Ret true).
Proof.
  intros Hn. rewrite (pass_send_step _ Hn).
  pose proof (send_full (transport st) gram dst) as Hs.
  destruct (send (transport st) gram dst) as [t' r]. simpl in Hs. subst r.
  cbv zeta. unfold del_prefix, slice_stop.
  destruct (Z.ltb_spec (Z.of_nat (List.length gram)) 0); [lia|].
  rewrite Nat2Z.id, Nat.min_id, skipn_all. reflexivity.
Qed.

Lemma serviceTxGrams_full (gs : list (pyval * addr)) :
  forall (bs : list bytes) (st : MemoGram T) (fuel : nat),
    opened st = true ->
    idle st ->
    txgs st = gs ->
    Forall2 (fun g b => encode (fst g) = Ret b) gs bs ->
    (List.length gs <= fuel)%nat ->
    let out := map (fun gb => (snd gb, snd (fst gb))) (combine gs bs) in
    exists t',
      serviceTxGrams fuel st =
        (set_transport t'
           (set_loaded (loaded st ++ out)
              (set_sent
                 (sent st ++
                  map (fun o => (fst o, snd o,
                                 Done (Z.of_nat (List.length (fst o))))) out)
                 (set_txgs [] st))),
         Ret tt).
Proof.
  induction gs as [|[g d] gs IH]; intros bs st fuel Ho Hi Hq Hf Hl; cbv zeta.
  - exists (transport st). unfold serviceTxGrams.
    rewrite while_done by (unfold tx_ready; rewrite Hq; apply andb_false_r).
    inversion Hf; subst. simpl. rewrite !app_nil_r.
    destruct st; simpl in *; subst; reflexivity.
  - inversion Hf as [|? b ? bs' Hb Hf']; subst. simpl in Hb.
    destruct fuel as [|fuel]; [simpl in Hl; lia|].
    unfold serviceTxGrams. rewrite while_unfold.
    replace (tx_ready st) with true
      by (unfold tx_ready; rewrite Ho, Hq; reflexivity).
    assert (Hn : next_send st = Some (b, d)).
    { unfold next_send. rewrite Hi, Hq, Hb. reflexivity. }
    pose proof (pass_full_send _ Hn) as Hp.
    unfold idle in Hi. rewrite Hi in Hp.
    unfold bind at 1. rewrite Hp.
    match goal with
    | |- context [while_ fuel _ _ ?s] =>
      destruct (IH bs' s fuel) as [t2 Ht2];
        [ exact Ho | reflexivity | simpl; rewrite Hq; reflexivity
        | exact Hf' | simpl in Hl; lia | ]
    end.
    exists t2. unfold serviceTxGrams in Ht2. rewrite Ht2.
    destruct st; simpl in *; subst.
    rewrite <- !app_assoc. reflexivity.
Qed.

End FullSend.

(** ** The receive loops *)

Section ReceiveSide.

Lemma oneReceived_sim (st : MemoGram Sim) g gs src q sc echo :
  g <> [] ->
  rxgs st = [(src, q)] ->
  transport st = mkSim ((g, src) :: gs) sc ->
  _serviceOneReceived echo st =
    (set_transport (mkSim gs sc) (set_rxgs [(src, q ++ [g])] st), Ret true).
Proof.
  intros Hg Hq Ht. destruct st as [o rg rm tm tg tb t sn lg ld].
  simpl in *. subst.
  destruct g as [|x g]; [congruence|].
  unfold _serviceOneReceived, bind, call_receive, gets, Dict.mem, on_rxgs_at;
    simpl.
  repeat (rewrite String.eqb_refl; simpl). reflexivity.
Qed.

Lemma oneReceived_sim_first (st : MemoGram Sim) g gs src sc echo :
  g <> [] ->
  rxgs st = [] ->
  transport st = mkSim ((g, src) :: gs) sc ->
  _serviceOneReceived echo st =
    (set_transport (mkSim gs sc) (set_rxgs [(src, [g])] st), Ret true).
Proof.
  intros Hg Hq Ht. destruct st as [o rg rm tm tg tb t sn lg ld].
  simpl in *. subst.
  destruct g as [|x g]; [congruence|].
  unfold _serviceOneReceived, bind, call_receive, gets, Dict.mem, on_rxgs_at;
    simpl.
  repeat (rewrite String.eqb_refl; simpl). reflexivity.
Qed.

Lemma serviceReceives_sim src (gs : list bytes) :
  forall (st : MemoGram Sim) q sc fuel echo,
    Forall (fun g => g <> []) gs ->
    opened st = true ->
    rxgs st = [(src, q)] ->
    transport st = mkSim (map (fun g => (g, src)) gs) sc ->
    (List.length gs < fuel)%nat ->
    serviceReceives fuel echo st =
      (set_transport (mkSim [] sc) (set_rxgs [(src, q ++ gs)] st), Ret tt).
Proof.
  induction gs as [|g gs IH]; intros st q sc fuel echo Hne Ho Hq Ht Hl;
    (destruct fuel as [|fuel]; [simpl in Hl; lia|]).
  - rewrite app_nil_r.
    destruct st as [o rg rm tm tg tb t sn lg ld]. simpl in *. subst.
    reflexivity.
  - inversion Hne as [|? ? Hg Hne']; subst.
    cbn [serviceReceives]. unfold bind at 1, gets at 1. rewrite Ho.
    simpl in Ht.
    erewrite bind_ret_eq by (eapply oneReceived_sim; eassumption).
    cbn [negb].
    erewrite IH; try eassumption; try reflexivity.
    + destruct st; simpl in *; subst. rewrite <- app_assoc. reflexivity.
    + simpl in Hl. lia.
Qed.

Lemma serviceReceives_sim_fresh src g (gs : list bytes) :
  forall (st : MemoGram Sim) sc fuel echo,
    Forall (fun g => g <> []) (g :: gs) ->
    opened st = true ->
    rxgs st = [] ->
    transport st = mkSim (map (fun g => (g, src)) (g :: gs)) sc ->
    (List.length (g :: gs) < fuel)%nat ->
    serviceReceives fuel echo st =
      (set_transport (mkSim [] sc) (set_rxgs [(src, g :: gs)] st), Ret tt).
Proof.
  intros st sc fuel echo Hne Ho Hq Ht Hl.
  destruct fuel as [|fuel]; [simpl in Hl; lia|].
  inversion Hne as [|? ? Hg Hne']; subst.
  cbn [serviceReceives]. unfold bind at 1, gets at 1. rewrite Ho.
  simpl in Ht.
  erewrite bind_ret_eq by (eapply oneReceived_sim_first; eassumption).
  cbn [negb].
  erewrite (@serviceReceives_sim src gs); try eassumption; try reflexivity.
  - destruct st; simpl in *; subst. reflexivity.
  - simpl in Hl. lia.
Qed.

Context {T : Type} {tr : Transport T}.

(** One pass over a store whose only source has pending grams, the first
    of them decodable. *)
Lemma onceRxGrams_single (st : MemoGram T) src g rest m :
  rxgs st = [(src, g :: rest)] ->
  decode g = Ret m ->
  _serviceOnceRxGrams st =
    (set_rxms (rxms st ++ [(m, src)])
       (set_rxgs (match rest with [] => [] | _ => [(src, rest)] end) st),
     Ret (nonempty rest)).
Proof.
  intros Hq Hd. destruct st as [o rg rm tm tg tb t sn lg ld].
  simpl in *. subst.
  unfold decode in Hd. destruct (Utf8.decode g) as [m'|] eqn:Eg; [|discriminate].
  injection Hd as ->.
  py_run. rewrite Eg. py_run.
  destruct rest as [|g' rest]; py_run; reflexivity.
Qed.

Lemma serviceRxGrams_single src (gs : list bytes) :
  forall (ms : list pystr) (st : MemoGram T) fuel,
    gs <> [] ->
    rxgs st = [(src, gs)] ->
    Forall2 (fun g m => decode g = Ret m) gs ms ->
    (List.length gs <= fuel)%nat ->
    serviceRxGrams fuel st =
      (set_rxms (rxms st ++ map (fun m => (m, src)) ms) (set_rxgs [] st),
       Ret tt).
Proof.
  induction gs as [|g gs IH]; intros ms st fuel Hne Hq Hf Hl; [congruence|].
  inversion Hf as [|? m ? ms' Hd Hf']; subst.
  destruct fuel as [|fuel]; [simpl in Hl; lia|].
  unfold serviceRxGrams. rewrite while_unfold, Hq. cbn [nonempty].
  erewrite bind_ret_eq by (eapply onceRxGrams_single; eassumption).
  destruct gs as [|g' gs].
  - inversion Hf'; subst. reflexivity.
  - cbn [nonempty].
    pose proof (IH ms'
      (set_rxms (rxms st ++ [(m, src)]) (set_rxgs [(src, g' :: gs)] st))
      fuel) as H.
    unfold serviceRxGrams in H. rewrite H; try assumption.
    + destruct st; simpl in *. rewrite <- app_assoc. reflexivity.
    + discriminate.
    + reflexivity.
    + simpl in *. lia.
Qed.

Lemma serviceRxMemos_drains (ms : list (pystr * addr)) :
  forall (st : MemoGram T) fuel,
    rxms st = ms ->
    (List.length ms <= fuel)%nat ->
    serviceRxMemos fuel st = (set_rxms [] st, Ret tt).
Proof.
  induction ms as [|m ms IH]; intros st fuel Hq Hl.
  - unfold serviceRxMemos. rewrite while_done by (rewrite Hq; reflexivity).
    destruct st; simpl in *; subst; reflexivity.
  - destruct fuel as [|fuel]; [simpl in Hl; lia|].
    unfold serviceRxMemos. rewrite while_unfold, Hq. cbn [nonempty].
    assert (H1 : (_serviceOneRxMemo ;; ret true) st =
                 (set_rxms ms st, Ret true)).
    { destruct st; simpl in *; subst. reflexivity. }
    erewrite bind_ret_eq by exact H1. cbv beta iota.
    pose proof (IH (set_rxms ms st) fuel) as H2.
    unfold serviceRxMemos in H2. rewrite H2; [| reflexivity | simpl in Hl; lia].
    destruct st; reflexivity.
Qed.

Lemma store_inv_keyed (st : MemoGram T) : store_inv st -> keyed_iff_pending st.
Proof.
  intros H. split; [exact (proj1 H)|].
  intros a. unfold Dict.mem.
  destruct (Dict.get a (rxgs st)) as [q|] eqn:E; split.
  - intros _. exists q. split; [reflexivity|].
    eapply DictFacts.store_ok_get; [exact H | exact E].
  - reflexivity.
  - discriminate.
  - intros (q & Hq & _). discriminate.
Qed.

Lemma OneReceived_keeps_store echo :
  preserves (T:=T) store_inv (_serviceOneReceived echo).
Proof.
  intros st H. destruct st as [o rg rm tm tg tb t sn lg ld].
  unfold store_inv in *. simpl in H.
  py_dict_step.
  destruct (receive t echo) as [t' [[[g src]|]|e]]; try exact H.
  destruct g as [|x g]; [exact H|].
  destruct (Dict.get src rg) as [q|] eqn:E;
    repeat progress (py_dict_step; rewrite ?E).
  - apply DictFacts.store_ok_set; [exact H|]. destruct q; discriminate.
  - apply DictFacts.store_ok_set; [exact H | discriminate].
Qed.

Lemma OnceRxGrams_keeps_store :
  preserves_unless (T:=T) UnicodeDecodeError store_inv _serviceOnceRxGrams.
Proof.
  unfold _serviceOnceRxGrams.
  apply preserves_unless_bind;
    [apply preserves_weaken; intros st H; exact H|]. intros srcs.
  apply preserves_unless_bind;
    [|intros; apply preserves_weaken; intros st H; exact H].
  apply preserves_unless_for_each. intros src st H.
  destruct st as [o rg rm tm tg tb t sn lg ld].
  unfold store_inv in *. simpl in H.
  py_dict_step.
  destruct (Dict.get src rg) as [q|] eqn:E; [|intros _; exact H].
  destruct q as [|g rest];
    [exfalso; eapply DictFacts.store_ok_get; [exact H | exact E | reflexivity]|].
  py_dict_step.
  destruct (Utf8.decode g) as [m|]; [|intros Hr; exfalso; apply Hr; reflexivity].
  py_dict_step.
  destruct rest as [|g' rest]; py_dict_step; intros _.
  - apply DictFacts.store_ok_del, H.
  - apply DictFacts.store_ok_set; [exact H | discriminate].
Qed.

End ReceiveSide.

(** * The claims *)

(** ** C1: a peer-unreachable error in the transmit pass *)

Section UnreachablePeer.

Context {T : Type} {tr : Transport T}.

(** C1 (as the code runs): when the send attempt of the transmit pass fails
    with an errno of the peer-unreachable class, the pass does log the error
    and does reset the Transmit Buffer to the idle sentinel, so that a later
    pass starts on the next queued gram; but it does not return [False]: it
    goes on to [del gram[:cnt]] with [cnt] never assigned and ends in
    [UnboundLocalError]. *)
Theorem C1_unreachable_peer_pass_raises
  (st : MemoGram T) gram dst t' e :
  next_send st = Some (gram, dst) ->
  send (transport st) gram dst = (t', Fail e) ->
  peer_unreachable e = true ->
  let st' := fst (_serviceOnceTxGrams st) in
  snd (_serviceOnceTxGrams st) = Raise UnboundLocalError /\
  snd (_serviceOnceTxGrams st) <> Ret false /\
  idle st' /\
  logged st' = logged st ++ [(dst, e)] /\
  sent st' = sent st ++ [(gram, dst, Fail e)] /\
  txgs st' = txgs_after_take st /\
  (forall g d q b,
      txgs st' = (g, d) :: q -> encode g = Ret b ->
      next_send st' = Some (b, d)).
Proof.
  intros Hn Hs He. cbv zeta.
  rewrite (pass_send_step _ Hn), Hs, He.
  destruct st as [o rg rm tm tg [b0 d0] t sn lg ld].
  unfold idle, txgs_after_take, next_send; simpl in *.
  destruct d0; simpl; repeat split; try reflexivity; try discriminate.
  all: intros g d q b Hq Hb; rewrite Hq, Hb; reflexivity.
Qed.

End UnreachablePeer.

Lemma C1_unreachable_peer_pass_raises_witness :
  next_send two_grams_refused = Some ([x61], "x"%string) /\
  (let st' := fst (_serviceOnceTxGrams two_grams_refused) in
   snd (_serviceOnceTxGrams two_grams_refused) = Raise UnboundLocalError /\
   snd (_serviceOnceTxGrams two_grams_refused) <> Ret false /\
   idle st' /\
   logged st' = [("x"%string, ECONNREFUSED)] /\
   sent st' = [([x61], "x"%string, Fail ECONNREFUSED)] /\
   txgs st' = [(PStr [98%N], "y"%string)] /\
   (forall g d q b,
       txgs st' = (g, d) :: q -> encode g = Ret b ->
       next_send st' = Some (b, d))) /\
  (let st'' := fst (_serviceOnceTxGrams
                      (fst (_serviceOnceTxGrams two_grams_refused))) in
   sent st'' = [([x61], "x"%string, Fail ECONNREFUSED);
                ([x62], "y"%string, Done 1%Z)] /\
   txgs st'' = [] /\
   idle st'').
Proof.
  split; [reflexivity|]. split; [|repeat split].
  apply (@C1_unreachable_peer_pass_raises Sim _ two_grams_refused
           [x61] "x"%string (mkSim [] []) ECONNREFUSED); reflexivity.
Defined.

(** ** C2: a remainder with an empty gram queue *)

Section StuckRemainder.

Context {T : Type} {tr : Transport T}.

(** C2 (as the code runs): with an unsent remainder in the Transmit Buffer
    and an empty [.txgs], neither [serviceTxGrams] nor [serviceTxGramsOnce]
    reaches the transmit pass: the object is left as it was, and no send is
    attempted. *)
Theorem C2_remainder_not_serviced
  (st : MemoGram T) (rem : bytes) (d : addr) (fuel : nat) :
  txbs st = (rem, Some d) ->
  txgs st = [] ->
  serviceTxGrams fuel st = (st, Ret tt) /\
  serviceTxGramsOnce st = (st, Ret tt) /\
  sent (fst (serviceTxGrams fuel st)) = sent st /\
  sent (fst (serviceTxGramsOnce st)) = sent st.
Proof.
  intros _ Hq.
  assert (Hc : tx_ready st = false).
  { unfold tx_ready. rewrite Hq. apply andb_false_r. }
  assert (H1 : serviceTxGrams fuel st = (st, Ret tt))
    by (apply while_done; exact Hc).
  assert (H2 : serviceTxGramsOnce st = (st, Ret tt)).
  { unfold serviceTxGramsOnce, bind, gets. rewrite Hc. reflexivity. }
  rewrite H1, H2. repeat split.
Qed.

End StuckRemainder.

Lemma C2_remainder_not_serviced_witness :
  txbs remainder_only = ([x62; x63], Some "x"%string) /\
  txgs remainder_only = [] /\
  serviceTxGrams 5 remainder_only = (remainder_only, Ret tt) /\
  serviceTxGramsOnce remainder_only = (remainder_only, Ret tt) /\
  sent (fst (serviceTxGrams 5 remainder_only)) = [] /\
  sent (fst (serviceTxGramsOnce remainder_only)) = [].
Proof.
  split; [reflexivity|]. split; [reflexivity|].
  apply (@C2_remainder_not_serviced Sim _ remainder_only
           [x62; x63] "x"%string 5); reflexivity.
Defined.

(** ** C3: round trip through a loopback *)

(** C3 (as the code receives): for every memo that is a non-empty string
    with a UTF-8 encoding, and every destination D: on a fresh opened object
    over a loopback, [memoit], the greedy segmentation and transmission, and
    then the greedy receiving and reassembly end with [.rxms] holding
    exactly the pair of the memo, code point for code point, and D; the
    memo went out as one gram, its UTF-8 encoding, in one send. *)
Theorem C3_round_trip_of_nonempty_memo
  (memo : pystr) (dst : addr) (b : bytes) (fuel : nat) :
  memo <> [] ->
  Utf8.encode memo = Some b ->
  let r := round_trip (S (S fuel)) (PStr memo) dst loopback_peer in
  snd r = Ret tt /\
  rxms (fst r) = [(memo, dst)] /\
  rxgs (fst r) = [] /\
  txms (fst r) = [] /\
  txgs (fst r) = [] /\
  idle (fst r) /\
  sent (fst r) = [(b, dst, Done (Z.of_nat (List.length b)))].
Proof.
  intros Hne He.
  assert (Hb : b <> []).
  { intros ->. apply Hne. apply Utf8Facts.encode_nil_inv. exact He. }
  assert (Hd : decode b = Ret memo).
  { unfold decode. rewrite (Utf8Facts.decode_encode _ He). reflexivity. }
  assert (Hfull : forall (t : Loopback) x d,
             snd (send t x d) = Done (Z.of_nat (List.length x)))
    by reflexivity.
  set (gm := [(PStr memo, dst)]).
  set (st1 := set_txms gm loopback_peer).
  assert (E1 : memoit (PStr memo) dst loopback_peer = (st1, Ret tt))
    by reflexivity.
  set (st2 := set_txgs gm loopback_peer).
  assert (E2 : serviceTxMemos (S (S fuel)) st1 = (st2, Ret tt)).
  { rewrite serviceTxMemos_run with (ms := gm) by (simpl; (reflexivity || lia)).
    reflexivity. }
  assert (Hn : next_send st2 = Some (b, dst)).
  { unfold next_send, encode. simpl. rewrite He. reflexivity. }
  set (st3 := set_loaded [(b, dst)]
                (set_sent [(b, dst, Done (Z.of_nat (List.length b)))]
                   (set_transport (mkLoopback [(b, dst)]) loopback_peer))).
  assert (E3 : serviceTxGrams (S (S fuel)) st2 = (st3, Ret tt)).
  { unfold serviceTxGrams. rewrite while_unfold.
    replace (tx_ready st2) with true by reflexivity.
    erewrite bind_ret_eq by exact (pass_full_send Hfull _ Hn). cbv beta iota.
    rewrite while_done by reflexivity. reflexivity. }
  set (st4 := set_rxgs [(dst, [b])] (set_transport (mkLoopback []) st3)).
  assert (E4 : serviceReceives (S (S fuel)) None st3 = (st4, Ret tt)).
  { destruct b as [|x b]; [congruence|].
    unfold st4, st3, loopback_peer. py_io_run. reflexivity. }
  assert (E5 : serviceRxGrams (S (S fuel)) st4
               = (set_rxms [(memo, dst)] (set_rxgs [] st4), Ret tt)).
  { rewrite serviceRxGrams_single with (src := dst) (gs := [b]) (ms := [memo]);
      try reflexivity; try discriminate.
    - repeat constructor. exact Hd.
    - simpl. lia. }
  cbv zeta. unfold round_trip.
  erewrite bind_ret_eq by exact E1.
  erewrite bind_ret_eq by exact E2.
  erewrite bind_ret_eq by exact E3.
  erewrite bind_ret_eq by exact E4.
  rewrite E5.
  repeat split.
Qed.

(** C3 as stated fails for the empty memo: its one gram is the empty
    [bytes], which the loopback delivers and [_serviceOneReceived] takes for
    "no data", so [.rxms] stays empty.  A memo with a lone surrogate does not
    get as far: [encode] raises in the transmit pass. *)
Lemma C3_empty_memo_is_not_received :
  let r := round_trip 5 (PStr []) "x"%string loopback_peer in
  snd r = Ret tt /\
  sent (fst r) = [([], "x"%string, Done 0%Z)] /\
  rxms (fst r) = [] /\
  rxms (fst r) <> [([], "x"%string)] /\
  snd (round_trip 5 (PStr [0xD800%N]) "x"%string loopback_peer)
    = Raise UnicodeEncodeError.
Proof. cbv zeta. repeat split. discriminate. Qed.

Lemma C3_round_trip_of_nonempty_memo_witness :
  let r := round_trip 2 (PStr [104%N; 233%N; 8364%N; 128512%N]) "x"%string
             loopback_peer in
  snd r = Ret tt /\
  rxms (fst r) = [([104%N; 233%N; 8364%N; 128512%N], "x"%string)] /\
  sent (fst r) =
    [([x68; xc3; xa9; xe2; x82; xac; xf0; x9f; x98; x80], "x"%string,
      Done 10%Z)].
Proof.
  destruct (@C3_round_trip_of_nonempty_memo
              [104%N; 233%N; 8364%N; 128512%N] "x"%string
              [x68; xc3; xa9; xe2; x82; xac; xf0; x9f; x98; x80] 0)
    as (H1 & H2 & _ & _ & _ & _ & H3);
    try reflexivity; try discriminate.
  cbv zeta. repeat split; assumption.
Defined.

(** ** C4: the [opened] flag *)

Section OpenedFlag.

Context {T : Type} {tr : Transport T}.

(** C4 (as the code tests the flag): on a closed object the services that call the
    transport, [serviceReceivesOnce], [serviceReceives],
    [serviceTxGramsOnce], [serviceTxGrams] and [serviceLocal], return at
    once and leave the whole object, its five containers and its transport,
    as it was; the services that only move data between the containers,
    [serviceRxGramsOnce], [serviceRxGrams], [serviceRxMemosOnce],
    [serviceRxMemos], [serviceTxMemosOnce] and [serviceTxMemos], never read
    the flag and run as they do on an opened object; of the composite
    services a closed object runs those parts, and no other. *)
Theorem C4_closed_object_skips_transport_services :
  (forall (st : MemoGram T) fuel echo,
      opened st = false ->
      serviceReceivesOnce echo st = (st, Ret tt) /\
      serviceReceives fuel echo st = (st, Ret tt) /\
      serviceTxGramsOnce st = (st, Ret tt) /\
      serviceTxGrams fuel st = (st, Ret tt) /\
      serviceLocal fuel st = (st, Ret tt)) /\
  (forall fuel,
      flag_blind (T:=T) serviceRxGramsOnce /\
      flag_blind (T:=T) (serviceRxGrams fuel) /\
      flag_blind (T:=T) serviceRxMemosOnce /\
      flag_blind (T:=T) (serviceRxMemos fuel) /\
      flag_blind (T:=T) serviceTxMemosOnce /\
      flag_blind (T:=T) (serviceTxMemos fuel)) /\
  (forall (st : MemoGram T) fuel,
      opened st = false ->
      serviceAllRxOnce st = (serviceRxGramsOnce ;; serviceRxMemosOnce) st /\
      serviceAllRx fuel st = (serviceRxGrams fuel ;; serviceRxMemos fuel) st /\
      serviceAllTxOnce st = serviceTxMemosOnce st /\
      serviceAllTx fuel st = serviceTxMemos fuel st /\
      serviceAllOnce st =
        (serviceRxGramsOnce ;; serviceRxMemosOnce ;; serviceTxMemosOnce) st /\
      serviceAll fuel st =
        (serviceRxGrams fuel ;; serviceRxMemos fuel ;; serviceTxMemos fuel) st).
Proof.
  assert (Hskip : forall (st : MemoGram T) fuel echo,
      opened st = false ->
      serviceReceivesOnce echo st = (st, Ret tt) /\
      serviceReceives fuel echo st = (st, Ret tt) /\
      serviceTxGramsOnce st = (st, Ret tt) /\
      serviceTxGrams fuel st = (st, Ret tt) /\
      serviceLocal fuel st = (st, Ret tt)).
  { intros st fuel echo Ho.
    assert (H1 : serviceReceives fuel echo st = (st, Ret tt)).
    { destruct fuel; unfold serviceReceives, bind, gets; rewrite Ho;
        reflexivity. }
    assert (H2 : serviceTxGrams fuel st = (st, Ret tt)).
    { apply while_done. unfold tx_ready. rewrite Ho. reflexivity. }
    repeat split; try assumption.
    + unfold serviceReceivesOnce, bind, gets. rewrite Ho. reflexivity.
    + unfold serviceTxGramsOnce, bind, gets, tx_ready. rewrite Ho. reflexivity.
    + unfold serviceLocal, bind.
      destruct fuel; unfold serviceReceives, bind, gets; rewrite Ho;
        exact H2. }
  split; [exact Hskip|]. split.
  - intros fuel. repeat split.
    + unfold serviceRxGramsOnce.
      apply flag_blind_bind; [apply flag_blind_gets; reflexivity|].
      intros [|]; [|apply flag_blind_ret].
      apply flag_blind_bind; [apply flag_blind_OnceRxGrams|].
      intros; apply flag_blind_ret.
    + apply flag_blind_while; [reflexivity | apply flag_blind_OnceRxGrams].
    + apply flag_blind_try; [|apply flag_blind_ret].
      apply flag_blind_bind; [apply flag_blind_on_rxms|].
      intros; apply flag_blind_ret.
    + apply flag_blind_while; [reflexivity|].
      apply flag_blind_bind; [apply flag_blind_on_rxms|].
      intros; apply flag_blind_ret.
    + apply flag_blind_try; [apply flag_blind_OneTxMemo | apply flag_blind_ret].
    + apply flag_blind_while; [reflexivity|].
      apply flag_blind_bind; [apply flag_blind_OneTxMemo|].
      intros; apply flag_blind_ret.
  - intros st fuel Ho.
    set (closed := fun s : MemoGram T => opened s = false).
    assert (KrxG1 : preserves closed serviceRxGramsOnce).
    { apply preserves_bind; [apply preserves_gets|].
      intros [|]; [|apply preserves_ret].
      apply preserves_forget, preserves_OnceRxGrams;
        intros s v Hs; exact Hs. }
    assert (KrxG : preserves closed (serviceRxGrams fuel)).
    { apply preserves_while, preserves_OnceRxGrams; intros s v Hs; exact Hs. }
    assert (KrxM1 : preserves closed serviceRxMemosOnce).
    { apply preserves_try; [|apply preserves_ret].
      apply preserves_forget, preserves_on_rxms. intros s v Hs; exact Hs. }
    assert (KrxM : preserves closed (serviceRxMemos fuel)).
    { apply preserves_while, preserves_bind;
        [apply preserves_on_rxms; intros s v Hs; exact Hs|].
      intros; apply preserves_ret. }
    assert (KtxM1 : preserves closed serviceTxMemosOnce).
    { apply preserves_try; [|apply preserves_ret].
      apply preserves_OneTxMemo; intros s v Hs; exact Hs. }
    assert (KtxM : preserves closed (serviceTxMemos fuel)).
    { apply preserves_while, preserves_bind;
        [|intros; apply preserves_ret].
      apply preserves_OneTxMemo; intros s v Hs; exact Hs. }
    destruct (Hskip st fuel None Ho) as (R1 & R & _).
    assert (A1 : serviceAllRxOnce st
                 = (serviceRxGramsOnce ;; serviceRxMemosOnce) st).
    { unfold serviceAllRxOnce. erewrite bind_ret_eq by exact R1.
      reflexivity. }
    assert (A2 : serviceAllRx fuel st
                 = (serviceRxGrams fuel ;; serviceRxMemos fuel) st).
    { unfold serviceAllRx. erewrite bind_ret_eq by exact R. reflexivity. }
    assert (A3 : forall s, closed s ->
                 serviceAllTxOnce s = serviceTxMemosOnce s).
    { intros s Hs. unfold serviceAllTxOnce. apply bind_then_noop.
      apply Hskip; [exact 0%nat | exact None |]. exact (KtxM1 s Hs). }
    assert (A4 : forall s, closed s ->
                 serviceAllTx fuel s = serviceTxMemos fuel s).
    { intros s Hs. unfold serviceAllTx. apply bind_then_noop.
      apply Hskip; [exact None|]. exact (KtxM s Hs). }
    split; [exact A1|]. split; [exact A2|].
    split; [exact (A3 st Ho)|]. split; [exact (A4 st Ho)|]. split.
    + unfold serviceAllOnce. unfold bind at 1. rewrite A1.
      rewrite <- bind_assoc. unfold bind at 2.
      assert (Hc : closed (fst ((serviceRxGramsOnce ;; serviceRxMemosOnce) st)))
        by (apply preserves_bind;
            [exact KrxG1 | intros _; exact KrxM1 | exact Ho]).
      destruct ((serviceRxGramsOnce ;; serviceRxMemosOnce) st)
        as [s' [[]|e|]]; try reflexivity.
      apply A3. exact Hc.
    + unfold serviceAll. unfold bind at 1. rewrite A2.
      rewrite <- bind_assoc. unfold bind at 2.
      assert (Hc : closed
                (fst ((serviceRxGrams fuel ;; serviceRxMemos fuel) st)))
        by (apply preserves_bind;
            [exact KrxG | intros _; exact KrxM | exact Ho]).
      destruct ((serviceRxGrams fuel ;; serviceRxMemos fuel) st)
        as [s' [[]|e|]]; try reflexivity.
      apply A4. exact Hc.
Qed.

End OpenedFlag.

(** C4 as stated fails: on a closed object holding one memo in [.txms],
    [serviceTxMemos] moves the memo to [.txgs]; so do the composites
    [serviceAllTx] and [serviceAll]. *)
Lemma C4_closed_object_still_segments :
  let st := fst (memoit (PStr [97%N]) "x"%string (init tt)) in
  opened st = false /\
  containers (fst (serviceTxMemos 1 st)) <> containers st /\
  containers (fst (serviceAllTx 1 st)) <> containers st /\
  containers (fst (serviceAll 1 st)) <> containers st /\
  ~ no_op_when_closed (T:=unit) (serviceTxMemos 1).
Proof.
  cbv zeta. split; [reflexivity|].
  split; [discriminate|]. split; [discriminate|]. split; [discriminate|].
  intros H.
  specialize (H (fst (memoit (PStr [97%N]) "x"%string (init tt))) eq_refl).
  discriminate H.
Qed.

Lemma C4_closed_object_skips_transport_services_witness :
  let st := fst (memoit (PStr [97%N]) "x"%string (init (queued [[x61]] "s"%string))) in
  opened st = false /\
  serviceReceives 3 None st = (st, Ret tt) /\
  serviceTxGrams 3 st = (st, Ret tt) /\
  serviceLocal 3 st = (st, Ret tt).
Proof.
  cbv zeta. split; [reflexivity|].
  destruct (proj1 (@C4_closed_object_skips_transport_services Sim _)
              (fst (memoit (PStr [97%N]) "x"%string
                      (init (queued [[x61]] "s"%string)))) 3%nat None eq_refl)
    as (_ & H1 & _ & H2 & H3).
  repeat split; assumption.
Defined.

(** ** C5: the single in-flight slot *)

Section SingleInFlight.

Context {T : Type} {tr : Transport T}.

(** C5: in every state reachable from construction by any sequence of
    calls, however each call ended, the Transmit Buffer is either idle and
    empty or holds, for one destination, a suffix of the gram loaded last,
    which was loaded for that destination; and a transmit pass that finds a
    destination in the buffer takes nothing from [.txgs] and loads nothing:
    it sends the buffered octets to that destination, and leaves in the
    buffer a suffix of them for the same destination, or leaves it idle. *)
Theorem C5_single_in_flight (t0 : T) (st : MemoGram T) :
  reachable t0 st ->
  single_in_flight st /\
  (forall rem d,
      txbs st = (rem, Some d) ->
      let st' := fst (_serviceOnceTxGrams st) in
      loaded st' = loaded st /\
      txgs st' = txgs st /\
      (exists r, sent st' = sent st ++ [(rem, d, r)]) /\
      (idle st' \/
       exists rem', txbs st' = (rem', Some d) /\ suffix_of rem' rem)) /\
  (loaded (fst (_serviceOnceTxGrams st)) <> loaded st ->
   idle st /\ txgs (fst (_serviceOnceTxGrams st)) = tl (txgs st)).
Proof.
  intros Hr.
  assert (Hinv : single_in_flight st).
  { induction Hr as [|st fuel o Hr IH]; [reflexivity|].
    apply preserves_run; try exact IH; try (intros s v H; exact H).
    exact pass_keeps_single_in_flight. }
  split; [exact Hinv|]. split; [intros rem d; apply pass_on_occupied|].
  intros Hl. unfold single_in_flight in Hinv.
  destruct (txbs st) as [rem [d|]] eqn:Hb.
  - destruct (pass_on_occupied _ Hb) as (Hl' & _). congruence.
  - subst rem. split; [exact Hb|].
    destruct st as [o rg rm tm tg tb t sn lg ld]. simpl in *. subst tb.
    destruct tg as [|[g d] q]; [exfalso; apply Hl; reflexivity|].
    destruct g as [s|b0]; [|reflexivity].
    destruct (Utf8.encode s) as [b|] eqn:Es.
    + assert (Hn : next_send
                (mkMemoGram o rg rm tm ((PStr s, d) :: q) ([], None) t sn lg ld)
              = Some (b, d))
        by (unfold next_send, encode; simpl; rewrite Es; reflexivity).
      rewrite (pass_send_step _ Hn). simpl.
      destruct (send t b d) as [t' [n|e]]; [reflexivity|].
      destruct (peer_unreachable e); reflexivity.
    + unfold _serviceOnceTxGrams, bind, gets, try_except, on_txgs, lift, encode.
      simpl. rewrite Es. reflexivity.
Qed.

End SingleInFlight.

Lemma C5_single_in_flight_witness :
  reachable (mkSim [] [Done 1%Z])
    (fst (run 1 TxGrams
       (fst (run 0 (Gramit (PStr [97%N; 98%N; 99%N]) "x"%string)
          (fst (run 0 Open (init (mkSim [] [Done 1%Z])))))))) /\
  single_in_flight
    (fst (run 1 TxGrams
       (fst (run 0 (Gramit (PStr [97%N; 98%N; 99%N]) "x"%string)
          (fst (run 0 Open (init (mkSim [] [Done 1%Z])))))))) /\
  txbs (fst (run 1 TxGrams
       (fst (run 0 (Gramit (PStr [97%N; 98%N; 99%N]) "x"%string)
          (fst (run 0 Open (init (mkSim [] [Done 1%Z]))))))))
    = ([x62; x63], Some "x"%string).
Proof.
  assert (Hr : reachable (mkSim [] [Done 1%Z])
    (fst (run 1 TxGrams
       (fst (run 0 (Gramit (PStr [97%N; 98%N; 99%N]) "x"%string)
          (fst (run 0 Open (init (mkSim [] [Done 1%Z])))))))))
    by (repeat apply reach_step; apply reach_init).
  split; [exact Hr|].
  split; [exact (proj1 (C5_single_in_flight Hr)) | reflexivity].
Defined.

(** ** C6: keys and deques of the Gram Receive Store *)

Section ReceiveStore.

Context {T : Type} {tr : Transport T}.

(** C6 (as the code runs): when the only pending gram of the first source
    does not decode, [desegment] has taken it off the deque before [decode]
    raises; [UnicodeDecodeError] leaves the reassembly pass, and with it
    [serviceRxGramsOnce] and [serviceRxGrams], before the key is deleted:
    the source stays a key of [.rxgs] with an empty deque. *)
Theorem C6_undecodable_gram_leaves_drained_key
  (st : MemoGram T) (src : addr) (g : bytes) others :
  rxgs st = (src, [g]) :: others ->
  Utf8.decode g = None ->
  let st' := set_rxgs ((src, []) :: others) st in
  _serviceOnceRxGrams st = (st', Raise UnicodeDecodeError) /\
  serviceRxGramsOnce st = (st', Raise UnicodeDecodeError) /\
  (forall fuel,
      serviceRxGrams (S fuel) st = (st', Raise UnicodeDecodeError)) /\
  Dict.mem src (rxgs st') = true /\
  Dict.get src (rxgs st') = Some [] /\
  ~ keyed_iff_pending st'.
Proof.
  intros Hq Hd. cbv zeta.
  assert (E : _serviceOnceRxGrams st =
              (set_rxgs ((src, []) :: others) st, Raise UnicodeDecodeError)).
  { destruct st as [o rg rm tm tg tb t sn lg ld]. simpl in Hq. subst rg.
    py_run. rewrite Hd. reflexivity. }
  split; [exact E|]. split; [|split].
  - unfold serviceRxGramsOnce, bind, gets. rewrite Hq. cbn [nonempty].
    unfold bind. rewrite E. reflexivity.
  - intros fuel. unfold serviceRxGrams. rewrite while_unfold, Hq.
    cbn [nonempty]. unfold bind. rewrite E. reflexivity.
  - assert (Hm : Dict.mem src ((src, @nil bytes) :: others) = true)
      by (unfold Dict.mem; simpl; rewrite String.eqb_refl; reflexivity).
    assert (Hg : Dict.get src ((src, @nil bytes) :: others) = Some [])
      by (simpl; rewrite String.eqb_refl; reflexivity).
    split; [exact Hm|]. split; [exact Hg|].
    intros [_ H]. destruct (proj1 (H src) Hm) as (q & Hq' & Hne).
    simpl in Hq'. rewrite String.eqb_refl in Hq'. congruence.
Qed.

End ReceiveStore.

Lemma C6_undecodable_gram_leaves_drained_key_witness :
  let st0 := fst (run 2 (Receives None)
                     (fst (run 0 Open (init (queued [[xff]] "a"%string))))) in
  let st1 := fst (run 0 RxGramsOnce st0) in
  rxgs st0 = [("a"%string, [[xff]])] /\
  keyed_iff_pending st0 /\
  rx_reachable (queued [[xff]] "a"%string) st1 /\
  snd (serviceRxGramsOnce st0) = Raise UnicodeDecodeError /\
  rxgs st1 = [("a"%string, [])] /\
  ~ keyed_iff_pending st1.
Proof.
  cbv zeta.
  set (st0 := fst (run 2 (Receives None)
                     (fst (run 0 Open (init (queued [[xff]] "a"%string)))))).
  assert (Hq : rxgs st0 = [("a"%string, [[xff]])]) by reflexivity.
  destruct (@C6_undecodable_gram_leaves_drained_key Sim st0 "a"%string
              [xff] [] Hq eq_refl) as (_ & H1 & _ & _ & _ & H2).
  split; [exact Hq|]. split.
  { split.
    - repeat constructor. intros [].
    - intros a. rewrite Hq. unfold Dict.mem. simpl.
      destruct (String.eqb a "a"); split.
      + intros _. exists [[xff]]. split; [reflexivity | discriminate].
      + intros _. reflexivity.
      + intros Hf. discriminate Hf.
      + intros (q & Hq' & _). discriminate Hq'. }
  split; [repeat apply rx_step; try reflexivity; apply rx_init|].
  assert (E : fst (run 0 RxGramsOnce st0) = set_rxgs [("a"%string, [])] st0)
    by (unfold run; rewrite H1; reflexivity).
  rewrite H1, E. repeat split. exact H2.
Defined.

Section StoreOnDecodingRuns.

Context {T : Type} {tr : Transport T}.

(** On runs of lifecycle and receive-side calls none of which ends in a
    decode error, a source is a key of [.rxgs] exactly when it has a
    non-empty deque there. *)
Theorem store_keyed_iff_pending_on_decoding_runs (t0 : T) (st : MemoGram T) :
  rx_reachable_decoding t0 st -> keyed_iff_pending st.
Proof.
  intros Hr. apply store_inv_keyed.
  induction Hr as [|st fuel o Hr IH Ho Hd];
    [exact DictFacts.store_ok_nil|].
  assert (Hrxms : forall A (m : M _ A), preserves (T:=T) store_inv (on_rxms m)).
  { intros A m s Hs. unfold on_rxms. destruct (m (rxms s)). exact Hs. }
  assert (Hone : forall echo,
             preserves_unless (T:=T) UnicodeDecodeError store_inv
               (_serviceOneReceived echo))
    by (intros; apply preserves_weaken, OneReceived_keeps_store).
  assert (Hret : forall A (a : A),
             preserves_unless (T:=T) UnicodeDecodeError store_inv
               (ret (S:=MemoGram T) a))
    by (intros A a s Hs _; exact Hs).
  assert (Hgets : forall A (f : MemoGram T -> A),
             preserves_unless (T:=T) UnicodeDecodeError store_inv (gets f))
    by (intros A f s Hs _; exact Hs).
  assert (Hforget : forall A (m : M (MemoGram T) A),
             preserves_unless (T:=T) UnicodeDecodeError store_inv m ->
             preserves_unless (T:=T) UnicodeDecodeError store_inv (forget m)).
  { intros A m Hm. apply preserves_unless_bind; [exact Hm|].
    intros; apply Hret. }
  assert (Hrc1 : forall echo,
             preserves_unless (T:=T) UnicodeDecodeError store_inv
               (serviceReceivesOnce echo)).
  { intros echo. apply preserves_unless_bind; [apply Hgets|].
    intros [|]; [apply Hforget, Hone | apply Hret]. }
  assert (Hrc : forall n echo,
             preserves_unless (T:=T) UnicodeDecodeError store_inv
               (serviceReceives n echo)).
  { induction n as [|n IHn]; intros echo; simpl;
      (apply preserves_unless_bind; [apply Hgets|]);
      intros [|]; try apply Hret; try (intros s Hs _; exact Hs).
    apply preserves_unless_bind; [apply Hone|].
    intros [|]; simpl; [apply IHn | apply Hret]. }
  assert (Hg1 : preserves_unless (T:=T) UnicodeDecodeError store_inv
                  serviceRxGramsOnce).
  { apply preserves_unless_bind; [apply Hgets|].
    intros [|]; [apply Hforget, OnceRxGrams_keeps_store | apply Hret]. }
  assert (Hg : preserves_unless (T:=T) UnicodeDecodeError store_inv
                 (serviceRxGrams fuel))
    by apply preserves_unless_while, OnceRxGrams_keeps_store.
  assert (Hm1 : preserves_unless (T:=T) UnicodeDecodeError store_inv
                  serviceRxMemosOnce).
  { apply preserves_weaken, preserves_try; [|intros s Hs; exact Hs].
    apply preserves_forget, Hrxms. }
  assert (Hm : preserves_unless (T:=T) UnicodeDecodeError store_inv
                 (serviceRxMemos fuel)).
  { apply preserves_weaken, preserves_while, preserves_bind; [apply Hrxms|].
    intros a s Hs; exact Hs. }
  destruct o; try discriminate Ho; simpl in Hd |- *.
  - exact IH.
  - exact IH.
  - exact IH.
  - apply Hforget with (1 := Hone echo); assumption.
  - apply Hrc1; assumption.
  - apply Hrc; assumption.
  - apply (Hforget _ _ OnceRxGrams_keeps_store); assumption.
  - apply Hg1; assumption.
  - apply Hg; assumption.
  - apply (preserves_forget (Hrxms _ popleft)). exact IH.
  - apply Hm1; assumption.
  - apply Hm; assumption.
  - revert Hd. apply preserves_unless_bind; [apply Hrc1| |exact IH].
    intros _. apply preserves_unless_bind; [exact Hg1|]. intros _. exact Hm1.
  - revert Hd. apply preserves_unless_bind; [apply Hrc| |exact IH].
    intros _. apply preserves_unless_bind; [exact Hg|]. intros _. exact Hm.
Qed.

End StoreOnDecodingRuns.

(** ** C7: greedy receive draining *)

(** C7 (as the code drains): on an opened object with an empty Gram Receive
    Store and an empty Memo Receive Queue, over a simulated socket holding
    N >= 1 non-empty datagrams from one source, each of them decodable:
    greedy receiving and greedy reassembly end with the N memos in [.rxms],
    in arrival order, and no entry for the source in [.rxgs]; the composite
    [serviceAllRx] then goes on to [serviceRxMemos], which pops and discards
    them all, so that it ends with [.rxms] empty and no entry for the
    source. *)
Theorem C7_greedy_receive_then_drain
  (src : addr) (gs : list bytes) (ms : list pystr)
  (st : MemoGram Sim) (fuel : nat) :
  gs <> [] ->
  Forall2 (fun g m => g <> [] /\ decode g = Ret m) gs ms ->
  opened st = true ->
  rxgs st = [] ->
  rxms st = [] ->
  transport st = queued gs src ->
  (List.length gs < fuel)%nat ->
  let got := receive_and_reassemble fuel st in
  let all := serviceAllRx fuel st in
  snd got = Ret tt /\
  rxms (fst got) = map (fun m => (m, src)) ms /\
  List.length (rxms (fst got)) = List.length gs /\
  Dict.mem src (rxgs (fst got)) = false /\
  snd all = Ret tt /\
  rxms (fst all) = [] /\
  Dict.mem src (rxgs (fst all)) = false.
Proof.
  intros Hne Hf Ho Hg Hm Ht Hl.
  assert (Hne' : Forall (fun g => g <> []) gs).
  { clear -Hf. induction Hf as [|? ? ? ? [H _]]; constructor; assumption. }
  assert (Hd : Forall2 (fun g m => decode g = Ret m) gs ms).
  { clear -Hf. induction Hf as [|? ? ? ? [_ H]]; constructor; assumption. }
  assert (Hlen : List.length ms = List.length gs).
  { clear -Hf. induction Hf; simpl; congruence. }
  destruct gs as [|g gs]; [congruence|].
  set (st1 := set_transport (mkSim [] []) (set_rxgs [(src, g :: gs)] st)).
  assert (E1 : serviceReceives fuel None st = (st1, Ret tt)).
  { apply serviceReceives_sim_fresh; assumption. }
  set (st2 := set_rxms (map (fun m => (m, src)) ms) (set_rxgs [] st1)).
  assert (E2 : serviceRxGrams fuel st1 = (st2, Ret tt)).
  { rewrite serviceRxGrams_single with (src := src) (gs := g :: gs) (ms := ms);
      try assumption; try reflexivity; try discriminate.
    - unfold st2, st1. destruct st; simpl in *; subst. reflexivity.
    - simpl in *. lia. }
  assert (E3 : serviceRxMemos fuel st2 = (set_rxms [] st2, Ret tt)).
  { apply serviceRxMemos_drains with (ms := map (fun m => (m, src)) ms);
      [reflexivity|].
    rewrite length_map, Hlen. simpl in *. lia. }
  cbv zeta. unfold receive_and_reassemble, serviceAllRx.
  erewrite !bind_ret_eq by exact E1.
  erewrite bind_ret_eq by exact E2.
  rewrite E2, E3.
  simpl. rewrite length_map. repeat split. exact Hlen.
Qed.

(** C7 as stated fails: with one datagram queued, the greedy receive-side
    service [serviceAllRx] ends with an empty [.rxms], not with one memo. *)
Lemma C7_greedy_service_leaves_no_memo :
  let st := fst (open (init (queued [[x61]] "s"%string))) in
  snd (serviceAllRx 5 st) = Ret tt /\
  rxms (fst (serviceAllRx 5 st)) = [] /\
  List.length (rxms (fst (serviceAllRx 5 st))) <> 1%nat.
Proof. cbv zeta. repeat split. discriminate. Qed.

Lemma C7_greedy_receive_then_drain_witness :
  let st := fst (open (init (queued [[x61]; [x62]] "s"%string))) in
  rxms (fst (receive_and_reassemble 3 st)) =
    [([97%N], "s"%string); ([98%N], "s"%string)] /\
  Dict.mem "s"%string (rxgs (fst (receive_and_reassemble 3 st))) = false /\
  rxms (fst (serviceAllRx 3 st)) = [] /\
  Dict.mem "s"%string (rxgs (fst (serviceAllRx 3 st))) = false.
Proof.
  destruct (@C7_greedy_receive_then_drain "s"%string [[x61]; [x62]]
              [[97%N]; [98%N]]
              (fst (open (init (queued [[x61]; [x62]] "s"%string)))) 3)
    as (_ & H1 & _ & H2 & _ & H3 & H4);
    try reflexivity; try discriminate.
  - repeat constructor; discriminate.
  - simpl. lia.
  - cbv zeta. repeat split; assumption.
Defined.

(** ** C8: backpressure *)

Section Backpressure.

Context {T : Type} {tr : Transport T}.

(** With [.txgs] empty at entry, [serviceTxGrams] ends at once, sends
    nothing and leaves the object as it was; and when, on an opened object
    with a gram queued, the send of the pass takes fewer octets than the
    pending gram holds, and the destination of that gram is not the empty
    string, [serviceTxGrams] ends after that one send with the Transmit
    Buffer holding the unsent suffix and its destination. *)
Lemma backpressure_when_addressed :
  (forall (st : MemoGram T) fuel,
      txgs st = [] ->
      serviceTxGrams fuel st = (st, Ret tt)) /\
  (forall (st : MemoGram T) gram dst t' n fuel,
      opened st = true ->
      txgs st <> [] ->
      next_send st = Some (gram, dst) ->
      send (transport st) gram dst = (t', Done n) ->
      (0 <= n < Z.of_nat (List.length gram))%Z ->
      dst <> EmptyString ->
      let st' := fst (serviceTxGrams (S fuel) st) in
      snd (serviceTxGrams (S fuel) st) = Ret tt /\
      txbs st' = (skipn (Z.to_nat n) gram, Some dst) /\
      skipn (Z.to_nat n) gram <> [] /\
      gram = firstn (Z.to_nat n) gram ++ skipn (Z.to_nat n) gram /\
      sent st' = sent st ++ [(gram, dst, Done n)] /\
      txgs st' = txgs_after_take st).
Proof.
  split.
  - intros st fuel Hq. apply while_done.
    unfold tx_ready. rewrite Hq. apply andb_false_r.
  - intros st gram dst t' n fuel Ho Hq Hn Hs Hr Hd. cbv zeta.
    assert (Hstop : slice_stop (List.length gram) n = Z.to_nat n).
    { unfold slice_stop.
      destruct (Z.ltb_spec n 0); [lia|]. apply Nat.min_l. lia. }
    assert (Hne : skipn (Z.to_nat n) gram <> []).
    { intros E. apply (f_equal (@List.length _)) in E.
      rewrite length_skipn in E. simpl in E. lia. }
    assert (Hc : tx_ready st = true).
    { unfold tx_ready. rewrite Ho. destruct (txgs st); [congruence|reflexivity]. }
    assert (Hrun : exists st1,
      serviceTxGrams (S fuel) st =
        (set_txbs (skipn (Z.to_nat n) gram, Some dst)
           (set_sent (sent st ++ [(gram, dst, Done n)]) st1), Ret tt) /\
      txgs st1 = txgs_after_take st).
    { unfold serviceTxGrams. rewrite while_unfold, Hc. unfold bind at 1.
      rewrite (pass_send_step _ Hn), Hs. cbv zeta.
      unfold del_prefix. rewrite Hstop.
      destruct (skipn (Z.to_nat n) gram) as [|x r] eqn:Ek; [congruence|].
      cbn [nonempty negb truthy].
      destruct (String.eqb_spec dst EmptyString) as [E|_]; [congruence|].
      cbn [negb ret]. eexists. split; [reflexivity|].
      destruct st as [o rg rm tm tg [b0 [d0|]] t sn lg ld]; reflexivity. }
    destruct Hrun as (st1 & -> & Hq1). cbn [fst snd].
    repeat split; try assumption.
    symmetry. apply firstn_skipn.
Qed.

(** C8 (as the code runs): the pass answers by the truth value of the
    destination, [False if dst else True], and the empty string is as false
    as [None].  On an opened object with a gram queued, when the send of the
    pass takes fewer octets than the pending gram holds and the destination
    of that gram is the empty string, the pass buffers the unsent suffix
    with its destination and still answers [True]: [serviceTxGrams] does
    not end there but goes on with the loop, and with another gram queued
    its next pass hands the suffix to [.send] at once. *)
Theorem C8_partial_send_to_empty_destination_goes_on
  (st : MemoGram T) gram t' n fuel :
  opened st = true ->
  txgs st <> [] ->
  next_send st = Some (gram, EmptyString) ->
  send (transport st) gram EmptyString = (t', Done n) ->
  (0 <= n < Z.of_nat (List.length gram))%Z ->
  let st1 := fst (_serviceOnceTxGrams st) in
  snd (_serviceOnceTxGrams st) = Ret true /\
  txbs st1 = (skipn (Z.to_nat n) gram, Some EmptyString) /\
  skipn (Z.to_nat n) gram <> [] /\
  sent st1 = sent st ++ [(gram, EmptyString, Done n)] /\
  txgs st1 = txgs_after_take st /\
  serviceTxGrams (S fuel) st = serviceTxGrams fuel st1 /\
  (txgs_after_take st <> [] ->
   tx_ready st1 = true /\
   next_send st1 = Some (skipn (Z.to_nat n) gram, EmptyString)).
Proof.
  intros Ho Hq Hn Hs Hr. cbv zeta.
  assert (Hstop : slice_stop (List.length gram) n = Z.to_nat n).
  { unfold slice_stop.
    destruct (Z.ltb_spec n 0); [lia|]. apply Nat.min_l. lia. }
  assert (Hne : skipn (Z.to_nat n) gram <> []).
  { intros E. apply (f_equal (@List.length _)) in E.
    rewrite length_skipn in E. simpl in E. lia. }
  assert (Hc : tx_ready st = true).
  { unfold tx_ready. rewrite Ho. destruct (txgs st); [congruence|reflexivity]. }
  assert (Hp : exists st0,
    _serviceOnceTxGrams st =
      (set_txbs (skipn (Z.to_nat n) gram, Some EmptyString)
         (set_sent (sent st ++ [(gram, EmptyString, Done n)]) st0),
       Ret true) /\
    txgs st0 = txgs_after_take st /\ opened st0 = opened st).
  { rewrite (pass_send_step _ Hn), Hs. cbv zeta.
    unfold del_prefix. rewrite Hstop.
    destruct (skipn (Z.to_nat n) gram) as [|x r] eqn:Ek; [congruence|].
    cbn [nonempty negb truthy String.eqb].
    eexists. split; [reflexivity|].
    destruct st as [o rg rm tm tg [b0 [d0|]] t sn lg ld]; split; reflexivity. }
  destruct Hp as (st0 & Hp & Hq0 & Ho0).
  assert (Hloop : serviceTxGrams (S fuel) st =
                  serviceTxGrams fuel (fst (_serviceOnceTxGrams st))).
  { unfold serviceTxGrams. rewrite while_unfold, Hc. unfold bind.
    rewrite Hp. reflexivity. }
  rewrite Hloop, Hp. cbn [fst snd].
  destruct st0 as [o rg rm tm tg tb t sn lg ld]. simpl in Hq0, Ho0 |- *.
  subst tg o. repeat split; try assumption.
  - unfold tx_ready. simpl. rewrite Ho.
    destruct (txgs_after_take st); [congruence | reflexivity].
Qed.

End Backpressure.

Lemma backpressure_when_addressed_example :
  serviceTxGrams 3 remainder_only = (remainder_only, Ret tt) /\
  (let st' := fst (serviceTxGrams 1 one_gram_partial) in
   snd (serviceTxGrams 1 one_gram_partial) = Ret tt /\
   txbs st' = ([x62; x63], Some "x"%string) /\
   sent st' = [([x61; x62; x63], "x"%string, Done 1%Z)]).
Proof.
  split.
  - apply (proj1 (@backpressure_when_addressed Sim _)). reflexivity.
  - destruct (proj2 (@backpressure_when_addressed Sim _) one_gram_partial
                [x61; x62; x63] "x"%string (mkSim [] []) 1%Z 0%nat)
      as (H1 & H2 & _ & _ & H3 & _);
      try reflexivity; try discriminate.
    + simpl. lia.
    + cbv zeta. repeat split; assumption.
Defined.

Lemma C8_partial_send_to_empty_destination_goes_on_witness :
  snd (_serviceOnceTxGrams unaddressed_partial) = Ret true /\
  txbs (fst (_serviceOnceTxGrams unaddressed_partial))
    = ([x62; x63], Some EmptyString) /\
  snd (serviceTxGrams 5 unaddressed_partial) = Ret tt /\
  txbs (fst (serviceTxGrams 5 unaddressed_partial)) = ([], None) /\
  sent (fst (serviceTxGrams 5 unaddressed_partial))
    = [([x61; x62; x63], EmptyString, Done 1%Z);
       ([x62; x63], EmptyString, Done 2%Z);
       ([x64], "y"%string, Done 1%Z)].
Proof.
  destruct (@C8_partial_send_to_empty_destination_goes_on Sim _
              unaddressed_partial [x61; x62; x63] (mkSim [] []) 1%Z 4%nat)
    as (H1 & H2 & _ & _ & _ & H3 & _);
    try reflexivity; try discriminate.
  - simpl. lia.
  - split; [exact H1|]. split; [exact H2|].
    rewrite H3. repeat split.
Defined.

(** ** C9: two memos, sent in order *)

Section OrderedTransmit.

Context {T : Type} {tr : Transport T}.

(** The transport reports every octet sent, always. *)
Hypothesis send_full :
  forall t b d, snd (send t b d) = Done (Z.of_nat (List.length b)).

(** C9: on an opened object with empty transmit queues and an idle buffer,
    over a transport that always reports every octet sent: after memo ["a"]
    for ["x"] and memo ["b"] for ["y"], the greedy segmentation and then the
    greedy transmission leave [.txms] and [.txgs] empty and the buffer idle,
    and make exactly two sends, ["a"] to ["x"] and then ["b"] to ["y"]. *)
Theorem C9_two_memos_sent_in_order (st : MemoGram T) (fuel : nat) :
  opened st = true ->
  txms st = [] ->
  txgs st = [] ->
  idle st ->
  let r := send_a_then_b (S (S fuel)) st in
  snd r = Ret tt /\
  txms (fst r) = [] /\
  txgs (fst r) = [] /\
  idle (fst r) /\
  sent (fst r) =
    sent st ++ [([x61], "x"%string, Done 1%Z); ([x62], "y"%string, Done 1%Z)].
Proof.
  intros Ho Hm Hg Hi.
  set (ab := [(PStr [97%N], "x"%string); (PStr [98%N], "y"%string)]).
  set (st1 := set_txms ab st).
  assert (E1 : send_a_then_b (S (S fuel)) st =
               (serviceTxMemos (S (S fuel)) ;; serviceTxGrams (S (S fuel))) st1).
  { unfold send_a_then_b, st1, ab.
    destruct st; simpl in *; subst. reflexivity. }
  assert (E2 : serviceTxMemos (S (S fuel)) st1 =
               (set_txgs ab (set_txms [] st), Ret tt)).
  { rewrite serviceTxMemos_run with (ms := ab) by (simpl; (reflexivity || lia)).
    destruct st; simpl in *; subst. reflexivity. }
  destruct (@serviceTxGrams_full T tr send_full ab [[x61]; [x62]]
              (set_txgs ab (set_txms [] st)) (S (S fuel)))
    as [t' E3]; try assumption; try reflexivity.
  { repeat constructor. }
  { simpl. lia. }
  cbv zeta. rewrite E1. unfold bind at 1 2 3 4 5. rewrite E2, E3.
  unfold idle in *. destruct st; simpl in *; subst. repeat split.
Qed.

End OrderedTransmit.

Lemma C9_two_memos_sent_in_order_witness :
  let r := send_a_then_b 2 (fst (open (init tt))) in
  snd r = Ret tt /\
  txms (fst r) = [] /\
  txgs (fst r) = [] /\
  idle (fst r) /\
  sent (fst r) =
    [([x61], "x"%string, Done 1%Z); ([x62], "y"%string, Done 1%Z)].
Proof.
  apply (@C9_two_memos_sent_in_order unit stub_transport
           (fun _ _ _ => eq_refl)
           (fst (open (init tt))) 0%nat); reflexivity.
Defined.

(** ** C10: a gram that is [bytes] *)

Section BytesGram.

Context {T : Type} {tr : Transport T}.

(** C10: a gram that is [bytes] makes the transmit pass that takes it from
    [.txgs] raise [AttributeError] at [gram.encode()]: the gram is gone from
    the queue, the Transmit Buffer is untouched and nothing is sent; so it
    is for a gram that [gramit] put on an empty queue, in the pass and in
    the greedy service of an opened object. *)
Theorem C10_bytes_gram_raises_attribute_error
  (st : MemoGram T) (b : bytes) (d : addr) :
  snd (txbs st) = None ->
  (forall q, txgs st = (PBytes b, d) :: q ->
     _serviceOnceTxGrams st = (set_txgs q st, Raise AttributeError)) /\
  (txgs st = [] ->
     let st1 := fst (gramit (PBytes b) d st) in
     txgs st1 = [(PBytes b, d)] /\
     _serviceOnceTxGrams st1 = (st, Raise AttributeError) /\
     (forall fuel, opened st = true ->
        serviceTxGrams (S fuel) st1 = (st, Raise AttributeError)) /\
     sent (fst (_serviceOnceTxGrams st1)) = sent st).
Proof.
  destruct st as [o rg rm tm tg [b0 d0] t sn lg ld]; simpl.
  intros ->. split.
  - intros q ->. reflexivity.
  - intros ->. cbv zeta. repeat split.
    intros fuel ->. reflexivity.
Qed.

End BytesGram.

Lemma C10_bytes_gram_raises_attribute_error_witness :
  let st := fst (open (init tt)) in
  snd (txbs st) = None /\
  txgs st = [] /\
  _serviceOnceTxGrams (fst (gramit (PBytes [x61]) "x"%string st))
    = (st, Raise AttributeError) /\
  serviceTxGrams 1 (fst (gramit (PBytes [x61]) "x"%string st))
    = (st, Raise AttributeError).
Proof.
  cbv zeta. split; [reflexivity|]. split; [reflexivity|].
  pose proof (@C10_bytes_gram_raises_attribute_error unit _
                (fst (open (init tt))) [x61] "x"%string eq_refl) as [_ H].
  destruct (H eq_refl) as (_ & H1 & H2 & _).
  split; [exact H1 | exact (H2 0%nat eq_refl)].
Defined.

(** * Further properties of the code *)

(** ** More on the ordered dictionary *)

Module StoreFacts.

Lemma get_set_other {V} k k' (v : V) d :
  k' <> k -> Dict.get k' (Dict.set k v d) = Dict.get k' d.
Proof.
  intros Hk. induction d as [|[k0 v0] d IH]; simpl.
  - destruct (String.eqb_spec k' k); [congruence | reflexivity].
  - destruct (String.eqb_spec k k0) as [->|Hk0]; simpl.
    + destruct (String.eqb_spec k' k0); [congruence | reflexivity].
    + destruct (String.eqb k' k0); [reflexivity | exact IH].
Qed.

Lemma get_Some_keys {V} k (v : V) d :
  Dict.get k d = Some v -> In k (Dict.keys d).
Proof.
  intros H. apply DictFacts.get_In in H.
  apply in_map_iff. exists (k, v). split; [reflexivity | exact H].
Qed.

Lemma get_mid {V} k (q : V) done todo :
  ~ In k (Dict.keys done) ->
  Dict.get k (done ++ (k, q) :: todo) = Some q.
Proof.
  induction done as [|[k0 v0] done IH]; simpl; intros Hn.
  - rewrite String.eqb_refl. reflexivity.
  - destruct (String.eqb_spec k k0) as [->|_]; [tauto|]. apply IH. tauto.
Qed.

Lemma set_mid {V} k (q v : V) done todo :
  ~ In k (Dict.keys done) ->
  Dict.set k v (done ++ (k, q) :: todo) = done ++ (k, v) :: todo.
Proof.
  induction done as [|[k0 v0] done IH]; simpl; intros Hn.
  - rewrite String.eqb_refl. reflexivity.
  - destruct (String.eqb_spec k k0) as [->|_]; [tauto|].
    rewrite IH by tauto. reflexivity.
Qed.

Lemma del_mid {V} k (q : V) done todo :
  ~ In k (Dict.keys done) ->
  Dict.del k (done ++ (k, q) :: todo) = done ++ todo.
Proof.
  induction done as [|[k0 v0] done IH]; simpl; intros Hn.
  - rewrite String.eqb_refl. reflexivity.
  - destruct (String.eqb_spec k k0) as [->|_]; [tauto|].
    rewrite IH by tauto. reflexivity.
Qed.

Lemma get_app_notin {V} k (d1 d2 : Dict.t V) :
  ~ In k (Dict.keys d1) -> Dict.get k (d1 ++ d2) = Dict.get k d2.
Proof.
  induction d1 as [|[k0 v0] d1 IH]; simpl; intros Hn; [reflexivity|].
  destruct (String.eqb_spec k k0) as [->|_]; [tauto|]. apply IH. tauto.
Qed.

Lemma get_notin {V} k (d : Dict.t V) :
  ~ In k (Dict.keys d) -> Dict.get k d = None.
Proof.
  induction d as [|[k0 v0] d IH]; simpl; intros Hn; [reflexivity|].
  destruct (String.eqb_spec k k0) as [->|_]; [tauto|]. apply IH. tauto.
Qed.

Lemma existsb_id_map {A} (f : A -> bool) xs :
  existsb (fun b => b) (map f xs) = existsb f xs.
Proof.
  induction xs as [|x xs IH]; simpl; [reflexivity|]. rewrite IH. reflexivity.
Qed.

End StoreFacts.

(** ** One received duple *)

Section OneReceived.

Context {T : Type} {tr : Transport T}.

Lemma oneReceived_step (st : MemoGram T) echo :
  _serviceOneReceived echo st =
    match snd (receive (transport st) echo) with
    | Fail e =>
      (set_transport (fst (receive (transport st) echo)) st,
       Raise (OSError e))
    | Done None =>
      (set_transport (fst (receive (transport st) echo)) st, Ret false)
    | Done (Some dg) =>
      if nonempty (fst dg)
      then (set_rxgs (enqueue (rxgs st) dg)
              (set_transport (fst (receive (transport st) echo)) st),
            Ret true)
      else (set_transport (fst (receive (transport st) echo)) st, Ret false)
    end.
Proof.
  destruct st as [o rg rm tm tg tb t sn lg ld]. unfold enqueue.
  py_dict_step.
  destruct (receive t echo) as [t' [[[g src]|]|e]]; try reflexivity.
  destruct g as [|x g]; [reflexivity|].
  destruct (Dict.get src rg) as [q|] eqn:E;
    repeat progress (py_dict_step; rewrite ?E); reflexivity.
Qed.

(** X1: when [receive] raises [socket.error], answers the nothing-received
    duple, or answers an empty gram, [_serviceOneReceived] leaves the five
    containers as they were and sends nothing; it re-raises the error as it
    is in the first case and returns [False] in the other two. *)
Theorem X1_receive_without_gram (st : MemoGram T) echo :
  (forall e,
      snd (receive (transport st) echo) = Fail e ->
      snd (_serviceOneReceived echo st) = Raise (OSError e)) /\
  (snd (receive (transport st) echo) = Done None ->
   snd (_serviceOneReceived echo st) = Ret false) /\
  (forall src,
      snd (receive (transport st) echo) = Done (Some ([], src)) ->
      snd (_serviceOneReceived echo st) = Ret false) /\
  ((forall g src,
       snd (receive (transport st) echo) = Done (Some (g, src)) -> g = []) ->
   containers (fst (_serviceOneReceived echo st)) = containers st /\
   sent (fst (_serviceOneReceived echo st)) = sent st).
Proof.
  rewrite oneReceived_step.
  destruct (snd (receive (transport st) echo)) as [[[g src]|]|e] eqn:E.
  - repeat split; try discriminate.
    + intros src' [= -> _]. reflexivity.
    + rewrite (H g src eq_refl). reflexivity.
    + rewrite (H g src eq_refl). reflexivity.
  - repeat split; discriminate.
  - repeat split; try discriminate. intros e' [= ->]. reflexivity.
Qed.

(** X2: a non-empty gram from [src] makes [_serviceOneReceived] return
    [True] with the gram at the end of the deque of [src]; a source that is
    a key keeps its place in the key order, a new source goes last; the
    deques of the other sources, and all other containers, stay. *)
Theorem X2_received_gram_goes_last
  (st : MemoGram T) echo t' (g : bytes) (src : addr) :
  receive (transport st) echo = (t', Done (Some (g, src))) ->
  g <> [] ->
  let st' := fst (_serviceOneReceived echo st) in
  snd (_serviceOneReceived echo st) = Ret true /\
  Dict.get src (rxgs st') = Some (deque_of src (rxgs st) ++ [g]) /\
  (forall other, other <> src ->
     Dict.get other (rxgs st') = Dict.get other (rxgs st)) /\
  Dict.keys (rxgs st') =
    (if Dict.mem src (rxgs st) then Dict.keys (rxgs st)
     else Dict.keys (rxgs st) ++ [src]) /\
  (rxms st', txms st', txgs st', txbs st') =
    (rxms st, txms st, txgs st, txbs st).
Proof.
  intros Hr Hg. cbv zeta. rewrite oneReceived_step, Hr. cbn [fst snd].
  destruct g as [|x g]; [congruence|]. cbn [nonempty fst snd].
  unfold enqueue, deque_of, Dict.mem. cbn [fst snd].
  destruct (Dict.get src (rxgs st)) as [q|] eqn:E.
  - repeat split.
    + apply DictFacts.get_set_same.
    + intros other Ho. apply StoreFacts.get_set_other. exact Ho.
    + eapply DictFacts.keys_set_present. exact E.
  - repeat split.
    + apply DictFacts.get_set_same.
    + intros other Ho. apply StoreFacts.get_set_other. exact Ho.
    + apply DictFacts.keys_set_absent. exact E.
Qed.

End OneReceived.

Lemma X1_receive_without_gram_witness :
  let st := fst (open (init (queued [[]; [x61]] "a"%string))) in
  snd (_serviceOneReceived None st) = Ret false /\
  containers (fst (_serviceOneReceived None st)) = containers st /\
  inbox (transport (fst (_serviceOneReceived None st)))
    = [([x61], "a"%string)].
Proof.
  cbv zeta.
  destruct (@X1_receive_without_gram Sim _
              (fst (open (init (queued [[]; [x61]] "a"%string)))) None)
    as (_ & _ & H1 & H2).
  split; [exact (H1 "a"%string eq_refl)|].
  split; [|reflexivity].
  apply H2. intros g src [= <- _]. reflexivity.
Defined.

Lemma X2_received_gram_goes_last_witness :
  let st := mkMemoGram true [("a"%string, [[x61]]); ("b"%string, [[x62]])]
              [] [] [] ([], None)
              (mkSim [([x63], "a"%string); ([x64], "c"%string)] []) [] [] [] in
  let st1 := fst (_serviceOneReceived None st) in
  let st2 := fst (_serviceOneReceived None st1) in
  rxgs st1 = [("a"%string, [[x61]; [x63]]); ("b"%string, [[x62]])] /\
  Dict.keys (rxgs st2) = ["a"%string; "b"%string; "c"%string] /\
  Dict.get "c"%string (rxgs st2) = Some [[x64]].
Proof.
  cbv zeta. split; [reflexivity|].
  set (st1 := fst (_serviceOneReceived None
     (mkMemoGram true [("a"%string, [[x61]]); ("b"%string, [[x62]])]
        [] [] [] ([], None)
        (mkSim [([x63], "a"%string); ([x64], "c"%string)] []) [] [] []))).
  destruct (@X2_received_gram_goes_last Sim sim_transport st1 None
              (mkSim [] []) [x64] "c"%string eq_refl)
    as (_ & H1 & _ & H2 & _); [discriminate|].
  split; [exact H2 | exact H1].
Defined.

(** ** Greedy receiving *)

Section EchoOnce.

(** X3: over the stubs of the mixin, whose [receive] hands back its [echo],
    [serviceReceives] with an echo of a non-empty gram queues that gram
    once and ends: the echo goes to the first [receive] only. *)
Theorem X3_echo_is_received_once
  (st : MemoGram unit) (g : bytes) (src : addr) (fuel : nat) :
  opened st = true ->
  g <> [] ->
  serviceReceives (S (S fuel)) (Some (g, src)) st =
    (set_rxgs (enqueue (rxgs st) (g, src)) st, Ret tt) /\
  serviceReceives (S fuel) None st = (st, Ret tt).
Proof.
  intros Ho Hg.
  assert (H1 : _serviceOneReceived (Some (g, src)) st =
               (set_rxgs (enqueue (rxgs st) (g, src)) st, Ret true)).
  { rewrite oneReceived_step. cbn [receive stub_transport fst snd].
    destruct g; [congruence|]. destruct st as [o rg rm tm tg tb [] sn lg ld].
    reflexivity. }
  assert (H0 : forall s : MemoGram unit,
             _serviceOneReceived None s = (s, Ret false)).
  { intros s. rewrite oneReceived_step. cbn [receive stub_transport fst snd].
    destruct s as [o rg rm tm tg tb [] sn lg ld]. reflexivity. }
  split.
  - cbn [serviceReceives]. unfold bind at 1, gets at 1. rewrite Ho.
    erewrite bind_ret_eq by exact H1. cbn [negb].
    unfold bind at 1, gets at 1. cbn [opened set_rxgs]. rewrite Ho.
    erewrite bind_ret_eq by apply H0. reflexivity.
  - cbn [serviceReceives]. unfold bind at 1, gets at 1. rewrite Ho.
    erewrite bind_ret_eq by apply H0. reflexivity.
Qed.

End EchoOnce.

Lemma X3_echo_is_received_once_witness :
  let st := fst (open (init tt)) in
  rxgs (fst (serviceReceives 2 (Some ([x61], "a"%string)) st))
    = [("a"%string, [[x61]])] /\
  snd (serviceReceives 2 (Some ([x61], "a"%string)) st) = Ret tt.
Proof.
  cbv zeta.
  destruct (@X3_echo_is_received_once (fst (open (init tt))) [x61]
              "a"%string 0 eq_refl) as [H _]; [discriminate|].
  split; [exact (f_equal (fun p => rxgs (fst p)) H) | exact (f_equal snd H)].
Defined.

Section GreedyReceive.

Context {T : Type} {tr : Transport T}.

(** The datagrams a transport holds for delivery, oldest first: [receive]
    hands out the oldest and keeps the rest, whatever the echo. *)
Variable pending : T -> list (bytes * addr).

Hypothesis receive_pops : forall t echo,
  match pending t with
  | [] => snd (receive t echo) = Done None /\
          pending (fst (receive t echo)) = []
  | dg :: rest => snd (receive t echo) = Done (Some dg) /\
                  pending (fst (receive t echo)) = rest
  end.

Lemma serviceReceives_drains (ds : list (bytes * addr)) :
  forall (st : MemoGram T) stop fuel echo,
    opened st = true ->
    pending (transport st) = ds ++ stop ->
    Forall (fun dg => fst dg <> []) ds ->
    match stop with [] => True | dg :: _ => fst dg = [] end ->
    (List.length ds < fuel)%nat ->
    exists t',
      serviceReceives fuel echo st =
        (set_rxgs (fold_left enqueue ds (rxgs st)) (set_transport t' st),
         Ret tt) /\
      pending t' = tl stop.
Proof.
  induction ds as [|dg ds IH]; intros st stop fuel echo Ho Hp Hne Hs Hl;
    (destruct fuel as [|fuel]; [simpl in Hl; lia|]);
    cbn [serviceReceives]; unfold bind at 1, gets at 1; rewrite Ho;
    pose proof (receive_pops (transport st) echo) as Hr;
    rewrite Hp in Hr; unfold bind at 1; rewrite oneReceived_step.
  - simpl in Hr. exists (fst (receive (transport st) echo)).
    destruct stop as [|[g a] stop]; destruct Hr as [Hr1 Hr2]; rewrite Hr1.
    + split; [|exact Hr2]. destruct st; reflexivity.
    + simpl in Hs. subst g. cbn [fst nonempty negb].
      split; [|exact Hr2]. destruct st; reflexivity.
  - simpl in Hr. destruct Hr as [Hr1 Hr2]. rewrite Hr1.
    inversion Hne as [|? ? Hg Hne']; subst.
    destruct dg as [g a]. cbn [fst] in Hg.
    destruct g as [|x g]; [congruence|]. cbn [fst nonempty negb].
    destruct (IH (set_rxgs (enqueue (rxgs st) (x :: g, a))
                    (set_transport (fst (receive (transport st) echo)) st))
                 stop fuel None) as (t' & E & Ht');
      try assumption; try (simpl in Hl; lia).
    exists t'. split; [|exact Ht'].
    etransitivity; [exact E|]. destruct st; reflexivity.
Qed.

(** X4: over a transport that hands out its pending datagrams oldest first,
    [serviceReceives] on an opened object queues every datagram up to the
    first one with an empty gram, each at the end of the deque of its
    source, and ends; the empty datagram is taken from the transport and
    dropped, and the datagrams behind it stay with the transport. *)
Theorem X4_greedy_receive_stops_at_empty_gram
  (st : MemoGram T) (ds stop : list (bytes * addr)) (fuel : nat) echo :
  opened st = true ->
  pending (transport st) = ds ++ stop ->
  Forall (fun dg => fst dg <> []) ds ->
  match stop with [] => True | dg :: _ => fst dg = [] end ->
  (List.length ds < fuel)%nat ->
  let st' := fst (serviceReceives fuel echo st) in
  snd (serviceReceives fuel echo st) = Ret tt /\
  rxgs st' = fold_left enqueue ds (rxgs st) /\
  pending (transport st') = tl stop /\
  (rxms st', transmit_state st') = (rxms st, transmit_state st).
Proof.
  intros Ho Hp Hne Hs Hl. cbv zeta.
  destruct (@serviceReceives_drains ds st stop fuel echo Ho Hp Hne Hs Hl)
    as (t' & -> & Ht').
  repeat split. exact Ht'.
Qed.

End GreedyReceive.

Lemma sim_receive_pops (t : Sim) echo :
  match inbox t with
  | [] => snd (receive t echo) = Done None /\
          inbox (fst (receive t echo)) = []
  | dg :: rest => snd (receive t echo) = Done (Some dg) /\
                  inbox (fst (receive t echo)) = rest
  end.
Proof.
  destruct t as [[|dg rest] sc]; cbn; split; reflexivity.
Defined.

Lemma loopback_receive_pops (t : Loopback) echo :
  match wire t with
  | [] => snd (receive t echo) = Done None /\
          wire (fst (receive t echo)) = []
  | dg :: rest => snd (receive t echo) = Done (Some dg) /\
                  wire (fst (receive t echo)) = rest
  end.
Proof.
  destruct t as [[|dg rest]]; cbn; split; reflexivity.
Defined.

Lemma X4_greedy_receive_stops_at_empty_gram_witness :
  let st := fst (open (init (mkSim
               [([x61], "a"%string); ([x62], "b"%string); ([x63], "a"%string);
                ([], "c"%string); ([x64], "a"%string)] []))) in
  let st' := fst (serviceReceives 4 None st) in
  rxgs st' = [("a"%string, [[x61]; [x63]]); ("b"%string, [[x62]])] /\
  inbox (transport st') = [([x64], "a"%string)].
Proof.
  cbv zeta.
  destruct (@X4_greedy_receive_stops_at_empty_gram Sim sim_transport inbox
              sim_receive_pops
              (fst (open (init (mkSim
               [([x61], "a"%string); ([x62], "b"%string); ([x63], "a"%string);
                ([], "c"%string); ([x64], "a"%string)] []))))
              [([x61], "a"%string); ([x62], "b"%string); ([x63], "a"%string)]
              [([], "c"%string); ([x64], "a"%string)] 4 None)
    as (_ & H1 & H2 & _); try reflexivity.
  - repeat constructor; discriminate.
  - simpl. lia.
  - split; [exact H1 | exact H2].
Defined.

(** ** One reassembly pass over any store *)

Section ReassemblyPass.

Context {T : Type}.

Ltac py_store_run :=
  repeat progress
    (py_dict_step;
     rewrite ?StoreFacts.get_mid, ?StoreFacts.set_mid, ?StoreFacts.del_mid
       by assumption).

(** The round of the pass for one source, the sources before it done. *)
Lemma rx_pass_round (st : MemoGram T) k q done todo :
  rxgs st = done ++ (k, q) :: todo ->
  ~ In k (Dict.keys done) ->
  Dict.get k (done ++ todo) = None ->
  heads_decode [(k, q)] ->
  (memo <- on_rxgs_at k desegment ;;
   match memo with
   | Some m => on_rxms (append (m, k))
   | None => ret tt
   end ;;
   q' <- on_rxgs_at k (gets (fun q' => q')) ;;
   (if negb (nonempty q')
    then modify (fun st => set_rxgs (Dict.del k (rxgs st)) st)
    else ret tt) ;;
   match memo with
   | Some _ => gets (fun st => Dict.mem k (rxgs st))
   | None => ret false
   end) st =
  (set_rxms (rxms st ++ head_memos [(k, q)])
     (set_rxgs (done ++ behead [(k, q)] ++ todo) st),
   Ret (nonempty (tl q))).
Proof.
  intros Hq Hn Hn' Hd. destruct st as [o rg rm tm tg tb t sn lg ld].
  simpl in Hq. subst rg.
  destruct q as [|g rest].
  - py_store_run. cbn [app]. rewrite ?app_nil_r. reflexivity.
  - inversion Hd as [|? ? Hg _]; subst. cbn [snd] in Hg.
    destruct (Utf8.decode g) as [m|] eqn:Eg; [|congruence].
    py_store_run. rewrite Eg.
    destruct rest as [|g' rest]; py_store_run;
      cbn [app]; rewrite ?app_nil_r, ?Hn'; reflexivity.
Qed.

Lemma rx_pass_rounds (todo : Dict.t (list bytes)) :
  forall (done : Dict.t (list bytes)) (st : MemoGram T),
    rxgs st = done ++ todo ->
    NoDup (Dict.keys (done ++ todo)) ->
    heads_decode todo ->
    for_each (Dict.keys todo) (fun src =>
      memo <- on_rxgs_at src desegment ;;
      match memo with
      | Some m => on_rxms (append (m, src))
      | None => ret tt
      end ;;
      q <- on_rxgs_at src (gets (fun q => q)) ;;
      (if negb (nonempty q)
       then modify (fun st => set_rxgs (Dict.del src (rxgs st)) st)
       else ret tt) ;;
      match memo with
      | Some _ => gets (fun st => Dict.mem src (rxgs st))
      | None => ret false
      end) st =
    (set_rxms (rxms st ++ head_memos todo)
       (set_rxgs (done ++ behead todo) st),
     Ret (map (fun kq => nonempty (tl (snd kq))) todo)).
Proof.
  induction todo as [|[k q] todo IH]; intros done st Hq Hn Hd.
  - simpl. unfold ret. rewrite ?app_nil_r in *.
    destruct st; simpl in *; subst. rewrite ?app_nil_r. reflexivity.
  - inversion Hd as [|? ? Hk Hd']; subst.
    assert (Hk' : heads_decode [(k, q)]) by (constructor; [exact Hk|constructor]).
    assert (Hnk : ~ In k (Dict.keys done)).
    { unfold Dict.keys in Hn. rewrite map_app in Hn. simpl in Hn.
      apply NoDup_remove_2 in Hn. intros Hin. apply Hn.
      apply in_or_app. left. exact Hin. }
    assert (Hnk' : Dict.get k (done ++ todo) = None).
    { apply StoreFacts.get_notin. unfold Dict.keys in *.
      rewrite map_app in *. simpl in Hn. apply NoDup_remove_2 in Hn.
      exact Hn. }
    cbn [Dict.keys map fst for_each].
    erewrite bind_ret_eq by (apply rx_pass_round; eassumption).
    fold (Dict.keys todo).
    erewrite bind_ret_eq.
    2:{ apply (IH (done ++ behead [(k, q)])).
        - cbn [rxgs set_rxms set_rxgs]. rewrite <- app_assoc. reflexivity.
        - unfold Dict.keys in *. rewrite !map_app in *. simpl in Hn.
          unfold behead. cbn [flat_map snd fst].
          destruct (tl q); cbn [map app fst].
          + rewrite app_nil_r. eapply NoDup_remove_1. exact Hn.
          + rewrite <- app_assoc. exact Hn.
        - exact Hd'. }
    unfold ret. f_equal.
    destruct st as [o rg rm tm tg tb t sn lg ld]. cbn.
    unfold head_memos, behead. cbn [flat_map snd fst].
    rewrite <- !app_assoc. reflexivity.
Qed.

Lemma rx_pass (st : MemoGram T) :
  NoDup (Dict.keys (rxgs st)) ->
  heads_decode (rxgs st) ->
  _serviceOnceRxGrams st =
    (set_rxms (rxms st ++ head_memos (rxgs st))
       (set_rxgs (behead (rxgs st)) st),
     Ret (more_pending (rxgs st))).
Proof.
  intros Hn Hd. unfold _serviceOnceRxGrams.
  unfold bind at 1, gets at 1.
  erewrite bind_ret_eq by (apply (@rx_pass_rounds (rxgs st) [] st);
                           [reflexivity | exact Hn | exact Hd]).
  unfold ret, more_pending. rewrite StoreFacts.existsb_id_map. reflexivity.
Qed.

(** X5: when the keys of the Gram Receive Store are distinct and the first
    gram of every source decodes, one reassembly pass takes exactly one
    gram from every source that has one and appends its memo to [.rxms], in
    the key order of the store; the sources left without a gram are removed,
    the others keep their places; the pass returns whether a source still
    has a gram.  A key found with an empty deque gives no memo and is
    removed. *)
Theorem X5_reassembly_pass_takes_one_gram_per_source (st : MemoGram T) :
  NoDup (Dict.keys (rxgs st)) ->
  heads_decode (rxgs st) ->
  let st' := fst (_serviceOnceRxGrams st) in
  snd (_serviceOnceRxGrams st) = Ret (more_pending (rxgs st)) /\
  rxms st' = rxms st ++ head_memos (rxgs st) /\
  rxgs st' = behead (rxgs st) /\
  (opened st', transport st', transmit_state st')
    = (opened st, transport st, transmit_state st).
Proof.
  intros Hn Hd. cbv zeta. rewrite (rx_pass st Hn Hd). repeat split.
Qed.

End ReassemblyPass.

Lemma X5_reassembly_pass_takes_one_gram_per_source_witness :
  let st := mkMemoGram false
              [("a"%string, [[x61]]); ("b"%string, [[x62]; [xff]]);
               ("c"%string, [])]
              [] [] [] ([], None) tt [] [] [] in
  snd (_serviceOnceRxGrams st) = Ret true /\
  rxms (fst (_serviceOnceRxGrams st))
    = [([97%N], "a"%string); ([98%N], "b"%string)] /\
  rxgs (fst (_serviceOnceRxGrams st)) = [("b"%string, [[xff]])].
Proof.
  cbv zeta.
  destruct (@X5_reassembly_pass_takes_one_gram_per_source unit
              (mkMemoGram false
                 [("a"%string, [[x61]]); ("b"%string, [[x62]; [xff]]);
                  ("c"%string, [])]
                 [] [] [] ([], None) tt [] [] []))
    as (H1 & H2 & H3 & _).
  - repeat constructor; simpl; intuition discriminate.
  - repeat constructor; discriminate.
  - exact (conj H1 (conj H2 H3)).
Defined.

(** ** Greedy reassembly *)

Module ReassemblyFacts.

Lemma keys_behead_incl d k : In k (Dict.keys (behead d)) -> In k (Dict.keys d).
Proof.
  induction d as [|[k0 q] d IH]; simpl; [tauto|].
  unfold behead in *. cbn [flat_map snd fst]. unfold Dict.keys in *.
  rewrite map_app. intros H. apply in_app_or in H. destruct H as [H|H].
  - destruct (tl q); simpl in H; tauto.
  - right. apply IH. exact H.
Qed.

Lemma NoDup_keys_behead d : NoDup (Dict.keys d) -> NoDup (Dict.keys (behead d)).
Proof.
  induction d as [|[k0 q] d IH]; simpl; intros H; [constructor|].
  inversion H as [|? ? Hn Hd]; subst.
  change (behead ((k0, q) :: d))
    with (match tl q with [] => [] | r => [(k0, r)] end ++ behead d).
  destruct (tl q); simpl; [apply IH; exact Hd|].
  constructor; [|apply IH; exact Hd].
  intros Hin. apply Hn. apply keys_behead_incl. exact Hin.
Qed.

Lemma all_decode_behead d : all_decode d -> all_decode (behead d).
Proof.
  unfold all_decode.
  induction d as [|[k0 q] d IH]; simpl; intros H; [constructor|].
  inversion H as [|? ? Hq Hd]; subst. cbn [snd] in Hq.
  change (behead ((k0, q) :: d))
    with (match tl q with [] => [] | r => [(k0, r)] end ++ behead d).
  destruct q as [|g [|g' r]]; simpl; try (apply IH; exact Hd).
  constructor; [|apply IH; exact Hd].
  cbn [snd]. inversion Hq; assumption.
Qed.

Lemma all_decode_heads d : all_decode d -> heads_decode d.
Proof.
  unfold all_decode, heads_decode. intros H.
  eapply Forall_impl; [|exact H]. intros [k q] Hq. cbn [snd] in *.
  destruct q; [exact I|]. inversion Hq; assumption.
Qed.

Lemma total_grams_behead d :
  heads_decode d ->
  (total_grams (behead d) + List.length (head_memos d) = total_grams d)%nat.
Proof.
  unfold total_grams, heads_decode.
  induction d as [|[k0 q] d IH]; simpl; intros H; [reflexivity|].
  inversion H as [|? ? Hq Hd]; subst. cbn [snd] in Hq.
  change (behead ((k0, q) :: d))
    with (match tl q with [] => [] | r => [(k0, r)] end ++ behead d).
  change (head_memos ((k0, q) :: d))
    with (match q with
          | g :: _ => match Utf8.decode g with
                      | Some m => [(m, k0)]
                      | None => []
                      end
          | [] => []
          end ++ head_memos d).
  specialize (IH Hd).
  destruct q as [|g r]; simpl; [exact IH|].
  destruct (Utf8.decode g); [|congruence].
  destruct r; simpl; rewrite ?length_app; simpl; lia.
Qed.

Lemma more_pending_progress d :
  more_pending d = true -> heads_decode d -> head_memos d <> [].
Proof.
  unfold more_pending, heads_decode.
  induction d as [|[k0 q] d IH]; simpl; intros H Hh; [discriminate|].
  inversion Hh as [|? ? Hq Hd]; subst. cbn [snd] in Hq.
  change (head_memos ((k0, q) :: d))
    with (match q with
          | g :: _ => match Utf8.decode g with
                      | Some m => [(m, k0)]
                      | None => []
                      end
          | [] => []
          end ++ head_memos d).
  destruct q as [|g r]; simpl in *.
  - apply IH; assumption.
  - destruct (Utf8.decode g); [discriminate | congruence].
Qed.

Lemma no_more_pending d : more_pending d = false -> behead d = [].
Proof.
  unfold more_pending.
  induction d as [|[k0 q] d IH]; simpl; intros H; [reflexivity|].
  apply orb_false_iff in H. destruct H as [Hq Hd]. cbn [snd] in Hq.
  change (behead ((k0, q) :: d))
    with (match tl q with [] => [] | r => [(k0, r)] end ++ behead d).
  rewrite (IH Hd). destruct (tl q); [reflexivity | discriminate].
Qed.

Lemma memos_of_app {A} peer (a b : list (A * addr)) :
  memos_of peer (a ++ b) = memos_of peer a ++ memos_of peer b.
Proof. unfold memos_of. rewrite filter_app, map_app. reflexivity. Qed.

Lemma memos_of_head_notin src d :
  ~ In src (Dict.keys d) -> memos_of src (head_memos d) = [].
Proof.
  induction d as [|[k0 q] d IH]; simpl; intros Hn; [reflexivity|].
  change (head_memos ((k0, q) :: d))
    with (match q with
          | g :: _ => match Utf8.decode g with
                      | Some m => [(m, k0)]
                      | None => []
                      end
          | [] => []
          end ++ head_memos d).
  rewrite memos_of_app, IH by tauto. rewrite app_nil_r.
  destruct q as [|g r]; [reflexivity|].
  destruct (Utf8.decode g); [|reflexivity].
  unfold memos_of. simpl.
  destruct (String.eqb_spec k0 src) as [->|_]; [tauto | reflexivity].
Qed.

Lemma deque_of_notin src d : ~ In src (Dict.keys d) -> deque_of src d = [].
Proof.
  intros Hn. unfold deque_of. rewrite StoreFacts.get_notin by exact Hn.
  reflexivity.
Qed.

(** The first memo of a source followed by the memos of what the pass
    leaves in its deque are the memos of its deque. *)
Lemma memos_of_pass src d :
  NoDup (Dict.keys d) -> heads_decode d ->
  memos_of src (head_memos d) ++ decoded (deque_of src (behead d))
    = decoded (deque_of src d).
Proof.
  unfold heads_decode.
  induction d as [|[k0 q] d IH]; simpl; intros Hn Hh; [reflexivity|].
  inversion Hn as [|? ? Hk Hd]; subst.
  inversion Hh as [|? ? Hq Hh']; subst. cbn [snd] in Hq.
  change (head_memos ((k0, q) :: d))
    with (match q with
          | g :: _ => match Utf8.decode g with
                      | Some m => [(m, k0)]
                      | None => []
                      end
          | [] => []
          end ++ head_memos d).
  change (behead ((k0, q) :: d))
    with (match tl q with [] => [] | r => [(k0, r)] end ++ behead d).
  rewrite memos_of_app.
  destruct (String.eqb_spec src k0) as [->|Hne].
  - assert (Hb : ~ In k0 (Dict.keys (behead d))).
    { intros Hin. apply Hk. apply keys_behead_incl. exact Hin. }
    rewrite memos_of_head_notin by exact Hk. rewrite app_nil_r.
    assert (E : deque_of k0
                  (match tl q with [] => [] | r => [(k0, r)] end ++ behead d)
                = tl q).
    { destruct (tl q) as [|g' r'].
      - simpl. apply deque_of_notin. exact Hb.
      - unfold deque_of. simpl. rewrite String.eqb_refl. reflexivity. }
    rewrite E. unfold deque_of at 1. simpl. rewrite String.eqb_refl.
    destruct q as [|g r]; [reflexivity|].
    simpl. destruct (Utf8.decode g); [|congruence].
    unfold memos_of. simpl. rewrite String.eqb_refl. reflexivity.
  - assert (E1 : memos_of src
                   (match q with
                    | g :: _ => match Utf8.decode g with
                                | Some m => [(m, k0)]
                                | None => []
                                end
                    | [] => []
                    end) = []).
    { destruct q as [|g r]; [reflexivity|].
      destruct (Utf8.decode g); [|reflexivity].
      unfold memos_of. simpl.
      destruct (String.eqb_spec k0 src); [congruence | reflexivity]. }
    assert (E2 : deque_of src
                   (match tl q with [] => [] | r => [(k0, r)] end ++ behead d)
                 = deque_of src (behead d)).
    { destruct (tl q); [reflexivity|]. unfold deque_of. simpl.
      destruct (String.eqb_spec src k0); [congruence | reflexivity]. }
    assert (E3 : deque_of src ((k0, q) :: d) = deque_of src d).
    { unfold deque_of. simpl.
      destruct (String.eqb_spec src k0); [congruence | reflexivity]. }
    rewrite E1, E2, E3. simpl. apply IH; assumption.
Qed.

End ReassemblyFacts.

Section GreedyReassembly.

Context {T : Type}.

Lemma serviceRxGrams_drains fuel :
  forall st : MemoGram T,
    NoDup (Dict.keys (rxgs st)) ->
    all_decode (rxgs st) ->
    (total_grams (rxgs st) < fuel)%nat ->
    let st' := fst (serviceRxGrams fuel st) in
    snd (serviceRxGrams fuel st) = Ret tt /\
    rxgs st' = [] /\
    (forall src,
        memos_of src (rxms st')
          = memos_of src (rxms st) ++ decoded (deque_of src (rxgs st))) /\
    List.length (rxms st')
      = (List.length (rxms st) + total_grams (rxgs st))%nat /\
    (opened st', transport st', transmit_state st')
      = (opened st, transport st, transmit_state st).
Proof.
  induction fuel as [|fuel IH]; intros st Hn Ha Hf; [lia|].
  cbv zeta. unfold serviceRxGrams. rewrite while_unfold.
  destruct (nonempty (rxgs st)) eqn:Ene.
  - pose proof (ReassemblyFacts.all_decode_heads Ha) as Hh.
    erewrite bind_ret_eq by (apply rx_pass; assumption).
    pose proof (ReassemblyFacts.total_grams_behead Hh) as Ht.
    destruct (more_pending (rxgs st)) eqn:Emp.
    + pose proof (@ReassemblyFacts.more_pending_progress _ Emp Hh) as Hp.
      assert (Hlen : (0 < List.length (head_memos (rxgs st)))%nat).
      { destruct (head_memos (rxgs st)); [congruence | simpl; lia]. }
      fold (@serviceRxGrams T fuel).
      destruct (IH (set_rxms (rxms st ++ head_memos (rxgs st))
                      (set_rxgs (behead (rxgs st)) st)))
        as (R1 & R2 & R3 & R4 & R5).
      * destruct st; cbn. apply ReassemblyFacts.NoDup_keys_behead. exact Hn.
      * destruct st; cbn. apply ReassemblyFacts.all_decode_behead. exact Ha.
      * destruct st; cbn in *. lia.
      * cbv zeta in *. repeat split.
        -- exact R1.
        -- exact R2.
        -- intros src. rewrite R3.
           replace (rxms (set_rxms (rxms st ++ head_memos (rxgs st))
                            (set_rxgs (behead (rxgs st)) st)))
             with (rxms st ++ head_memos (rxgs st)) by (destruct st; reflexivity).
           replace (rxgs (set_rxms (rxms st ++ head_memos (rxgs st))
                            (set_rxgs (behead (rxgs st)) st)))
             with (behead (rxgs st)) by (destruct st; reflexivity).
           rewrite ReassemblyFacts.memos_of_app, <- app_assoc.
           rewrite ReassemblyFacts.memos_of_pass by assumption. reflexivity.
        -- rewrite R4. destruct st; cbn in *. rewrite length_app. lia.
        -- rewrite R5. destruct st; reflexivity.
    + pose proof (@ReassemblyFacts.no_more_pending _ Emp) as Hb.
      unfold ret. cbn [fst snd]. repeat split.
      * destruct st; cbn in *. exact Hb.
      * intros src.
        replace (rxms (set_rxms (rxms st ++ head_memos (rxgs st))
                         (set_rxgs (behead (rxgs st)) st)))
          with (rxms st ++ head_memos (rxgs st)) by (destruct st; reflexivity).
        rewrite ReassemblyFacts.memos_of_app.
        rewrite <- (@ReassemblyFacts.memos_of_pass src _ Hn Hh).
        rewrite Hb. unfold deque_of. simpl. rewrite app_nil_r. reflexivity.
      * rewrite Hb in Ht. change (total_grams []) with 0%nat in Ht.
        destruct st; simpl in *. rewrite length_app. lia.
  - cbn [fst snd]. destruct st as [o rg rm tm tg tb t sn lg ld]. cbn in *.
    destruct rg; [|discriminate]. repeat split.
    + intros src. unfold deque_of. simpl. rewrite app_nil_r. reflexivity.
    + unfold total_grams. simpl. lia.
Qed.

(** X6: when the keys of the Gram Receive Store are distinct and every gram
    in it decodes, the greedy reassembly service returns and leaves the
    store empty: every gram has become one memo in [.rxms], and the memos
    of each source follow the memos it already had there, in the order of
    its grams.  Nothing else of the object changes. *)
Theorem X6_greedy_reassembly_drains_the_store
  (fuel : nat) (st : MemoGram T) :
  NoDup (Dict.keys (rxgs st)) ->
  all_decode (rxgs st) ->
  (total_grams (rxgs st) < fuel)%nat ->
  let st' := fst (serviceRxGrams fuel st) in
  snd (serviceRxGrams fuel st) = Ret tt /\
  rxgs st' = [] /\
  (forall src,
      memos_of src (rxms st')
        = memos_of src (rxms st) ++ decoded (deque_of src (rxgs st))) /\
  List.length (rxms st')
    = (List.length (rxms st) + total_grams (rxgs st))%nat /\
  (opened st', transport st', transmit_state st')
    = (opened st, transport st, transmit_state st).
Proof. apply serviceRxGrams_drains. Qed.

End GreedyReassembly.

Lemma X6_greedy_reassembly_drains_the_store_witness :
  let st := mkMemoGram false
              [("a"%string, [[x61]; [x62]]); ("b"%string, [[x63]])]
              [([100%N], "a"%string)] [] [] ([], None) tt [] [] [] in
  snd (serviceRxGrams 4 st) = Ret tt /\
  rxgs (fst (serviceRxGrams 4 st)) = [] /\
  memos_of "a"%string (rxms (fst (serviceRxGrams 4 st)))
    = [[100%N]; [97%N]; [98%N]] /\
  List.length (rxms (fst (serviceRxGrams 4 st))) = 4%nat.
Proof.
  cbv zeta.
  destruct (@X6_greedy_reassembly_drains_the_store unit 4
              (mkMemoGram false
                 [("a"%string, [[x61]; [x62]]); ("b"%string, [[x63]])]
                 [([100%N], "a"%string)] [] [] ([], None) tt [] [] []))
    as (H1 & H2 & H3 & H4 & _).
  - repeat constructor; simpl; intuition discriminate.
  - repeat constructor; discriminate.
  - vm_compute. lia.
  - exact (conj H1 (conj H2 (conj (H3 "a"%string) H4))).
Defined.

(** ** The order of service among sources *)

Section Fairness.

Context {T : Type} {tr : Transport T}.

Lemma keys_behead (d : Dict.t (list bytes)) :
  NoDup (Dict.keys d) ->
  Dict.keys (behead d)
    = filter (fun k => (1 <? List.length (deque_of k d))%nat) (Dict.keys d).
Proof.
  induction d as [|[k0 q] d IH]; simpl; intros Hn; [reflexivity|].
  inversion Hn as [|? ? Hk Hd]; subst.
  change (behead ((k0, q) :: d))
    with (match tl q with [] => [] | r => [(k0, r)] end ++ behead d).
  unfold Dict.keys in *. rewrite map_app, (IH Hd).
  assert (E : filter (fun k => (1 <? List.length (deque_of k ((k0, q) :: d)))%nat)
                (map fst d)
              = filter (fun k => (1 <? List.length (deque_of k d))%nat)
                  (map fst d)).
  { apply filter_ext_in. intros k Hin. unfold deque_of. simpl.
    destruct (String.eqb_spec k k0) as [->|_]; [tauto | reflexivity]. }
  assert (E0 : deque_of k0 ((k0, q) :: d) = q).
  { unfold deque_of. simpl. rewrite String.eqb_refl. reflexivity. }
  cbn [map fst filter]. rewrite E, E0.
  destruct q as [|g [|g' r]]; reflexivity.
Qed.

(** X7: a source whose deque a reassembly pass empties is removed from the
    Gram Receive Store, so that the next gram received from it is keyed
    last.  When the keys of [.rxgs] are distinct, the first gram of every
    source decodes, the source [src] has at most one gram there (or is no
    key), and [receive] then answers a non-empty gram from [src]: after the
    pass and the receipt, the sources that had more than one gram come
    first, in their former order, and [src] comes after them, with the new
    gram alone in its deque. *)
Theorem X7_drained_source_is_keyed_last
  (st : MemoGram T) t' (g : bytes) (src : addr) :
  NoDup (Dict.keys (rxgs st)) ->
  heads_decode (rxgs st) ->
  (List.length (deque_of src (rxgs st)) <= 1)%nat ->
  receive (transport st) None = (t', Done (Some (g, src))) ->
  g <> [] ->
  let st' := fst ((_serviceOnceRxGrams ;; _serviceOneReceived None) st) in
  Dict.keys (rxgs st')
    = filter (fun k => (1 <? List.length (deque_of k (rxgs st)))%nat)
        (Dict.keys (rxgs st)) ++ [src] /\
  Dict.get src (rxgs st') = Some [g].
Proof.
  intros Hn Hh Hl Hr Hg. cbv zeta.
  erewrite bind_ret_eq by (apply rx_pass; assumption).
  rewrite oneReceived_step.
  assert (Hnot : Dict.get src (behead (rxgs st)) = None).
  { apply StoreFacts.get_notin. rewrite keys_behead by exact Hn.
    intros Hin. apply filter_In in Hin. destruct Hin as [_ Hin].
    apply Nat.ltb_lt in Hin. lia. }
  rewrite <- (@keys_behead _ Hn).
  destruct st as [o rg rm tm tg tb t sn lg ld]. simpl in Hr, Hnot |- *.
  rewrite Hr. simpl.
  destruct g as [|x g]; [congruence|]. simpl.
  unfold enqueue. simpl. rewrite Hnot. simpl. split.
  - apply DictFacts.keys_set_absent. exact Hnot.
  - apply DictFacts.get_set_same.
Qed.

End Fairness.

Lemma X7_drained_source_is_keyed_last_witness :
  let st := mkMemoGram true
              [("a"%string, [[x61]]); ("b"%string, [[x62]; [x63]])]
              [] [] [] ([], None) (mkSim [([x64], "a"%string)] [])
              [] [] [] in
  Dict.keys (rxgs (fst ((_serviceOnceRxGrams ;; _serviceOneReceived None) st)))
    = ["b"%string; "a"%string].
Proof.
  cbv zeta.
  destruct (@X7_drained_source_is_keyed_last Sim sim_transport
              (mkMemoGram true
                 [("a"%string, [[x61]]); ("b"%string, [[x62]; [x63]])]
                 [] [] [] ([], None) (mkSim [([x64], "a"%string)] [])
                 [] [] [])
              (mkSim [] []) [x64] "a"%string)
    as (H1 & _).
  - repeat constructor; simpl; intuition discriminate.
  - repeat constructor; discriminate.
  - vm_compute. lia.
  - reflexivity.
  - discriminate.
  - exact H1.
Defined.

(** ** What each side of the stack leaves alone *)

Section Frames.

Context {T : Type} {tr : Transport T}.

Variable P : MemoGram T -> Prop.

Section TransmitFrame.

Hypothesis P_txms : forall st v, P st -> P (set_txms v st).
Hypothesis P_txgs : forall st v, P st -> P (set_txgs v st).
Hypothesis P_txbs : forall st v, P st -> P (set_txbs v st).
Hypothesis P_transport : forall st v, P st -> P (set_transport v st).
Hypothesis P_sent : forall st v, P st -> P (set_sent v st).
Hypothesis P_logged : forall st v, P st -> P (set_logged v st).
Hypothesis P_loaded : forall st v, P st -> P (set_loaded v st).

Lemma transmit_pass_frame : preserves P _serviceOnceTxGrams.
Proof.
  unfold _serviceOnceTxGrams.
  apply preserves_bind; [apply preserves_gets|]. intros [gram dst].
  apply preserves_bind.
  - destruct dst as [d|]; [apply preserves_ret|].
    apply preserves_try; [|apply preserves_ret].
    apply preserves_bind; [apply preserves_on_txgs; exact P_txgs|].
    intros [g d].
    apply preserves_bind; [apply preserves_lift|]. intros b.
    apply preserves_bind; [|intros; apply preserves_ret].
    intros s H. apply P_loaded. exact H.
  - intros [[g d]|]; [|apply preserves_ret].
    apply preserves_bind.
    + intros s H. unfold call_send.
      destruct (send (transport s) g d) as [t' r]. cbn [fst].
      apply P_sent, P_transport. exact H.
    + intros r. apply preserves_bind.
      * destruct r as [n|e]; [apply preserves_ret|].
        destruct (peer_unreachable e); [|intros s H; exact H].
        apply preserves_bind; [intros s H; apply P_logged; exact H|].
        intros _. apply preserves_bind; [|intros; apply preserves_ret].
        intros s H. apply P_txbs. exact H.
      * intros [n|]; [|intros s H; exact H].
        apply preserves_bind; [|intros; apply preserves_ret].
        intros s H. apply P_txbs. exact H.
Qed.

Lemma transmit_frame fuel o :
  transmit_side o = true -> preserves P (run fuel o).
Proof.
  pose proof transmit_pass_frame as Hp.
  pose proof (preserves_OneTxMemo P P_txms P_txgs) as Hm.
  assert (Hm1 : preserves P serviceTxMemosOnce)
    by (apply preserves_try; [exact Hm | apply preserves_ret]).
  assert (Hms : preserves P (serviceTxMemos fuel)).
  { apply preserves_while, preserves_bind; [exact Hm|].
    intros; apply preserves_ret. }
  assert (Hg1 : preserves P serviceTxGramsOnce).
  { apply preserves_bind; [apply preserves_gets|].
    intros [|]; [|apply preserves_ret].
    apply preserves_bind; [exact Hp | intros; apply preserves_ret]. }
  assert (Hgs : preserves P (serviceTxGrams fuel))
    by (apply preserves_while; exact Hp).
  destruct o; try discriminate; intros _; cbn [run].
  - apply preserves_on_txms. exact P_txms.
  - apply preserves_on_txgs. exact P_txgs.
  - exact Hm.
  - exact Hm1.
  - exact Hms.
  - apply preserves_forget. exact Hp.
  - exact Hg1.
  - exact Hgs.
  - apply preserves_bind; [exact Hm1 | intros; exact Hg1].
  - apply preserves_bind; [exact Hms | intros; exact Hgs].
Qed.

End TransmitFrame.

Section ReceiveFrame.

Hypothesis P_rxgs : forall st v, P st -> P (set_rxgs v st).
Hypothesis P_rxms : forall st v, P st -> P (set_rxms v st).
Hypothesis P_transport : forall st v, P st -> P (set_transport v st).

Lemma receive_frame fuel o :
  receive_side o = true -> preserves P (run fuel o).
Proof.
  pose proof (preserves_OneReceived P P_rxgs P_transport) as H1.
  pose proof (preserves_Receives P P_rxgs P_transport) as Hr.
  pose proof (preserves_OnceRxGrams P P_rxgs P_rxms) as Hg.
  assert (Hr1 : forall echo, preserves P (serviceReceivesOnce echo)).
  { intros echo. apply preserves_bind; [apply preserves_gets|].
    intros [|]; [|apply preserves_ret].
    apply preserves_bind; [apply H1 | intros; apply preserves_ret]. }
  assert (Hg1 : preserves P serviceRxGramsOnce).
  { apply preserves_bind; [apply preserves_gets|].
    intros [|]; [|apply preserves_ret].
    apply preserves_bind; [exact Hg | intros; apply preserves_ret]. }
  assert (Hgs : preserves P (serviceRxGrams fuel))
    by (apply preserves_while; exact Hg).
  assert (Hm : preserves P _serviceOneRxMemo)
    by (apply preserves_on_rxms; exact P_rxms).
  assert (Hm1 : preserves P serviceRxMemosOnce).
  { apply preserves_try; [|apply preserves_ret].
    apply preserves_bind; [exact Hm | intros; apply preserves_ret]. }
  assert (Hms : preserves P (serviceRxMemos fuel)).
  { apply preserves_while, preserves_bind; [exact Hm|].
    intros; apply preserves_ret. }
  destruct o; try discriminate; intros _; cbn [run].
  - apply preserves_forget, H1.
  - apply Hr1.
  - apply Hr.
  - apply preserves_forget, Hg.
  - exact Hg1.
  - exact Hgs.
  - apply preserves_forget, Hm.
  - exact Hm1.
  - exact Hms.
  - apply preserves_bind; [apply Hr1|]. intros _.
    apply preserves_bind; [exact Hg1 | intros; exact Hm1].
  - apply preserves_bind; [apply Hr|]. intros _.
    apply preserves_bind; [exact Hgs | intros; exact Hms].
Qed.

End ReceiveFrame.

End Frames.

Section SidesApart.

Context {T : Type} {tr : Transport T}.

(** X8: the two sides of the stack work on disjoint containers.  A call of
    the transmit side ([memoit], [gramit] and the transmit services),
    however it ends, leaves [.rxgs], [.rxms] and the [opened] flag as they
    were; a call of the receive side, however it ends, leaves [.txms],
    [.txgs], [.txbs] and the record of what was sent as they were, and the
    [opened] flag too. *)
Theorem X8_each_side_leaves_the_other_alone fuel o (st : MemoGram T) :
  (transmit_side o = true ->
   receive_state (fst (run fuel o st)) = receive_state st /\
   opened (fst (run fuel o st)) = opened st) /\
  (receive_side o = true ->
   transmit_state (fst (run fuel o st)) = transmit_state st /\
   opened (fst (run fuel o st)) = opened st).
Proof.
  split; intros Ho.
  - assert (H : receive_state (fst (run fuel o st)) = receive_state st /\
                opened (fst (run fuel o st)) = opened st).
    { apply (@transmit_frame T tr
               (fun s => receive_state s = receive_state st /\
                         opened s = opened st));
        try (intros [] v Hs; exact Hs); auto. }
    exact H.
  - apply (@receive_frame T tr
             (fun s => transmit_state s = transmit_state st /\
                       opened s = opened st));
      try (intros [] v Hs; exact Hs); auto.
Qed.

End SidesApart.

Lemma X8_each_side_leaves_the_other_alone_witness :
  let st := fst (open (init (queued [[x61]] "a"%string))) in
  receive_state (fst (run 3 (Memoit (PStr [97%N]) "x"%string) st))
    = receive_state st /\
  transmit_state (fst (run 3 AllRx st)) = transmit_state st.
Proof.
  cbv zeta.
  destruct (@X8_each_side_leaves_the_other_alone Sim sim_transport 3
              (Memoit (PStr [97%N]) "x"%string)
              (fst (open (init (queued [[x61]] "a"%string)))))
    as [H1 _].
  destruct (@X8_each_side_leaves_the_other_alone Sim sim_transport 3 AllRx
              (fst (open (init (queued [[x61]] "a"%string)))))
    as [_ H2].
  exact (conj (proj1 (H1 eq_refl)) (proj1 (H2 eq_refl))).
Defined.

(** ** The store invariant on every run without a decode error *)

Section StoreOnAllRuns.

Context {T : Type} {tr : Transport T}.

Lemma run_keeps_store fuel o :
  preserves_unless (T:=T) UnicodeDecodeError store_inv (run fuel o).
Proof.
  assert (Hret : forall A (a : A),
             preserves_unless (T:=T) UnicodeDecodeError store_inv
               (ret (S:=MemoGram T) a))
    by (intros A a s Hs _; exact Hs).
  assert (Hgets : forall A (f : MemoGram T -> A),
             preserves_unless (T:=T) UnicodeDecodeError store_inv (gets f))
    by (intros A f s Hs _; exact Hs).
  assert (Hforget : forall A (m : M (MemoGram T) A),
             preserves_unless (T:=T) UnicodeDecodeError store_inv m ->
             preserves_unless (T:=T) UnicodeDecodeError store_inv (forget m)).
  { intros A m Hm. apply preserves_unless_bind; [exact Hm|].
    intros; apply Hret. }
  assert (Htx : forall o', transmit_side o' = true ->
             preserves_unless (T:=T) UnicodeDecodeError store_inv
               (run fuel o')).
  { intros o' Ho'. apply preserves_weaken.
    apply transmit_frame; try exact Ho'; intros [] v Hs; exact Hs. }
  assert (Hlife : forall A (m : M (MemoGram T) A),
             preserves (T:=T) store_inv m ->
             preserves_unless (T:=T) UnicodeDecodeError store_inv m)
    by (intros; apply preserves_weaken; assumption).
  assert (Hone : forall echo,
             preserves_unless (T:=T) UnicodeDecodeError store_inv
               (_serviceOneReceived echo))
    by (intros; apply preserves_weaken, OneReceived_keeps_store).
  assert (Hrc1 : forall echo,
             preserves_unless (T:=T) UnicodeDecodeError store_inv
               (serviceReceivesOnce echo)).
  { intros echo. apply preserves_unless_bind; [apply Hgets|].
    intros [|]; [apply Hforget, Hone | apply Hret]. }
  assert (Hrc : forall n echo,
             preserves_unless (T:=T) UnicodeDecodeError store_inv
               (serviceReceives n echo)).
  { induction n as [|n IHn]; intros echo; simpl;
      (apply preserves_unless_bind; [apply Hgets|]);
      intros [|]; try apply Hret; try (intros s Hs _; exact Hs).
    apply preserves_unless_bind; [apply Hone|].
    intros [|]; simpl; [apply IHn | apply Hret]. }
  assert (Hg1 : preserves_unless (T:=T) UnicodeDecodeError store_inv
                  serviceRxGramsOnce).
  { apply preserves_unless_bind; [apply Hgets|].
    intros [|]; [apply Hforget, OnceRxGrams_keeps_store | apply Hret]. }
  assert (Hg : preserves_unless (T:=T) UnicodeDecodeError store_inv
                 (serviceRxGrams fuel))
    by apply preserves_unless_while, OnceRxGrams_keeps_store.
  assert (Hrm : preserves (T:=T) store_inv _serviceOneRxMemo)
    by (apply preserves_on_rxms; intros [] v Hs; exact Hs).
  assert (Hm1 : preserves_unless (T:=T) UnicodeDecodeError store_inv
                  serviceRxMemosOnce).
  { apply preserves_weaken, preserves_try; [|intros s Hs; exact Hs].
    apply preserves_forget, Hrm. }
  assert (Hm : preserves_unless (T:=T) UnicodeDecodeError store_inv
                 (serviceRxMemos fuel)).
  { apply preserves_weaken, preserves_while, preserves_bind; [apply Hrm|].
    intros a s Hs; exact Hs. }
  assert (Hrx1 : preserves_unless (T:=T) UnicodeDecodeError store_inv
                   serviceAllRxOnce).
  { apply preserves_unless_bind; [apply Hrc1|].
    intros _. apply preserves_unless_bind; [exact Hg1|]. intros _. exact Hm1. }
  assert (Hrx : preserves_unless (T:=T) UnicodeDecodeError store_inv
                  (serviceAllRx fuel)).
  { apply preserves_unless_bind; [apply Hrc|].
    intros _. apply preserves_unless_bind; [exact Hg|]. intros _. exact Hm. }
  destruct o; try (apply Htx; reflexivity); cbn [run].
  - apply Hlife, preserves_forget, preserves_open. intros [] v Hs; exact Hs.
  - apply Hlife, preserves_close. intros [] v Hs; exact Hs.
  - apply Hlife, preserves_forget, preserves_bind;
      [apply preserves_close | intros; apply preserves_open];
      intros [] v Hs; exact Hs.
  - apply Hforget, Hone.
  - apply Hrc1.
  - apply Hrc.
  - apply Hforget, OnceRxGrams_keeps_store.
  - exact Hg1.
  - exact Hg.
  - apply Hlife, preserves_forget, Hrm.
  - exact Hm1.
  - exact Hm.
  - exact Hrx1.
  - exact Hrx.
  - apply preserves_unless_bind; [apply Hrc|]. intros _.
    apply (Htx TxGrams). reflexivity.
  - apply preserves_unless_bind; [exact Hrx1|]. intros _.
    apply (Htx AllTxOnce). reflexivity.
  - apply preserves_unless_bind; [exact Hrx|]. intros _.
    apply (Htx AllTx). reflexivity.
Qed.

(** X9: the invariant the code comments state for the Gram Receive Store
    holds on every run, of any calls of the class, in which no call ends in
    a decode error: the keys of [.rxgs] are distinct, and a source is a key
    exactly when its deque there is not empty. *)
Theorem X9_store_invariant_without_decode_error (t0 : T) (st : MemoGram T) :
  reachable_decoding t0 st -> keyed_iff_pending st.
Proof.
  intros Hr. apply store_inv_keyed.
  induction Hr as [|st fuel o Hr IH Hd]; [exact DictFacts.store_ok_nil|].
  apply run_keeps_store; assumption.
Qed.

End StoreOnAllRuns.

Lemma X9_store_invariant_without_decode_error_witness :
  let t0 := queued [[x61]; [x62]] "a"%string in
  let st := fst (run 5 Local (fst (run 5 (Gramit (PStr [99%N]) "x"%string)
                                     (fst (run 5 Open (init t0)))))) in
  rxgs st = [("a"%string, [[x61]; [x62]])] /\ keyed_iff_pending st.
Proof.
  cbv zeta. split; [reflexivity|].
  apply (@X9_store_invariant_without_decode_error Sim sim_transport
           (queued [[x61]; [x62]] "a"%string)).
  apply rd_step; [|discriminate].
  apply rd_step; [|discriminate].
  apply rd_step; [|discriminate].
  apply rd_init.
Defined.

(** ** The greedy transmit service ends *)

Section TransmitEnds.

Context {T : Type} {tr : Transport T}.

Lemma truthy_addressed d : d <> EmptyString -> truthy (Some d) = true.
Proof.
  intros H. unfold truthy. destruct (String.eqb_spec d EmptyString);
    [congruence | reflexivity].
Qed.

(** One pass never runs out of fuel, sends at most once, and when it
    answers [True] it has used up one of the pending sends. *)
Lemma pass_uses_a_send (st : MemoGram T) :
  addressed st ->
  let r := _serviceOnceTxGrams st in
  snd r <> OutOfFuel /\
  opened (fst r) = opened st /\
  (List.length (sent (fst r)) <= List.length (sent st) + 1)%nat /\
  (snd r = Ret true ->
   addressed (fst r) /\ (pending_sends (fst r) < pending_sends st)%nat).
Proof.
  intros [Hq Hb]. cbv zeta.
  destruct (next_send st) as [[gram dst]|] eqn:En.
  - rewrite (pass_send_step st En).
    assert (Hd : dst <> EmptyString).
    { unfold next_send in En.
      destruct st as [o rg rm tm tg [b [d|]] t sn lg ld]; simpl in *.
      - injection En as <- <-. apply (Hb b d). reflexivity.
      - destruct tg as [|[g d'] q]; [discriminate|].
        destruct (encode g); try discriminate. injection En as <- <-.
        inversion Hq; assumption. }
    assert (Hq' : Forall (fun gd : pyval * addr => snd gd <> EmptyString)
                    (tl (txgs st))).
    { destruct (txgs st); [constructor | inversion Hq; assumption]. }
    assert (Hlen : txgs st <> [] \/ exists b d, txbs st = (b, Some d)).
    { unfold next_send in En. destruct (txbs st) as [b [d|]].
      - right. exists b, d. reflexivity.
      - left. destruct (txgs st); [discriminate | congruence]. }
    destruct (send (transport st) gram dst) as [t' [n|e]].
    + cbv zeta. cbn [fst snd].
      destruct (nonempty (del_prefix gram n)) eqn:Ene; cbn [negb]; cbv iota.
      * unfold truthy.
        destruct (String.eqb_spec dst EmptyString) as [->|_]; [congruence|].
        cbn [negb]; cbv iota.
        destruct st as [o rg rm tm tg [b [d|]] t sn lg ld]; simpl;
          rewrite ?length_app; simpl;
          repeat split; try discriminate; try lia.
      * destruct st as [o rg rm tm tg [b [d|]] t sn lg ld]; simpl in *;
          rewrite ?length_app; simpl;
          repeat split; try discriminate; try lia; try assumption.
        -- unfold pending_sends. simpl. lia.
        -- unfold pending_sends. simpl.
           destruct Hlen as [Hne|(b' & d' & [=])].
           destruct tg; [congruence | simpl; lia].
    + destruct (peer_unreachable e);
        destruct st as [o rg rm tm tg [b [d|]] t sn lg ld]; simpl;
        rewrite ?length_app; simpl;
        repeat split; try discriminate; try lia.
  - unfold next_send in En.
    destruct st as [o rg rm tm tg [b [d|]] t sn lg ld]; simpl in *;
      [discriminate|].
    destruct tg as [|[g d'] q].
    + unfold _serviceOnceTxGrams, bind, gets, try_except, on_txgs; simpl.
      repeat split; try discriminate; lia.
    + destruct g as [s|bs].
      * unfold encode in En.
        destruct (Utf8.encode s) as [b'|] eqn:Ee; [discriminate|].
        unfold _serviceOnceTxGrams, bind, gets, try_except, on_txgs, lift,
          encode; simpl. rewrite Ee. simpl.
        repeat split; try discriminate; lia.
      * unfold _serviceOnceTxGrams, bind, gets, try_except, on_txgs, lift,
          encode; simpl.
        repeat split; try discriminate; lia.
Qed.

Lemma serviceTxGrams_ends fuel :
  forall st : MemoGram T,
    addressed st ->
    (pending_sends st <= fuel)%nat ->
    snd (serviceTxGrams fuel st) <> OutOfFuel /\
    (List.length (sent (fst (serviceTxGrams fuel st)))
     <= List.length (sent st) + pending_sends st)%nat.
Proof.
  unfold serviceTxGrams.
  induction fuel as [|fuel IH]; intros st Ha Hf.
  - assert (E : tx_ready st = false).
    { unfold tx_ready, pending_sends in *.
      destruct (txgs st); [apply andb_false_r | simpl in Hf; lia]. }
    rewrite while_done by exact E. cbn [fst snd].
    split; [discriminate | lia].
  - rewrite while_unfold. destruct (tx_ready st) eqn:E.
    + pose proof (pass_uses_a_send Ha) as Hpass. cbv zeta in Hpass.
      assert (Hpos : (0 < pending_sends st)%nat).
      { unfold tx_ready, pending_sends in *.
        destruct (txgs st); [rewrite andb_false_r in E; discriminate|].
        simpl. lia. }
      unfold bind. revert Hpass.
      destruct (_serviceOnceTxGrams st) as [st' [[|]|e|]] eqn:Ep;
        cbn [fst snd] in *; intros (H1 & H2 & H3 & H4).
      * destruct (H4 eq_refl) as [Ha' Hm].
        destruct (IH st' Ha') as [R1 R2]; [lia|].
        split; [exact R1 | lia].
      * unfold ret. cbn [fst snd]. split; [discriminate | lia].
      * split; [discriminate | lia].
      * congruence.
    + cbn [fst snd]. split; [discriminate | lia].
Qed.

(** X10: over any transport, when every gram waiting to be sent has a
    destination other than the empty string, the greedy transmit service
    ends, by returning or by raising, and it calls [.send] at most once
    for each queued gram and once for a buffered remainder. *)
Theorem X10_greedy_transmit_ends (fuel : nat) (st : MemoGram T) :
  addressed st ->
  (List.length (txgs st) < fuel)%nat ->
  snd (serviceTxGrams fuel st) <> OutOfFuel /\
  (List.length (sent (fst (serviceTxGrams fuel st)))
   <= List.length (sent st) + List.length (txgs st) + 1)%nat.
Proof.
  intros Ha Hf.
  assert (Hp : (pending_sends st <= List.length (txgs st) + 1)%nat).
  { unfold pending_sends. destruct (snd (txbs st)); lia. }
  destruct (@serviceTxGrams_ends fuel st Ha) as [H1 H2]; [lia|].
  split; [exact H1 | lia].
Qed.

End TransmitEnds.

Lemma X10_greedy_transmit_ends_witness :
  let st := set_txgs [(PStr [97%N], "x"%string); (PStr [98%N], "y"%string)]
              (fst (open (init (mkSim [] [Done 0%Z])))) in
  snd (serviceTxGrams 3 st) <> OutOfFuel /\
  (List.length (sent (fst (serviceTxGrams 3 st))) <= 3)%nat.
Proof.
  cbv zeta.
  apply (@X10_greedy_transmit_ends Sim sim_transport 3
           (set_txgs [(PStr [97%N], "x"%string); (PStr [98%N], "y"%string)]
              (fst (open (init (mkSim [] [Done 0%Z])))))).
  - split.
    + repeat constructor; discriminate.
    + intros rem d [=].
  - simpl. lia.
Defined.

(** ** A destination that is the empty string *)

Section EmptyDestination.

Context {T : Type} {tr : Transport T}.

Hypothesis send_none : forall t b d, snd (send t b d) = Done 0%Z.

Lemma del_prefix_none {A} (l : list A) : del_prefix l 0 = l.
Proof. unfold del_prefix, slice_stop. simpl. reflexivity. Qed.

(** A pass that finds a remainder for the empty string, and sends nothing
    of it, leaves it there and answers [True]. *)
Lemma pass_on_unaddressed (st : MemoGram T) x b :
  txbs st = (x :: b, Some EmptyString) ->
  exists st',
    _serviceOnceTxGrams st = (st', Ret true) /\
    txbs st' = txbs st /\ txgs st' = txgs st /\ opened st' = opened st.
Proof.
  intros Hb.
  assert (En : next_send st = Some (x :: b, EmptyString))
    by (unfold next_send; rewrite Hb; reflexivity).
  rewrite (pass_send_step st En).
  pose proof (send_none (transport st) (x :: b) EmptyString) as Hs.
  destruct (send (transport st) (x :: b) EmptyString) as [t' r].
  cbn [snd] in Hs. subst r. cbv zeta. rewrite del_prefix_none.
  cbn [nonempty negb truthy String.eqb].
  eexists. split; [reflexivity|].
  destruct st as [o rg rm tm tg tb t sn lg ld]. simpl in *. subst tb.
  repeat split.
Qed.

Lemma unaddressed_loop fuel :
  forall (st : MemoGram T) x b,
    opened st = true ->
    txgs st <> [] ->
    txbs st = (x :: b, Some EmptyString) ->
    snd (serviceTxGrams fuel st) = OutOfFuel.
Proof.
  unfold serviceTxGrams.
  induction fuel as [|fuel IH]; intros st x b Ho Hq Hb.
  - simpl. unfold tx_ready. rewrite Ho.
    destruct (txgs st); [congruence | reflexivity].
  - rewrite while_unfold. unfold tx_ready at 1. rewrite Ho.
    destruct (txgs st) as [|gd q] eqn:Eq; [congruence|]. cbn [andb nonempty].
    destruct (pass_on_unaddressed st Hb) as (st' & Hp & H1 & H2 & H3).
    erewrite bind_ret_eq by exact Hp.
    apply (IH st' x b); [congruence | rewrite H2, Eq; discriminate | congruence].
Qed.

(** X11: a gram queued for the empty string as its destination blocks the
    greedy transmit service for good when the socket takes none of its
    octets: the pass keeps the whole gram in the Transmit Buffer and still
    answers [True], so that the service goes on calling it for as long as
    another gram is queued. *)
Theorem X11_empty_destination_never_ends
  (fuel : nat) (st : MemoGram T) g b rest :
  opened st = true ->
  idle st ->
  txgs st = (g, EmptyString) :: rest ->
  rest <> [] ->
  encode g = Ret b ->
  b <> [] ->
  snd (serviceTxGrams fuel st) = OutOfFuel.
Proof.
  intros Ho Hi Hq Hr He Hb.
  destruct fuel as [|fuel].
  - unfold serviceTxGrams. simpl. unfold tx_ready. rewrite Ho, Hq. reflexivity.
  - unfold serviceTxGrams. rewrite while_unfold.
    unfold tx_ready at 1. rewrite Ho, Hq. cbn [andb nonempty].
    assert (En : next_send st = Some (b, EmptyString)).
    { unfold next_send. rewrite Hi, Hq, He. reflexivity. }
    rewrite bind_ret_eq
      with (s' := set_txbs (b, Some EmptyString)
                    (set_sent (sent st ++ [(b, EmptyString, Done 0%Z)])
                       (set_transport
                          (fst (send (transport st) b EmptyString))
                          (set_loaded (loaded st ++ [(b, EmptyString)])
                             (set_txgs rest st)))))
           (a := true).
    + destruct b as [|x b]; [congruence|].
      apply (@unaddressed_loop fuel _ x b);
        destruct st; simpl in *; subst; try reflexivity; assumption.
    + rewrite (pass_send_step st En).
      pose proof (send_none (transport st) b EmptyString) as Hs.
      destruct (send (transport st) b EmptyString) as [t' r].
      cbn [fst snd] in *. subst r. cbv zeta. rewrite del_prefix_none.
      destruct b as [|x b]; [congruence|].
      cbn [nonempty negb truthy String.eqb].
      unfold idle in Hi. rewrite Hi, Hq. reflexivity.
Qed.

End EmptyDestination.

Lemma X11_empty_destination_never_ends_witness :
  snd (serviceTxGrams 7
         (set_txgs [(PStr [97%N], EmptyString); (PStr [98%N], "y"%string)]
            (fst (open (init jammed))))) = OutOfFuel.
Proof.
  apply (@X11_empty_destination_never_ends Jammed jammed_transport
           (fun _ _ _ => eq_refl) 7 _ (PStr [97%N]) [x61]
           [(PStr [98%N], "y"%string)]);
    try reflexivity; discriminate.
Defined.

(** ** A send that fails for a reason of its own *)

Section UnexpectedSendError.

Context {T : Type} {tr : Transport T}.

(** X12: when [.send] raises a [socket.error] that is not in the
    peer-unreachable class, the transmit pass raises it again.  The
    Transmit Buffer is as it was, so that a remainder is tried again by the
    next pass; but a gram the pass had just taken from [.txgs] is then
    neither queued nor buffered: it is lost. *)
Theorem X12_unexpected_send_error_is_raised_again
  (st : MemoGram T) gram dst e :
  next_send st = Some (gram, dst) ->
  snd (send (transport st) gram dst) = Fail e ->
  peer_unreachable e = false ->
  let st' := fst (_serviceOnceTxGrams st) in
  snd (_serviceOnceTxGrams st) = Raise (OSError e) /\
  txbs st' = txbs st /\
  txgs st' = txgs_after_take st /\
  sent st' = sent st ++ [(gram, dst, Fail e)] /\
  logged st' = logged st /\
  receive_state st' = receive_state st.
Proof.
  intros Hn Hs He. cbv zeta. rewrite (pass_send_step st Hn).
  destruct (send (transport st) gram dst) as [t' r]. cbn [snd] in Hs.
  subst r. cbv zeta. rewrite He. cbn [fst snd]. unfold txgs_after_take.
  destruct st as [o rg rm tm tg [b [d|]] t sn lg ld]; simpl; repeat split.
Qed.

End UnexpectedSendError.

Lemma X12_unexpected_send_error_is_raised_again_witness :
  let st := mkMemoGram true [] [] []
              [(PStr [97%N], "x"%string); (PStr [98%N], "y"%string)]
              ([], None) (mkSim [] [Fail ENOBUFS]) [] [] [] in
  snd (_serviceOnceTxGrams st) = Raise (OSError ENOBUFS) /\
  txbs (fst (_serviceOnceTxGrams st)) = ([], None) /\
  txgs (fst (_serviceOnceTxGrams st)) = [(PStr [98%N], "y"%string)].
Proof.
  cbv zeta.
  destruct (@X12_unexpected_send_error_is_raised_again Sim sim_transport
              (mkMemoGram true [] [] []
                 [(PStr [97%N], "x"%string); (PStr [98%N], "y"%string)]
                 ([], None) (mkSim [] [Fail ENOBUFS]) [] [] [])
              [x61] "x"%string ENOBUFS eq_refl eq_refl eq_refl)
    as (H1 & H2 & H3 & _).
  exact (conj H1 (conj H2 H3)).
Defined.

(** ** Everything queued is sent, in order *)

Section SentInOrder.

Context {T : Type} {tr : Transport T}.

(** The transport reports every octet sent, always. *)
Hypothesis send_full :
  forall t b d, snd (send t b d) = Done (Z.of_nat (List.length b)).

(** The sends of the grams [gs], whose octets are [bs]. *)
Lemma serviceTxGrams_sends (gs : list (pyval * addr)) :
  forall (bs : list bytes) (st : MemoGram T) (fuel : nat),
    opened st = true ->
    idle st ->
    txgs st = gs ->
    Forall2 (fun g b => encode (fst g) = Ret b) gs bs ->
    (List.length gs <= fuel)%nat ->
    serviceTxGrams fuel st =
      (set_transport
         (after_sends (transport st)
            (map (fun gb => (snd gb, snd (fst gb))) (combine gs bs)))
         (set_loaded
            (loaded st ++ map (fun gb => (snd gb, snd (fst gb))) (combine gs bs))
            (set_sent
               (sent st ++
                map (fun gb => (snd gb, snd (fst gb),
                                Done (Z.of_nat (List.length (snd gb)))))
                  (combine gs bs))
               (set_txgs [] st))),
       Ret tt).
Proof.
  induction gs as [|[g d] gs IH]; intros bs st fuel Ho Hi Hq Hf Hl.
  - unfold serviceTxGrams.
    rewrite while_done by (unfold tx_ready; rewrite Hq; apply andb_false_r).
    inversion Hf; subst. simpl. rewrite !app_nil_r.
    destruct st; simpl in *; subst; reflexivity.
  - inversion Hf as [|? b ? bs' Hb Hf']; subst. simpl in Hb.
    destruct fuel as [|fuel]; [simpl in Hl; lia|].
    unfold serviceTxGrams. rewrite while_unfold.
    replace (tx_ready st) with true
      by (unfold tx_ready; rewrite Ho, Hq; reflexivity).
    assert (Hn : next_send st = Some (b, d)).
    { unfold next_send. rewrite Hi, Hq, Hb. reflexivity. }
    pose proof (pass_full_send send_full _ Hn) as Hp.
    unfold idle in Hi. rewrite Hi in Hp.
    unfold bind at 1. rewrite Hp.
    fold (@serviceTxGrams T tr fuel).
    rewrite (IH bs');
      [ | exact Ho | reflexivity | simpl; rewrite Hq; reflexivity
        | exact Hf' | simpl in Hl; lia ].
    destruct st; simpl in *; subst.
    rewrite <- !app_assoc. reflexivity.
Qed.

Lemma serviceAllTx_sends (bs : list bytes) (st : MemoGram T) (fuel : nat) :
  opened st = true ->
  idle st ->
  Forall2 (fun g b => encode (fst g) = Ret b) (txgs st ++ txms st) bs ->
  (List.length (txgs st ++ txms st) <= fuel)%nat ->
  serviceAllTx fuel st =
    (set_transport
       (after_sends (transport st)
          (map (fun gb => (snd gb, snd (fst gb)))
             (combine (txgs st ++ txms st) bs)))
       (set_loaded
          (loaded st ++
           map (fun gb => (snd gb, snd (fst gb)))
             (combine (txgs st ++ txms st) bs))
          (set_sent
             (sent st ++
              map (fun gb => (snd gb, snd (fst gb),
                              Done (Z.of_nat (List.length (snd gb)))))
                (combine (txgs st ++ txms st) bs))
             (set_txgs [] (set_txms [] st)))),
     Ret tt).
Proof.
  intros Ho Hi Hf Hl. unfold serviceAllTx.
  rewrite length_app in Hl.
  erewrite bind_ret_eq
    by (apply serviceTxMemos_run with (ms := txms st); [reflexivity | lia]).
  rewrite (@serviceTxGrams_sends (txgs st ++ txms st) bs);
    try (destruct st; simpl in *; first [assumption | reflexivity]).
  destruct st; simpl in *. rewrite length_app. lia.
Qed.

(** X13: over a transport that reports every octet sent, on an opened
    object with an idle Transmit Buffer in which every queued gram and
    every queued memo is a string that encodes (no bytes value, no lone
    surrogate), the greedy transmit side, with fuel for each of them,
    returns, having sent everything the object held, each gram whole as one
    datagram to its own destination: first the grams already queued, then
    the memos, both in the order they were queued.  It ends with [.txms] and
    [.txgs] empty and the buffer idle, and leaves the receive side alone. *)
Theorem X13_transmit_side_sends_all_in_order
  (bs : list bytes) (st : MemoGram T) (fuel : nat) :
  opened st = true ->
  idle st ->
  Forall2 (fun g b => encode (fst g) = Ret b) (txgs st ++ txms st) bs ->
  (List.length (txgs st ++ txms st) <= fuel)%nat ->
  let st' := fst (serviceAllTx fuel st) in
  snd (serviceAllTx fuel st) = Ret tt /\
  txms st' = [] /\ txgs st' = [] /\ idle st' /\
  sent st' =
    sent st ++
    map (fun gb => (snd gb, snd (fst gb),
                    Done (Z.of_nat (List.length (snd gb)))))
      (combine (txgs st ++ txms st) bs) /\
  transport st' =
    after_sends (transport st)
      (map (fun gb => (snd gb, snd (fst gb)))
         (combine (txgs st ++ txms st) bs)) /\
  receive_state st' = receive_state st.
Proof.
  intros Ho Hi Hf Hl. cbv zeta.
  rewrite (serviceAllTx_sends Ho Hi Hf Hl).
  cbn [fst snd]. destruct st; simpl in *. repeat split. exact Hi.
Qed.

End SentInOrder.

Lemma X13_transmit_side_sends_all_in_order_witness :
  let st := mkMemoGram true [] [] [(PStr [98%N], "y"%string)]
              [(PStr [97%N], "x"%string)] ([], None) (mkLoopback [])
              [] [] [] in
  snd (serviceAllTx 2 st) = Ret tt /\
  wire (transport (fst (serviceAllTx 2 st)))
    = [([x61], "x"%string); ([x62], "y"%string)].
Proof.
  cbv zeta.
  destruct (@X13_transmit_side_sends_all_in_order Loopback loopback_transport
              (fun _ _ _ => eq_refl) [[x61]; [x62]]
              (mkMemoGram true [] [] [(PStr [98%N], "y"%string)]
                 [(PStr [97%N], "x"%string)] ([], None) (mkLoopback [])
                 [] [] []) 2)
    as (H1 & _ & _ & _ & _ & H2 & _).
  - reflexivity.
  - reflexivity.
  - repeat constructor.
  - simpl. lia.
  - split; [exact H1|]. rewrite H2. reflexivity.
Defined.

(** ** Memos through the loopback *)

Module EnqueueFacts.

Lemma keeps_NoDup d dg :
  NoDup (Dict.keys d) -> NoDup (Dict.keys (enqueue d dg)).
Proof.
  intros Hn. unfold enqueue.
  destruct (Dict.get (snd dg) d) as [q|] eqn:E.
  - erewrite DictFacts.keys_set_present by exact E. exact Hn.
  - rewrite DictFacts.keys_set_absent by exact E.
    apply DictFacts.get_None_keys in E.
    apply (proj2 (NoDup_Add (Add_app (snd dg) (Dict.keys d) []))).
    rewrite app_nil_r. split; assumption.
Qed.

Lemma keeps_all_decode d dg :
  all_decode d -> Utf8.decode (fst dg) <> None -> all_decode (enqueue d dg).
Proof.
  unfold all_decode. intros Ha Hg. rewrite Forall_forall in *.
  intros x Hx. unfold enqueue in Hx.
  destruct (Dict.get (snd dg) d) as [q|] eqn:E;
    apply DictFacts.In_set in Hx; destruct Hx as [->|Hx];
    try (apply Ha; exact Hx); cbn [snd].
  - apply Forall_app. split.
    + apply DictFacts.get_In in E. apply (Ha _ E).
    + constructor; [exact Hg | constructor].
  - constructor; [exact Hg | constructor].
Qed.

Lemma total_grams_set_present k q v d :
  Dict.get k d = Some q ->
  (total_grams (Dict.set k v d) + List.length q
   = total_grams d + List.length v)%nat.
Proof.
  unfold total_grams.
  induction d as [|[k' w] d IH]; simpl; [discriminate|].
  destruct (String.eqb_spec k k') as [->|Hk]; simpl.
  - intros H. injection H as ->. lia.
  - intros H. specialize (IH H). lia.
Qed.

Lemma total_grams_set_absent k (v : list bytes) d :
  Dict.get k d = None ->
  total_grams (Dict.set k v d) = (total_grams d + List.length v)%nat.
Proof.
  unfold total_grams.
  induction d as [|[k' w] d IH]; simpl; [intros; lia|].
  destruct (String.eqb_spec k k') as [->|Hk]; simpl; [discriminate|].
  intros H. rewrite (IH H). lia.
Qed.

Lemma total_grams_enqueue d dg :
  total_grams (enqueue d dg) = S (total_grams d).
Proof.
  unfold enqueue. destruct (Dict.get (snd dg) d) as [q|] eqn:E.
  - pose proof (@total_grams_set_present _ _ (q ++ [fst dg]) _ E) as H.
    rewrite length_app in H. simpl in H. lia.
  - rewrite total_grams_set_absent by exact E. simpl. lia.
Qed.

Lemma deque_of_enqueue src d dg :
  deque_of src (enqueue d dg)
    = if String.eqb (snd dg) src then deque_of src d ++ [fst dg]
      else deque_of src d.
Proof.
  unfold enqueue, deque_of.
  destruct (String.eqb_spec (snd dg) src) as [<-|Hne].
  - destruct (Dict.get (snd dg) d) as [q|];
      rewrite DictFacts.get_set_same; reflexivity.
  - destruct (Dict.get (snd dg) d) as [q|];
      rewrite StoreFacts.get_set_other by congruence; reflexivity.
Qed.

(** A store after a sequence of datagrams has been queued in it. *)
Lemma after_datagrams (out : list (bytes * addr)) :
  forall d,
    NoDup (Dict.keys d) ->
    all_decode d ->
    Forall (fun o => Utf8.decode (fst o) <> None) out ->
    NoDup (Dict.keys (fold_left enqueue out d)) /\
    all_decode (fold_left enqueue out d) /\
    total_grams (fold_left enqueue out d)
      = (total_grams d + List.length out)%nat /\
    forall src,
      deque_of src (fold_left enqueue out d)
        = deque_of src d ++
          map fst (filter (fun o => String.eqb (snd o) src) out).
Proof.
  induction out as [|o out IH]; intros d Hn Ha Hf; simpl.
  - repeat split; try assumption; [lia|].
    intros src. rewrite app_nil_r. reflexivity.
  - inversion Hf as [|? ? Ho Hf']; subst.
    destruct (IH (enqueue d o)) as (H1 & H2 & H3 & H4);
      [apply keeps_NoDup; exact Hn | apply keeps_all_decode; assumption | exact Hf'|].
    repeat split; try assumption.
    + rewrite H3, total_grams_enqueue. lia.
    + intros src. rewrite H4, deque_of_enqueue. unfold addr in *.
      destruct (String.eqb (snd o) src); simpl;
        rewrite <- ?app_assoc; reflexivity.
Qed.

End EnqueueFacts.

Section LoopbackExchange.

Lemma loopback_after_sends (out : list (bytes * addr)) :
  forall w, after_sends (mkLoopback w) out = mkLoopback (w ++ out).
Proof.
  unfold after_sends.
  induction out as [|[b d] out IH]; intros w; simpl.
  - rewrite app_nil_r. reflexivity.
  - rewrite IH, <- app_assoc. reflexivity.
Qed.

(** The grams of memos that encode, and what decoding them gives back. *)
Lemma grams_of_memos (mds : list (pystr * addr)) (bs : list bytes) :
  Forall2 (fun md b => Utf8.encode (fst md) = Some b /\ b <> []) mds bs ->
  Forall2 (fun g b => encode (fst g) = Ret b)
    (map (fun md => (PStr (fst md), snd md)) mds) bs /\
  Forall (fun o : bytes * addr => fst o <> [])
    (map (fun gb => (snd gb, snd (fst gb)))
       (combine (map (fun md => (PStr (fst md), snd md)) mds) bs)) /\
  Forall (fun o : bytes * addr => Utf8.decode (fst o) <> None)
    (map (fun gb => (snd gb, snd (fst gb)))
       (combine (map (fun md => (PStr (fst md), snd md)) mds) bs)) /\
  List.length
    (map (fun gb : pyval * addr * bytes => (snd gb, snd (fst gb)))
       (combine (map (fun md => (PStr (fst md), snd md)) mds) bs))
    = List.length mds /\
  forall peer,
    decoded
      (map fst
         (filter (fun o : bytes * addr => String.eqb (snd o) peer)
            (map (fun gb => (snd gb, snd (fst gb)))
               (combine (map (fun md => (PStr (fst md), snd md)) mds) bs))))
      = memos_of peer mds.
Proof.
  induction 1 as [|[m d] b mds bs [He Hb] Hf (IH1 & IH2 & IH3 & IH4 & IH5)];
    simpl.
  - repeat split; constructor.
  - cbn [fst snd] in He.
    pose proof (Utf8Facts.decode_encode _ He) as Hd.
    repeat split.
    + constructor; [|exact IH1]. simpl. rewrite He. reflexivity.
    + constructor; [exact Hb | exact IH2].
    + constructor; [simpl; congruence | exact IH3].
    + rewrite IH4. reflexivity.
    + intros peer. unfold memos_of. simpl. unfold addr in *.
      destruct (String.eqb d peer); simpl.
      * rewrite Hd. simpl. f_equal. apply IH5.
      * apply IH5.
Qed.

(** X14: memos handed to an opened object over the loopback, each of them
    a string whose encoding has at least one octet, all come back: after
    the greedy transmit side, the greedy receive and the greedy reassembly,
    [.rxms] has gained one memo for each memo sent, and the memos of each
    peer are there as they were sent and in the order they were sent, behind
    the memos that peer already had there.  Nothing is left queued, on the
    wire or in the Gram Receive Store. *)
Theorem X14_loopback_returns_each_peers_memos_in_order
  (mds : list (pystr * addr)) (bs : list bytes)
  (st : MemoGram Loopback) (fuel : nat) :
  opened st = true ->
  idle st ->
  txgs st = [] ->
  txms st = map (fun md => (PStr (fst md), snd md)) mds ->
  rxgs st = [] ->
  wire (transport st) = [] ->
  Forall2 (fun md b => Utf8.encode (fst md) = Some b /\ b <> []) mds bs ->
  (List.length mds < fuel)%nat ->
  let st' := fst (loopback_exchange fuel st) in
  snd (loopback_exchange fuel st) = Ret tt /\
  txms st' = [] /\ txgs st' = [] /\ rxgs st' = [] /\
  wire (transport st') = [] /\
  (forall peer,
      memos_of peer (rxms st')
        = memos_of peer (rxms st) ++ memos_of peer mds) /\
  List.length (rxms st') = (List.length (rxms st) + List.length mds)%nat.
Proof.
  intros Ho Hi Hg Hm Hr Hw Hf Hl. cbv zeta.
  destruct (grams_of_memos Hf) as (F1 & F2 & F3 & F4 & F5).
  destruct st as [o rg rm tm tg tb [w] sn lg ld].
  unfold idle in Hi. simpl in Ho, Hi, Hg, Hm, Hr, Hw. subst o tb tg tm rg w.
  unfold loopback_exchange.
  erewrite bind_ret_eq.
  2:{ apply (@serviceAllTx_sends Loopback loopback_transport
               (fun _ _ _ => eq_refl) bs); simpl;
        [reflexivity | reflexivity | exact F1
        | rewrite length_map; lia]. }
  cbn [txgs txms transport sent loaded app].
  rewrite loopback_after_sends. cbn [app].
  set (out := map (fun gb : pyval * addr * bytes => (snd gb, snd (fst gb)))
                (combine (map (fun md => (PStr (fst md), snd md)) mds) bs))
    in *.
  match goal with
  | |- context [bind (serviceReceives fuel None) _ ?s] =>
    destruct (@serviceReceives_drains Loopback loopback_transport wire
                loopback_receive_pops out s [] fuel None)
      as (t' & E & Ht')
  end;
    [reflexivity | simpl; rewrite app_nil_r; reflexivity | exact F2
    | exact I | lia | ].
  erewrite bind_ret_eq by exact E.
  destruct (EnqueueFacts.after_datagrams (d := []) (NoDup_nil _)
              (Forall_nil _) F3) as (G1 & G2 & G3 & G4).
  match goal with
  | |- context [serviceRxGrams fuel ?s] =>
    destruct (@serviceRxGrams_drains Loopback fuel s)
      as (R1 & R2 & R3 & R4 & R5)
  end.
  - exact G1.
  - exact G2.
  - simpl. rewrite G3. change (total_grams []) with 0%nat. lia.
  - cbv zeta in *. simpl in R2, R3, R4, R5 |- *.
    injection R5 as _ Rt Rm Rg _ _ _ _.
    repeat split; try assumption.
    + rewrite Rt. exact Ht'.
    + intros peer. rewrite R3, G4.
      change (deque_of peer []) with (@nil bytes). cbn [app].
      rewrite <- (F5 peer). reflexivity.
    + rewrite R4, G3. change (total_grams []) with 0%nat. lia.
Qed.

End LoopbackExchange.

Lemma X14_loopback_returns_each_peers_memos_in_order_witness :
  let st := set_txms [(PStr [97%N], "x"%string); (PStr [98%N], "y"%string);
                      (PStr [99%N], "x"%string)] loopback_peer in
  snd (loopback_exchange 4 st) = Ret tt /\
  memos_of "x"%string (rxms (fst (loopback_exchange 4 st)))
    = [[97%N]; [99%N]] /\
  List.length (rxms (fst (loopback_exchange 4 st))) = 3%nat.
Proof.
  cbv zeta.
  destruct (@X14_loopback_returns_each_peers_memos_in_order
              [([97%N], "x"%string); ([98%N], "y"%string);
               ([99%N], "x"%string)]
              [[x61]; [x62]; [x63]]
              (set_txms [(PStr [97%N], "x"%string); (PStr [98%N], "y"%string);
                         (PStr [99%N], "x"%string)] loopback_peer) 4)
    as (H1 & _ & _ & _ & _ & H2 & H3);
    try reflexivity.
  - repeat constructor; discriminate.
  - simpl. lia.
  - exact (conj H1 (conj (H2 "x"%string) H3)).
Defined.

(** ** Non-greedy rounds of the transmit side *)

Section TransmitRounds.

Context {T : Type} {tr : Transport T}.

Hypothesis send_full :
  forall t b d, snd (send t b d) = Done (Z.of_nat (List.length b)).

Lemma serviceTxMemosOnce_moves_one (st : MemoGram T) :
  serviceTxMemosOnce st =
    (match txms st with
     | [] => st
     | m :: ms => set_txgs (txgs st ++ [m]) (set_txms ms st)
     end, Ret tt).
Proof.
  destruct st as [o rg rm [|[m d] ms] tg tb t sn lg ld]; reflexivity.
Qed.

(** One round sends the gram at the head of what is queued. *)
Lemma round_sends_head (st : MemoGram T) g d q b :
  opened st = true ->
  idle st ->
  txgs st ++ txms st = (g, d) :: q ->
  encode g = Ret b ->
  serviceAllTxOnce st =
    (set_txbs ([], None)
       (set_sent (sent st ++ [(b, d, Done (Z.of_nat (List.length b)))])
          (set_transport (fst (send (transport st) b d))
             (set_loaded (loaded st ++ [(b, d)])
                (set_txgs (tl (txgs st ++ firstn 1 (txms st)))
                   (set_txms (tl (txms st)) st))))),
     Ret tt).
Proof.
  intros Ho Hi Hq He. unfold idle in Hi.
  destruct st as [o rg rm tm tg tb t sn lg ld]. simpl in Ho, Hi, Hq.
  subst o tb.
  assert (Hpass : forall s : MemoGram T,
             opened s = true -> txbs s = ([], None) ->
             (exists rest, txgs s = (g, d) :: rest) ->
             serviceTxGramsOnce s =
               (set_txbs ([], None)
                  (set_sent
                     (sent s ++ [(b, d, Done (Z.of_nat (List.length b)))])
                     (set_transport (fst (send (transport s) b d))
                        (set_loaded (loaded s ++ [(b, d)])
                           (set_txgs (tl (txgs s)) s)))),
                Ret tt)).
  { intros s Hso Hsb [rest Hsg].
    assert (Hn : next_send s = Some (b, d))
      by (unfold next_send; rewrite Hsb, Hsg, He; reflexivity).
    unfold serviceTxGramsOnce, bind at 1, gets at 1, tx_ready.
    rewrite Hso, Hsg. cbn [andb nonempty].
    erewrite bind_ret_eq by exact (pass_full_send send_full _ Hn).
    rewrite Hsb, Hsg. reflexivity. }
  unfold serviceAllTxOnce.
  erewrite bind_ret_eq by apply serviceTxMemosOnce_moves_one.
  rewrite Hpass.
  - destruct tm; simpl; rewrite ?app_nil_r; reflexivity.
  - destruct tm; reflexivity.
  - destruct tm; reflexivity.
  - destruct tg as [|x tg]; simpl in Hq.
    + subst tm. simpl. eexists. reflexivity.
    + injection Hq as -> _. destruct tm; simpl; eexists; reflexivity.
Qed.

Lemma rounds_of_idle_side n :
  forall st : MemoGram T,
    txms st = [] -> txgs st = [] ->
    rounds n serviceAllTxOnce st = (st, Ret tt).
Proof.
  induction n as [|n IH]; intros st Hm Hg; [reflexivity|].
  cbn [rounds].
  erewrite bind_ret_eq; [apply IH; assumption|].
  destruct st as [o rg rm tm tg tb t sn lg ld]. simpl in Hm, Hg. subst.
  unfold serviceAllTxOnce, serviceTxGramsOnce, bind, gets, tx_ready.
  rewrite serviceTxMemosOnce_moves_one. simpl.
  rewrite andb_false_r. reflexivity.
Qed.

Lemma rounds_send_all (q : list (pyval * addr)) :
  forall (bs : list bytes) (st : MemoGram T) (n : nat),
    opened st = true ->
    idle st ->
    txgs st ++ txms st = q ->
    Forall2 (fun g b => encode (fst g) = Ret b) q bs ->
    (List.length q <= n)%nat ->
    rounds n serviceAllTxOnce st =
      (set_transport
         (after_sends (transport st)
            (map (fun gb => (snd gb, snd (fst gb))) (combine q bs)))
         (set_loaded
            (loaded st ++
             map (fun gb => (snd gb, snd (fst gb))) (combine q bs))
            (set_sent
               (sent st ++
                map (fun gb => (snd gb, snd (fst gb),
                                Done (Z.of_nat (List.length (snd gb)))))
                  (combine q bs))
               (set_txgs [] (set_txms [] st)))),
       Ret tt).
Proof.
  induction q as [|[g d] q IH]; intros bs st n Ho Hi Hq Hf Hl.
  - apply app_eq_nil in Hq. destruct Hq as [Hg Hm].
    rewrite rounds_of_idle_side by assumption.
    inversion Hf; subst. simpl.
    destruct st; simpl in *; subst. rewrite !app_nil_r. reflexivity.
  - inversion Hf as [|? b ? bs' Hb Hf']; subst. cbn [fst] in Hb.
    destruct n as [|n]; [simpl in Hl; lia|]. cbn [rounds].
    erewrite bind_ret_eq by (eapply round_sends_head; eassumption).
    rewrite (IH bs').
    + destruct st as [o rg rm tm tg tb t sn lg ld].
      unfold idle in Hi. simpl in Hi. subst tb. simpl.
      unfold after_sends. simpl. rewrite <- !app_assoc. reflexivity.
    + destruct st; exact Ho.
    + destruct st; reflexivity.
    + destruct st as [o rg rm tm tg tb t sn lg ld]. simpl in *.
      destruct tg as [|x tg]; simpl in *.
      * subst tm. reflexivity.
      * injection Hq as _ <-.
        destruct tm; simpl; rewrite <- ?app_assoc, ?app_nil_r; reflexivity.
    + exact Hf'.
    + simpl in Hl. lia.
Qed.

(** X15: over a transport that reports every octet sent, on an opened
    object with an idle Transmit Buffer in which every queued gram and
    every queued memo is a string that encodes (no bytes value, no lone
    surrogate), the non-greedy transmit round [serviceAllTxOnce], called
    once for each memo and gram that is queued (or more often), leaves the
    object exactly as one call of the greedy [serviceAllTx] does, which
    returns: the same datagrams sent in the same order, and both queues
    empty. *)
Theorem X15_rounds_amount_to_greedy_transmit
  (bs : list bytes) (st : MemoGram T) (n fuel : nat) :
  opened st = true ->
  idle st ->
  Forall2 (fun g b => encode (fst g) = Ret b) (txgs st ++ txms st) bs ->
  (List.length (txgs st ++ txms st) <= n)%nat ->
  (List.length (txgs st ++ txms st) <= fuel)%nat ->
  rounds n serviceAllTxOnce st = serviceAllTx fuel st /\
  snd (serviceAllTx fuel st) = Ret tt.
Proof.
  intros Ho Hi Hf Hn Hl.
  rewrite (@rounds_send_all (txgs st ++ txms st) bs st n Ho Hi eq_refl Hf Hn).
  rewrite (serviceAllTx_sends send_full Ho Hi Hf Hl).
  split; reflexivity.
Qed.

End TransmitRounds.

Lemma X15_rounds_amount_to_greedy_transmit_witness :
  let st := mkMemoGram true [] [] [(PStr [98%N], "y"%string)]
              [(PStr [97%N], "x"%string)] ([], None) (mkLoopback [])
              [] [] [] in
  rounds 2 serviceAllTxOnce st = serviceAllTx 5 st /\
  snd (serviceAllTx 5 st) = Ret tt.
Proof.
  cbv zeta.
  apply (@X15_rounds_amount_to_greedy_transmit Loopback loopback_transport
           (fun _ _ _ => eq_refl) [[x61]; [x62]]).
  - reflexivity.
  - reflexivity.
  - repeat constructor.
  - simpl. lia.
  - simpl. lia.
Defined.

(** ** A gram that does not decode *)

Section UndecodableGram.

Context {T : Type}.

Lemma for_each_app {S A B} (xs ys : list A) (body : A -> M S B) s :
  for_each (xs ++ ys) body s =
    (bs1 <- for_each xs body ;;
     bs2 <- for_each ys body ;;
     ret (bs1 ++ bs2)) s.
Proof.
  revert s. induction xs as [|x xs IH]; intros s; simpl.
  - unfold bind, ret.
    destruct (for_each ys body s) as [s' [bs| |]]; reflexivity.
  - unfold bind, ret in *.
    destruct (body x s) as [s1 [b| |]]; try reflexivity.
    rewrite IH.
    destruct (for_each xs body s1) as [s2 [bs1| |]]; try reflexivity.
    destruct (for_each ys body s2) as [s3 [bs2| |]]; reflexivity.
Qed.

(** The rounds of a pass for the sources [mid], the sources before them
    done and the sources [rest] still to come. *)
Lemma rx_pass_prefix (mid : Dict.t (list bytes)) :
  forall (done rest : Dict.t (list bytes)) (st : MemoGram T),
    rxgs st = done ++ mid ++ rest ->
    NoDup (Dict.keys (done ++ mid ++ rest)) ->
    heads_decode mid ->
    for_each (Dict.keys mid) (fun src =>
      memo <- on_rxgs_at src desegment ;;
      match memo with
      | Some m => on_rxms (append (m, src))
      | None => ret tt
      end ;;
      q <- on_rxgs_at src (gets (fun q => q)) ;;
      (if negb (nonempty q)
       then modify (fun st => set_rxgs (Dict.del src (rxgs st)) st)
       else ret tt) ;;
      match memo with
      | Some _ => gets (fun st => Dict.mem src (rxgs st))
      | None => ret false
      end) st =
    (set_rxms (rxms st ++ head_memos mid)
       (set_rxgs (done ++ behead mid ++ rest) st),
     Ret (map (fun kq => nonempty (tl (snd kq))) mid)).
Proof.
  induction mid as [|[k q] mid IH]; intros done rest st Hq Hn Hd.
  - simpl. unfold ret. simpl in Hq.
    destruct st; simpl in *; subst. rewrite app_nil_r. reflexivity.
  - inversion Hd as [|? ? Hk Hd']; subst.
    assert (Hk' : heads_decode [(k, q)])
      by (constructor; [exact Hk | constructor]).
    assert (Hn' : ~ In k (Dict.keys (done ++ mid ++ rest))).
    { unfold Dict.keys in *. rewrite !map_app in *. simpl in Hn.
      apply NoDup_remove_2 in Hn. exact Hn. }
    assert (Hnk : ~ In k (Dict.keys done)).
    { intros Hin. apply Hn'. unfold Dict.keys in *. rewrite map_app.
      apply in_or_app. left. exact Hin. }
    cbn [Dict.keys map fst for_each].
    erewrite bind_ret_eq.
    2:{ apply rx_pass_round with (done := done) (todo := mid ++ rest);
          [exact Hq | exact Hnk | apply StoreFacts.get_notin; exact Hn'
          | exact Hk']. }
    fold (Dict.keys mid).
    erewrite bind_ret_eq.
    2:{ apply (IH (done ++ behead [(k, q)]) rest).
        - destruct st; simpl. rewrite <- !app_assoc. reflexivity.
        - unfold Dict.keys in *. rewrite !map_app in *. simpl in Hn.
          unfold behead. cbn [flat_map snd fst].
          destruct (tl q); cbn [map app fst].
          + rewrite app_nil_r. eapply NoDup_remove_1. exact Hn.
          + rewrite <- app_assoc. exact Hn.
        - exact Hd'. }
    unfold ret. f_equal.
    destruct st as [o rg rm tm tg tb t sn lg ld]. cbn.
    unfold head_memos, behead. cbn [flat_map snd fst].
    rewrite <- !app_assoc. reflexivity.
Qed.

(** The round of the pass for a source whose first gram does not decode. *)
Lemma rx_pass_round_bad (st : MemoGram T) k g r done todo :
  rxgs st = done ++ (k, g :: r) :: todo ->
  ~ In k (Dict.keys done) ->
  Utf8.decode g = None ->
  (memo <- on_rxgs_at k desegment ;;
   match memo with
   | Some m => on_rxms (append (m, k))
   | None => ret tt
   end ;;
   q' <- on_rxgs_at k (gets (fun q' => q')) ;;
   (if negb (nonempty q')
    then modify (fun st => set_rxgs (Dict.del k (rxgs st)) st)
    else ret tt) ;;
   match memo with
   | Some _ => gets (fun st => Dict.mem k (rxgs st))
   | None => ret false
   end) st =
  (set_rxgs (done ++ (k, r) :: todo) st, Raise UnicodeDecodeError).
Proof.
  intros Hq Hn Hg. destruct st as [o rg rm tm tg tb t sn lg ld].
  simpl in Hq. subst rg.
  unfold bind at 1, on_rxgs_at at 1. cbn [rxgs].
  rewrite StoreFacts.get_mid by exact Hn.
  unfold desegment, try_except, bind, popleft, lift, decode. rewrite Hg.
  cbn [is_IndexError]. rewrite StoreFacts.set_mid by exact Hn. reflexivity.
Qed.

Lemma rx_pass_bad (st : MemoGram T) before k g r after :
  rxgs st = before ++ (k, g :: r) :: after ->
  NoDup (Dict.keys (rxgs st)) ->
  heads_decode before ->
  Utf8.decode g = None ->
  _serviceOnceRxGrams st =
    (set_rxms (rxms st ++ head_memos before)
       (set_rxgs (behead before ++ (k, r) :: after) st),
     Raise UnicodeDecodeError).
Proof.
  intros Hq Hn Hb Hg. unfold _serviceOnceRxGrams.
  unfold bind at 1, gets at 1. rewrite Hq in Hn |- *.
  assert (Ek : Dict.keys (before ++ (k, g :: r) :: after)
               = Dict.keys before ++ k :: Dict.keys after)
    by (unfold Dict.keys; rewrite map_app; reflexivity).
  rewrite Ek. unfold bind at 1. rewrite for_each_app.
  erewrite bind_ret_eq.
  2:{ apply (@rx_pass_prefix before [] ((k, g :: r) :: after) st);
        [exact Hq | exact Hn | exact Hb]. }
  cbn [for_each app].
  assert (Hnk : ~ In k (Dict.keys (behead before))).
  { intros Hin. apply ReassemblyFacts.keys_behead_incl in Hin.
    rewrite Ek in Hn. apply NoDup_remove_2 in Hn. apply Hn.
    apply in_or_app. left. exact Hin. }
  unfold bind at 1. unfold bind at 1.
  erewrite rx_pass_round_bad with (done := behead before) (todo := after);
    [ | destruct st; reflexivity | exact Hnk | exact Hg ].
  destruct st; reflexivity.
Qed.

(** X16: a gram that does not decode costs one exception and is then
    gone.  When the keys of [.rxgs] are distinct, the first gram of source
    [k] is not valid UTF-8 and the first grams of the sources before [k]
    decode, the reassembly pass raises [UnicodeDecodeError]; by then it has
    served the sources before [k] as usual and has taken the bad gram out of
    the deque of [k], which stays a key even when its deque is now empty;
    the sources after [k] have not been served.  The greedy service raises
    in the same way. *)
Theorem X16_undecodable_gram_is_dropped
  (st : MemoGram T) before k g r after fuel :
  rxgs st = before ++ (k, g :: r) :: after ->
  NoDup (Dict.keys (rxgs st)) ->
  heads_decode before ->
  Utf8.decode g = None ->
  let st' := fst (_serviceOnceRxGrams st) in
  snd (_serviceOnceRxGrams st) = Raise UnicodeDecodeError /\
  rxgs st' = behead before ++ (k, r) :: after /\
  rxms st' = rxms st ++ head_memos before /\
  serviceRxGrams (S fuel) st = (st', Raise UnicodeDecodeError).
Proof.
  intros Hq Hn Hb Hg. cbv zeta.
  pose proof (@rx_pass_bad st before k g r after Hq Hn Hb Hg) as Hp.
  split; [rewrite Hp; reflexivity|].
  split; [rewrite Hp; destruct st; reflexivity|].
  split; [rewrite Hp; destruct st; reflexivity|].
  unfold serviceRxGrams. rewrite while_unfold, Hq.
  destruct before; cbn [app nonempty]; unfold bind; rewrite Hp; reflexivity.
Qed.

End UndecodableGram.

Lemma X16_undecodable_gram_is_dropped_witness :
  let st := mkMemoGram false
              [("a"%string, [[x61]; [x62]]); ("b"%string, [[xff]]);
               ("c"%string, [[x63]])]
              [] [] [] ([], None) tt [] [] [] in
  snd (_serviceOnceRxGrams st) = Raise UnicodeDecodeError /\
  rxgs (fst (_serviceOnceRxGrams st))
    = [("a"%string, [[x62]]); ("b"%string, []); ("c"%string, [[x63]])] /\
  rxms (fst (_serviceOnceRxGrams st)) = [([97%N], "a"%string)].
Proof.
  cbv zeta.
  destruct (@X16_undecodable_gram_is_dropped unit
              (mkMemoGram false
                 [("a"%string, [[x61]; [x62]]); ("b"%string, [[xff]]);
                  ("c"%string, [[x63]])]
                 [] [] [] ([], None) tt [] [] [])
              [("a"%string, [[x61]; [x62]])] "b"%string [xff] []
              [("c"%string, [[x63]])] 0)
    as (H1 & H2 & H3 & _).
  - reflexivity.
  - repeat constructor; simpl; intuition discriminate.
  - repeat constructor; discriminate.
  - reflexivity.
  - exact (conj H1 (conj H2 H3)).
Defined.

(** ** The greedy reassembly ends *)

Section ReassemblyEnds.

Context {T : Type}.

Lemma heads_decode_or_not (d : Dict.t (list bytes)) :
  heads_decode d \/
  exists before k g r after,
    d = before ++ (k, g :: r) :: after /\
    heads_decode before /\ Utf8.decode g = None.
Proof.
  induction d as [|[k0 q] d IH]; [left; constructor|].
  assert (Hgood : match q with
                  | g :: _ => Utf8.decode g <> None
                  | [] => True
                  end ->
                  heads_decode ((k0, q) :: d) \/
                  exists before k g r after,
                    (k0, q) :: d = before ++ (k, g :: r) :: after /\
                    heads_decode before /\ Utf8.decode g = None).
  { intros Hq. destruct IH as [IH|(before & k & g & r & after & E & Hb & Hg)].
    - left. constructor; assumption.
    - right. exists ((k0, q) :: before), k, g, r, after.
      rewrite E. repeat split; [constructor; assumption | exact Hg]. }
  destruct q as [|g r]; [apply Hgood; exact I|].
  destruct (Utf8.decode g) as [m|] eqn:Eg.
  - apply Hgood. simpl. rewrite ?Eg. discriminate.
  - right. exists [], k0, g, r, d. repeat split; [constructor | exact Eg].
Qed.

Lemma total_grams_app (a b : Dict.t (list bytes)) :
  total_grams (a ++ b) = (total_grams a + total_grams b)%nat.
Proof.
  unfold total_grams. rewrite map_app.
  induction (map (fun kq : addr * list bytes => List.length (snd kq)) a)
    as [|x xs IH]; simpl; [reflexivity | rewrite IH; lia].
Qed.

Lemma serviceRxGrams_ends fuel :
  forall st : MemoGram T,
    NoDup (Dict.keys (rxgs st)) ->
    (total_grams (rxgs st) < fuel)%nat ->
    (snd (serviceRxGrams fuel st) = Ret tt \/
     snd (serviceRxGrams fuel st) = Raise UnicodeDecodeError) /\
    (List.length (rxms (fst (serviceRxGrams fuel st))) +
     total_grams (rxgs (fst (serviceRxGrams fuel st)))
     <= List.length (rxms st) + total_grams (rxgs st))%nat.
Proof.
  induction fuel as [|fuel IH]; intros st Hn Hf; [lia|].
  unfold serviceRxGrams. rewrite while_unfold.
  destruct (nonempty (rxgs st)) eqn:Ene;
    [|cbn [fst snd]; split; [left; reflexivity | lia]].
  destruct (heads_decode_or_not (rxgs st))
    as [Hh|(before & k & g & r & after & E & Hb & Hg)].
  - erewrite bind_ret_eq by (apply rx_pass; assumption).
    pose proof (ReassemblyFacts.total_grams_behead Hh) as Ht.
    destruct (more_pending (rxgs st)) eqn:Emp.
    + pose proof (@ReassemblyFacts.more_pending_progress _ Emp Hh) as Hp.
      assert (Hlen : (0 < List.length (head_memos (rxgs st)))%nat).
      { destruct (head_memos (rxgs st)); [congruence | simpl; lia]. }
      fold (@serviceRxGrams T fuel).
      destruct (IH (set_rxms (rxms st ++ head_memos (rxgs st))
                      (set_rxgs (behead (rxgs st)) st)))
        as (R1 & R2).
      * destruct st; simpl. apply ReassemblyFacts.NoDup_keys_behead. exact Hn.
      * destruct st; simpl in *. lia.
      * split; [exact R1|].
        etransitivity; [exact R2|].
        destruct st; simpl in *. rewrite length_app. lia.
    + unfold ret. cbn [fst snd]. split; [left; reflexivity|].
      destruct st; simpl in *. rewrite length_app. lia.
  - unfold bind. rewrite (@rx_pass_bad T st before k g r after E Hn Hb Hg).
    cbn [fst snd]. split; [right; reflexivity|].
    pose proof (ReassemblyFacts.total_grams_behead Hb) as Ht.
    rewrite E. destruct st; simpl.
    rewrite length_app, !total_grams_app.
    unfold total_grams at 2 4. simpl.
    fold (total_grams after). lia.
Qed.

(** X17: the greedy reassembly service ends on every store whose keys are
    distinct, whatever octets its grams hold: it returns, or it raises
    [UnicodeDecodeError] at the first gram that does not decode.  Either
    way no gram is turned into more than one memo. *)
Theorem X17_greedy_reassembly_ends (fuel : nat) (st : MemoGram T) :
  NoDup (Dict.keys (rxgs st)) ->
  (total_grams (rxgs st) < fuel)%nat ->
  let st' := fst (serviceRxGrams fuel st) in
  (snd (serviceRxGrams fuel st) = Ret tt \/
   snd (serviceRxGrams fuel st) = Raise UnicodeDecodeError) /\
  (List.length (rxms st') + total_grams (rxgs st')
   <= List.length (rxms st) + total_grams (rxgs st))%nat.
Proof. intros Hn Hf. apply serviceRxGrams_ends; assumption. Qed.

End ReassemblyEnds.

Lemma X17_greedy_reassembly_ends_witness :
  let st := mkMemoGram false
              [("a"%string, [[x61]; [xff]; [x62]]); ("b"%string, [[x63]])]
              [] [] [] ([], None) tt [] [] [] in
  (snd (serviceRxGrams 5 st) = Ret tt \/
   snd (serviceRxGrams 5 st) = Raise UnicodeDecodeError) /\
  (List.length (rxms (fst (serviceRxGrams 5 st))) +
   total_grams (rxgs (fst (serviceRxGrams 5 st))) <= 4)%nat.
Proof.
  cbv zeta.
  apply (@X17_greedy_reassembly_ends unit 5
           (mkMemoGram false
              [("a"%string, [[x61]; [xff]; [x62]]); ("b"%string, [[x63]])]
              [] [] [] ([], None) tt [] [] [])).
  - repeat constructor; simpl; intuition discriminate.
  - vm_compute. lia.
Defined.
